(** * dino-Backend wallet service

    A shallow embedding of the transactional core of the wallet service:
    - [src/utils/request-fingerprint.ts]   (stableStringify, buildRequestFingerprint)
    - [src/services/concurrency-controls.ts] (sortUniqueWalletIds, toWalletLockKeys,
      assertOptimisticWalletUpdates)
    - [src/services/distributed-lock.ts]   (DistributedLockService)
    - [src/services/idempotency-cache.ts]  (IdempotencyCache)
    - [src/services/wallet-service.ts]     (WalletService)
    - [src/middleware/idempotency.ts]      (requireIdempotency)
    - [src/routes/wallet-routes.ts]        (buildMutationInput, the mutation routes)
    - [src/routes/health-routes.ts]        (the readiness route)
    together with the part of the relational schema those functions touch and
    the in-memory lock client of [tests/distributed-lock.test.ts].

    Conventions of the embedding.
    - A JavaScript string is a Rocq [string]: the bytes of its UTF-8 encoding.
      Wallet ids, asset codes, idempotency keys and HTTP methods are ASCII.
    - A [bigint], and every integer column, is a [Z]; a statement that needs
      an amount to fit its BIGINT column says so.
    - A uuid is the text PostgreSQL prints for it (lower-case hexadecimal);
      the ids that the functions of the service take are in that form.
    - An [async] function that talks to PostgreSQL or Redis is a function of
      the store it reads, returning the store it leaves behind.  A promise that
      rejects (a [throw]) is the [Thrown] outcome.
    - Values that the platform draws at run time (random UUIDs, the database
      time stamp) are passed in as arguments. *)

From Stdlib Require Import ZArith NArith Ascii String List Lia Sorted Permutation.
From Stdlib Require Import Decimal DecimalString DecimalPos DecimalZ.
From stdpp Require Import base decidable option list sorting gmap strings.

Set Warnings "-register-all".

Open Scope string_scope.
Open Scope list_scope.
Open Scope Z_scope.

(** ** Strings *)

Fixpoint mapString (f : ascii → ascii) (s : string) : string :=
  match s with
  | EmptyString => EmptyString
  | String c rest => String (f c) (mapString f rest)
  end.

Definition isAsciiLower (c : ascii) : bool :=
  ((97 <=? N_of_ascii c) && (N_of_ascii c <=? 122))%N.

Definition isAsciiUpper (c : ascii) : bool :=
  ((65 <=? N_of_ascii c) && (N_of_ascii c <=? 90))%N.

Definition isAsciiDigit (c : ascii) : bool :=
  ((48 <=? N_of_ascii c) && (N_of_ascii c <=? 57))%N.

(** [String.prototype.toUpperCase] on ASCII text (HTTP methods, asset codes):
    the letters a to z are mapped and every other byte is kept.  On text
    with other letters it is not the host function, which follows Unicode. *)
Definition toUpperCase (s : string) : string :=
  mapString (λ c, if isAsciiLower c then ascii_of_N (N_of_ascii c - 32) else c) s.

(** [Array.prototype.join]. *)
Fixpoint join (separator : string) (parts : list string) : string :=
  match parts with
  | [] => ""
  | [p] => p
  | p :: rest => p +:+ separator +:+ join separator rest
  end.

(** [BigInt.prototype.toString]: the decimal digits, with a leading minus sign
    for a negative value. *)
Definition bigintToString (z : Z) : string :=
  NilZero.string_of_int (Z.to_int z).

(** ** Thrown values *)

(** What a rejected promise carries: the service's own [AppError]
    (src/errors/app-error), Prisma's [PrismaClientKnownRequestError] with its
    code, or anything else (a violated CHECK constraint, a network error). *)
Inductive Failure : Type :=
| AppError (statusCode : Z) (code : string) (message : string)
| PrismaClientKnownRequestError (code : string)
| OtherError (what : string).

Inductive Outcome (A : Type) : Type :=
| Returned (value : A)
| Thrown (error : Failure).
Arguments Returned {A} value.
Arguments Thrown {A} error.

(** ** Collation: [String.prototype.localeCompare]

    Both sorts of the service order strings with [left.localeCompare(right)].
    The result of [localeCompare] is decided by the collation of the host
    locale, which is not part of the repository, so it is an interface here.
    ECMA-262 requires of it what [CollatorLaws] states: it is a consistent
    comparator (a total preorder); distinct strings may compare as [0]. *)
Class Collator : Type := { localeCompare : string → string → Z }.

Class CollatorLaws (C : Collator) : Prop := {
  localeCompare_refl : ∀ a, localeCompare a a = 0;
  localeCompare_flip : ∀ a b, Z.sgn (localeCompare b a) = - Z.sgn (localeCompare a b);
  localeCompare_trans : ∀ a b c,
    localeCompare a b <= 0 → localeCompare b c <= 0 → localeCompare a c <= 0
}.

(** The collation every ICU-backed engine (V8 in Node.js 20, the image of the
    Dockerfile) uses for ASCII letters, digits and the hyphen, which are the
    characters of wallet ids, asset codes and request keys: strings are
    compared first by their primary weights (hyphen, then the digits, then the
    letters without regard to case), and only when these agree by case, lower
    case first.  Bytes outside that alphabet are given a primary weight above
    the letters, in byte order; the theorems below that name this instance
    only use it on the alphabet. *)
Definition primaryWeight (c : ascii) : N :=
  let n := N_of_ascii c in
  if (n =? 45)%N then 1%N
  else if isAsciiDigit c then (2 + (n - 48))%N
  else if isAsciiUpper c then (12 + (n - 65))%N
  else if isAsciiLower c then (12 + (n - 97))%N
  else (1000 + n)%N.

Definition tertiaryWeight (c : ascii) : N :=
  if isAsciiUpper c then 1%N else 0%N.

Fixpoint weights (weight : ascii → N) (s : string) : list N :=
  match s with
  | EmptyString => []
  | String c rest => weight c :: weights weight rest
  end.

(** Lexicographic comparison of two weight strings: [-1], [0] or [1]. *)
Fixpoint compareWeights (l r : list N) : Z :=
  match l, r with
  | [], [] => 0
  | [], _ :: _ => -1
  | _ :: _, [] => 1
  | x :: l', y :: r' =>
      match (x ?= y)%N with
      | Lt => -1
      | Gt => 1
      | Eq => compareWeights l' r'
      end
  end.

Definition rootLocaleCompare (left right : string) : Z :=
  match compareWeights (weights primaryWeight left) (weights primaryWeight right) with
  | 0 => compareWeights (weights tertiaryWeight left) (weights tertiaryWeight right)
  | c => c
  end.

Definition rootCollator : Collator := {| localeCompare := rootLocaleCompare |}.

(** Code-unit order, the order of [<] on strings and of a [sort()] without a
    comparator; on UTF-8 bytes it is the order of the code points. *)
Definition codePointCompare (left right : string) : Z :=
  match String.compare left right with
  | Lt => -1
  | Eq => 0
  | Gt => 1
  end.

Definition codePointCollator : Collator := {| localeCompare := codePointCompare |}.

(** ** Arrays *)

(** [Array.prototype.sort(compareFn)]: a stable sort; [compareFn a b <= 0]
    keeps [a] before [b].  For a consistent comparator every stable sort
    returns the same array; this is the insertion sort. *)
Fixpoint sortInsert {A} (compareFn : A → A → Z) (x : A) (sorted : list A) : list A :=
  match sorted with
  | [] => [x]
  | y :: rest =>
      if compareFn x y <=? 0 then x :: y :: rest
      else y :: sortInsert compareFn x rest
  end.

Definition arraySort {A} (compareFn : A → A → Z) (items : list A) : list A :=
  foldr (sortInsert compareFn) [] items.

(** [[...new Set(items)]]: the distinct elements in the order of their first
    occurrence. *)
Fixpoint setToArray (items : list string) : list string :=
  match items with
  | [] => []
  | x :: rest => x :: filter (λ y, y ≠ x) (setToArray rest)
  end.

(** ** src/services/concurrency-controls.ts *)

Section ConcurrencyControls.
Context {collator : Collator}.

Definition sortUniqueWalletIds (walletIds : list string) : list string :=
  arraySort (λ left right, localeCompare left right) (setToArray walletIds).

Definition toWalletLockKeys (walletIds : list string) : list string :=
  map (λ walletId, "lock:wallet:" +:+ walletId) (sortUniqueWalletIds walletIds).

Definition assertOptimisticWalletUpdates (results : list (string * Z)) : Outcome unit :=
  match List.find (λ result, negb (snd result =? 1)) results with
  | None => Returned ()
  | Some conflicted =>
      Thrown (AppError 409 "OPTIMISTIC_LOCK_CONFLICT"
                ("Concurrent wallet update detected for wallet " +:+ fst conflicted))
  end.
End ConcurrencyControls.

(** ** JSON values

    A decoded request body, and the JSON documents the service stores as
    response bodies.  [JObj] lists the properties in enumeration order
    ([Object.entries]); a decoded object has each key once. *)

(** A decoded JSON number, as far as the statements below need one: an
    integer, or the [Infinity] or [-Infinity] that [JSON.parse] returns for a
    literal beyond the range of a double, such as [1e999].  Numbers with a
    fraction and the sign of zero are not represented.  An integer is printed
    in plain decimal, as [Number::toString] prints the integers below 10^21
    that a double holds exactly; the statements about printed numbers keep to
    integers of magnitude at most 2^53 - 1. *)
Inductive JsNumber : Type :=
| NumInt (value : Z)
| NumInfinity (negative : bool).

Inductive Json : Type :=
| JNull
| JBool (b : bool)
| JNum (n : JsNumber)
| JStr (s : string)
| JArr (items : list Json)
| JObj (props : list (string * Json)).

(** ** [JSON.stringify] on primitives *)

Definition hexDigit (n : N) : ascii :=
  if (n <? 10)%N then ascii_of_N (48 + n) else ascii_of_N (87 + n).

(** The quotation mark, code unit 34. *)
Definition doubleQuote : ascii := ascii_of_N 34.

(** QuoteJSONString (ECMA-262 25.5.2.3) on one code unit. *)
Definition escapeChar (c : ascii) : string :=
  let n := N_of_ascii c in
  if (n =? 8)%N then "\b"
  else if (n =? 9)%N then "\t"
  else if (n =? 10)%N then "\n"
  else if (n =? 12)%N then "\f"
  else if (n =? 13)%N then "\r"
  else if (n =? 34)%N then String "\" (String doubleQuote "")
  else if (n =? 92)%N then "\\"
  else if (n <? 32)%N then
    "\u00" +:+ String (hexDigit (n / 16)) (String (hexDigit (n mod 16)) "")
  else String c "".

Fixpoint escapeString (s : string) : string :=
  match s with
  | EmptyString => ""
  | String c rest => escapeChar c +:+ escapeString rest
  end.

Definition quoteJSONString (s : string) : string :=
  String doubleQuote (escapeString s +:+ String doubleQuote "").

(** [JSON.stringify] of a number: a number that is not finite is serialized as
    [null]; an integer in plain decimal (the exponent form that starts at
    10^21 is outside what [NumInt] is used for). *)
Definition numberToJSON (n : JsNumber) : string :=
  match n with
  | NumInt value => bigintToString value
  | NumInfinity _ => "null"
  end.

(** ** SHA-256 (FIPS 180-4), for [createHash("sha256")] *)

Definition mask32 : N := 0xFFFFFFFF%N.

Definition add32 (x y : N) : N := N.land (x + y) mask32.

Definition rotr (n x : N) : N :=
  N.lor (N.shiftr x n) (N.land (N.shiftl x (32 - n)) mask32).

Definition Ch (x y z : N) : N :=
  N.lxor (N.land x y) (N.land (N.lxor x mask32) z).

Definition Maj (x y z : N) : N :=
  N.lxor (N.lxor (N.land x y) (N.land x z)) (N.land y z).

Definition bigSigma0 (x : N) : N := N.lxor (N.lxor (rotr 2 x) (rotr 13 x)) (rotr 22 x).
Definition bigSigma1 (x : N) : N := N.lxor (N.lxor (rotr 6 x) (rotr 11 x)) (rotr 25 x).
Definition smallSigma0 (x : N) : N := N.lxor (N.lxor (rotr 7 x) (rotr 18 x)) (N.shiftr x 3).
Definition smallSigma1 (x : N) : N := N.lxor (N.lxor (rotr 17 x) (rotr 19 x)) (N.shiftr x 10).

(** The first sixty-four primes. *)
Definition isPrime (n : N) : bool :=
  forallb (λ d, negb (n mod d =? 0)%N) (map N.of_nat (seq 2 (N.to_nat n - 2))).

Definition firstPrimes : list N :=
  Eval vm_compute in List.filter isPrime (map N.of_nat (seq 2 310)).

(** The integer cube root of [target], found bit by bit from [2 ^ bits]
    down. *)
Fixpoint cubeRoot (bits : nat) (target root : N) : N :=
  match bits with
  | O => root
  | S k =>
      let candidate := (root + 2 ^ N.of_nat k)%N in
      cubeRoot k target
               (if (candidate * candidate * candidate <=? target)%N then candidate else root)
  end.

(** 4.2.2: the first thirty-two bits of the fractional parts of the cube roots
    of the first sixty-four primes. *)
Definition sha256K : list N :=
  Eval vm_compute in
    map (λ p, N.land (cubeRoot 36 (p * 2 ^ 96) 0) mask32) firstPrimes.

(** 5.3.3: the first thirty-two bits of the fractional parts of the square
    roots of the first eight primes. *)
Definition sha256H0 : list N :=
  Eval vm_compute in
    map (λ p, N.land (N.sqrt (p * 2 ^ 64)) mask32) (take 8 firstPrimes).

Fixpoint stringToBytes (s : string) : list N :=
  match s with
  | EmptyString => []
  | String c rest => N_of_ascii c :: stringToBytes rest
  end.

(** Big-endian bytes of [x], [count] of them. *)
Fixpoint bigEndian (count : nat) (x : N) : list N :=
  match count with
  | O => []
  | S k => N.land (N.shiftr x (8 * N.of_nat k)) 0xFF :: bigEndian k x
  end.

(** The message, the bit 1, zero bits up to 56 modulo 64 bytes, then the
    length of the message in bits on 64 bits. *)
Definition sha256Pad (message : list N) : list N :=
  let len := N.of_nat (length message) in
  let zeros := N.to_nat ((119 - len mod 64) mod 64) in
  message ++ [0x80%N] ++ repeat 0%N zeros ++ bigEndian 8 (8 * len).

Fixpoint bytesToWords (bytes : list N) : list N :=
  match bytes with
  | b0 :: b1 :: b2 :: b3 :: rest =>
      (b0 * 0x1000000 + b1 * 0x10000 + b2 * 0x100 + b3)%N :: bytesToWords rest
  | _ => []
  end.

(** The message schedule, newest word first: [recent] holds W(t-1), W(t-2), ... *)
Fixpoint extendSchedule (count : nat) (recent : list N) : list N :=
  match count with
  | O => recent
  | S k =>
      let w := add32 (add32 (smallSigma1 (nth 1 recent 0%N)) (nth 6 recent 0%N))
                     (add32 (smallSigma0 (nth 14 recent 0%N)) (nth 15 recent 0%N)) in
      extendSchedule k (w :: recent)
  end.

Definition messageSchedule (block : list N) : list N :=
  rev (extendSchedule 48 (rev block)).

Definition sha256Round (state : list N) (kw : N * N) : list N :=
  match state with
  | [a; b; c; d; e; f; g; h] =>
      let t1 := add32 (add32 (add32 h (bigSigma1 e)) (add32 (Ch e f g) (fst kw))) (snd kw) in
      let t2 := add32 (bigSigma0 a) (Maj a b c) in
      [add32 t1 t2; a; b; c; add32 d t1; e; f; g]
  | _ => state
  end.

Definition sha256Block (hash : list N) (block : list N) : list N :=
  let final := fold_left sha256Round (combine sha256K (messageSchedule block)) hash in
  map (λ p, add32 (fst p) (snd p)) (combine hash final).

Fixpoint sha256Blocks (fuel : nat) (hash : list N) (words : list N) : list N :=
  match fuel, words with
  | S k, _ :: _ => sha256Blocks k (sha256Block hash (take 16 words)) (drop 16 words)
  | _, _ => hash
  end.

Fixpoint hexOfWord (digits : nat) (x : N) : string :=
  match digits with
  | O => ""
  | S k => String (hexDigit (N.land (N.shiftr x (4 * N.of_nat k)) 0xF)) (hexOfWord k x)
  end.

(** [createHash("sha256").update(material).digest("hex")]. *)
Definition sha256Hex (material : string) : string :=
  let words := bytesToWords (sha256Pad (stringToBytes material)) in
  let hash := sha256Blocks (length words) sha256H0 words in
  fold_right (λ w acc, hexOfWord 8 w +:+ acc) "" hash.

(** ** src/utils/request-fingerprint.ts *)

Section RequestFingerprint.
Context {collator : Collator}.

(** [Object.entries(input).sort(byKey).map(render)]: the properties are
    sorted on their keys alone, so each value is serialized where it stands
    in [props] and the serialized entries are then sorted, which is the same
    array. *)
Fixpoint stableStringify (input : Json) : string :=
  match input with
  | JNull => "null"
  | JBool true => "true"
  | JBool false => "false"
  | JNum n => numberToJSON n
  | JStr s => quoteJSONString s
  | JArr items => "[" +:+ join "," (map stableStringify items) +:+ "]"
  | JObj props =>
      let entries :=
        arraySort (λ left right, localeCompare (fst left) (fst right))
                  (map (λ '(key, value), (key, stableStringify value)) props) in
      "{" +:+ join "," (map (λ '(key, value), quoteJSONString key +:+ ":" +:+ value) entries)
          +:+ "}"
  end.

(** The string that is hashed. *)
Definition fingerprintMaterial (method path : string) (body : Json) : string :=
  toUpperCase method +:+ "|" +:+ path +:+ "|" +:+ stableStringify body.

Definition buildRequestFingerprint (method path : string) (body : Json) : string :=
  sha256Hex (fingerprintMaterial method path body).
End RequestFingerprint.

(** ** src/config/env.ts

    The settings the core reads.  [parseTtl] accepts positive integers only. *)
Record Env : Type := {
  idempotencyCacheTtlSeconds : Z;
  distributedLockTtlMs : Z;
  distributedLockRetryCount : Z;
  distributedLockRetryDelayMs : Z
}.

(** The defaults of [env.ts]. *)
Definition defaultEnv : Env := {|
  idempotencyCacheTtlSeconds := 86400;
  distributedLockTtlMs := 5000;
  distributedLockRetryCount := 3;
  distributedLockRetryDelayMs := 50
|}.

(** ** src/services/distributed-lock.ts *)

(** [interface LockClient]: the two Redis commands the lock service issues,
    over whatever state the client keeps.
    - [lockSet key value ttl] is [set(key, value, "NX", "PX", ttl)]; it
      resolves to ["OK"] or [null], or rejects.
    - [lockEval key token] is [eval(RELEASE_LOCK_SCRIPT, 1, key, token)], the
      script that deletes [key] when its value is [token]. *)
Class LockClient (Store : Type) : Type := {
  lockSet : string → string → Z → Store → Outcome (option string) * Store;
  lockEval : string → string → Store → Outcome unit * Store
}.

(** [InMemoryLockClient] of tests/distributed-lock.test.ts: a [Map] from key
    to token, without expiry. *)
Definition inMemorySet (key value : string) (ttl : Z) (store : gmap string string)
  : Outcome (option string) * gmap string string :=
  match store !! key with
  | Some _ => (Returned None, store)
  | None => (Returned (Some "OK"), <[key := value]> store)
  end.

Definition inMemoryEval (key token : string) (store : gmap string string)
  : Outcome unit * gmap string string :=
  match store !! key with
  | Some current =>
      if decide (current = token) then (Returned (), delete key store)
      else (Returned (), store)
  | None => (Returned (), store)
  end.

Definition InMemoryLockClient : LockClient (gmap string string) :=
  {| lockSet := inMemorySet; lockEval := inMemoryEval |}.

(** What the service asks of the client and of the timer, in order. *)
Inductive LockEvent : Type :=
| SetNxPx (key token : string) (ttl : Z)
| EvalRelease (key token : string)
| Sleep (milliseconds : Z).

(** [DistributedLockHandle]: [release] closes over the acquired keys and the
    token. *)
Record DistributedLockHandle : Type := {
  heldKeys : list string;
  heldToken : string
}.

(** How one pass over the lock keys ends. *)
Inductive AttemptStatus : Type :=
| Locked
| NotLocked
| SetRejected (error : Failure).

Section DistributedLockService.
Context {collator : Collator} {Store : Type} {lockClient : LockClient Store}.
Variable env : Env.

(** [releaseLocks]: a rejected [eval] is logged and the loop goes on. *)
Fixpoint releaseEach (lockKeys : list string) (token : string) (store : Store)
  : Store * list LockEvent :=
  match lockKeys with
  | [] => (store, [])
  | lockKey :: rest =>
      let '(_, store1) := lockEval lockKey token store in
      let '(store2, events) := releaseEach rest token store1 in
      (store2, EvalRelease lockKey token :: events)
  end.

Definition releaseLocks (lockKeys : list string) (token : string) (store : Store)
  : Store * list LockEvent :=
  if decide (length lockKeys = 0%nat) then (store, [])
  else releaseEach lockKeys token store.

(** The inner [for (const lockKey of lockKeys)]: [acquiredKeys] grows by
    one key for each ["OK"]; the first other reply breaks the loop. *)
Fixpoint setEach (lockKeys : list string) (token : string)
    (acquiredKeys : list string) (store : Store)
  : list string * AttemptStatus * Store * list LockEvent :=
  match lockKeys with
  | [] => (acquiredKeys, Locked, store, [])
  | lockKey :: rest =>
      let event := SetNxPx lockKey token (distributedLockTtlMs env) in
      match lockSet lockKey token (distributedLockTtlMs env) store with
      | (Thrown error, store1) => (acquiredKeys, SetRejected error, store1, [event])
      | (Returned result, store1) =>
          if decide (result = Some "OK") then
            let '(keys, status, store2, events) :=
              setEach rest token (acquiredKeys ++ [lockKey]) store1 in
            (keys, status, store2, event :: events)
          else (acquiredKeys, NotLocked, store1, [event])
      end
  end.

(** The outer [for (attempt = 1; attempt <= retryCount; attempt += 1)]:
    [remaining] counts the iterations left, so [attempt <= retryCount] holds
    exactly while it is positive. *)
Fixpoint attemptLoop (remaining : nat) (attempt : Z) (lockKeys : list string)
    (token : string) (store : Store)
  : Outcome DistributedLockHandle * Store * list LockEvent :=
  match remaining with
  | O =>
      (Thrown (AppError 423 "DISTRIBUTED_LOCK_NOT_ACQUIRED"
                 "Could not acquire wallet lock. Please retry."),
       store, [])
  | S remaining' =>
      let '(acquiredKeys, status, store1, events1) := setEach lockKeys token [] store in
      match status with
      | SetRejected error => (Thrown error, store1, events1)
      | Locked =>
          (Returned {| heldKeys := acquiredKeys; heldToken := token |}, store1, events1)
      | NotLocked =>
          let '(store2, events2) := releaseLocks acquiredKeys token store1 in
          let events3 :=
            if attempt <? distributedLockRetryCount env
            then [Sleep (distributedLockRetryDelayMs env * attempt)] else [] in
          let '(outcome, store3, events4) :=
            attemptLoop remaining' (attempt + 1) lockKeys token store2 in
          (outcome, store3, events1 ++ events2 ++ events3 ++ events4)
      end
  end.

(** [token] is the [randomUUID()] drawn by the call. *)
Definition acquireWalletLocks (walletIds : list string) (token : string) (store : Store)
  : Outcome DistributedLockHandle * Store * list LockEvent :=
  let lockKeys := toWalletLockKeys walletIds in
  if decide (length lockKeys = 0%nat) then
    (Thrown (AppError 400 "LOCK_KEYS_MISSING" "No lock keys were provided"), store, [])
  else
    attemptLoop (Z.to_nat (distributedLockRetryCount env)) 1 lockKeys token store.

(** [handle.release()]. *)
Definition release (handle : DistributedLockHandle) (store : Store) : Store :=
  fst (releaseLocks (heldKeys handle) (heldToken handle) store).
End DistributedLockService.

(** ** The relational schema (prisma/migrations)

    Each table is the list of its rows.  Columns that no modelled query reads
    (users.email, the ids and time stamps of ledger entries, updated_at) are
    left out.  Each Prisma call is modelled by its effect on the tables. *)

Inductive WalletOwnerType : Type := USER | SYSTEM.
Inductive TransactionType : Type := TOPUP | BONUS | SPEND.
Inductive TransactionStatus : Type := PROCESSING | POSTED | FAILED.
Inductive EntryType : Type := DEBIT | CREDIT.

Global Instance WalletOwnerType_eq_dec : EqDecision WalletOwnerType.
Proof. solve_decision. Defined.
Global Instance TransactionType_eq_dec : EqDecision TransactionType.
Proof. solve_decision. Defined.
Global Instance TransactionStatus_eq_dec : EqDecision TransactionStatus.
Proof. solve_decision. Defined.
Global Instance EntryType_eq_dec : EqDecision EntryType.
Proof. solve_decision. Defined.

Record AssetType : Type := {
  asset_id : string;
  asset_code : string;
  asset_name : string
}.

Record Wallet : Type := {
  wallet_id : string;
  wallet_userId : option string;
  wallet_ownerType : WalletOwnerType;
  wallet_systemCode : option string;
  wallet_assetTypeId : string;
  wallet_version : Z
}.

Record Transaction : Type := {
  tx_id : string;
  tx_idempotencyKey : string;
  tx_requestHash : string;
  tx_type : TransactionType;
  tx_status : TransactionStatus;
  tx_amount : Z;
  tx_assetTypeId : string;
  tx_sourceWalletId : string;
  tx_destinationWalletId : string;
  tx_responseCode : option Z;
  tx_responseBody : option Json;
  tx_errorCode : option string;
  tx_createdAt : string
}.

Record LedgerEntry : Type := {
  entry_transactionId : string;
  entry_walletId : string;
  entry_assetTypeId : string;
  entry_entryType : EntryType;
  entry_amount : Z
}.

Record Database : Type := {
  users : list string;
  assetTypes : list AssetType;
  wallets : list Wallet;
  transactions : list Transaction;
  ledgerEntries : list LedgerEntry
}.

Definition withWallets (db : Database) (rows : list Wallet) : Database :=
  {| users := users db; assetTypes := assetTypes db; wallets := rows;
     transactions := transactions db; ledgerEntries := ledgerEntries db |}.

Definition withTransactions (db : Database) (rows : list Transaction) : Database :=
  {| users := users db; assetTypes := assetTypes db; wallets := wallets db;
     transactions := rows; ledgerEntries := ledgerEntries db |}.

Definition withLedgerEntries (db : Database) (rows : list LedgerEntry) : Database :=
  {| users := users db; assetTypes := assetTypes db; wallets := wallets db;
     transactions := transactions db; ledgerEntries := rows |}.

(** ** Statements inside [prisma.$transaction]

    A statement reads the tables and returns its result with the tables it
    leaves; a statement that throws leaves them as they were.  All statements
    of one callback go to PostgreSQL on one connection, between BEGIN and
    COMMIT or ROLLBACK. *)
Definition Tx (A : Type) : Type := Database → Outcome A * Database.

Definition txReturn {A} (value : A) : Tx A := λ db, (Returned value, db).

Definition txThrow {A} (error : Failure) : Tx A := λ db, (Thrown error, db).

Definition txBind {A B} (statement : Tx A) (next : A → Tx B) : Tx B :=
  λ db,
    match statement db with
    | (Returned value, db1) => next value db1
    | (Thrown error, db1) => (Thrown error, db1)
    end.

Notation "'await' x ← statement ; next" :=
  (txBind statement (λ x, next))
  (at level 10, x binder, statement at level 100, next at level 200,
   format "'[v' 'await'  x  ←  statement ; '/' next ']'").

Definition txLift {A} (outcome : Outcome A) : Tx A := λ db, (outcome, db).

(** PostgreSQL aborts a transaction at its first failed statement: until the
    ROLLBACK it refuses every further statement of that transaction with
    SQLSTATE 25P02 (current transaction is aborted, commands ignored until end
    of transaction block), which the client throws.  [inFailedTransaction s]
    is the statement [s] sent on a transaction one statement of which has
    failed. *)
Definition inFailedTransaction {A} (statement : Tx A) : Tx A :=
  λ db, (Thrown (OtherError "25P02"), db).

(** [prisma.$transaction(callback)]: commit when the callback returns, roll
    back when it throws. *)
Definition prismaTransaction {A} (callback : Tx A) (db : Database) : Outcome A * Database :=
  match callback db with
  | (Returned value, db1) => (Returned value, db1)
  | (Thrown error, _) => (Thrown error, db)
  end.

(** The largest value of a BIGINT column ([transactions.amount],
    [ledger_entries.amount]).  The tables keep amounts as unbounded integers;
    a statement that depends on the amount fitting the column says so. *)
Definition BIGINT_MAX : Z := 9223372036854775807.

(** [tx.transaction.create]: the CHECK on the amount, then the primary key
    and the unique index on idempotency_key, whose violation is P2002.  The
    amount is taken to fit the column (at most [BIGINT_MAX]). *)
Definition transactionCreate (row : Transaction) : Tx Transaction :=
  λ db,
    if decide (tx_amount row <= 0) then
      (Thrown (OtherError "transactions_amount_positive_chk"), db)
    else if existsb (λ t, bool_decide (tx_id t = tx_id row
                                       ∨ tx_idempotencyKey t = tx_idempotencyKey row))
                    (transactions db) then
      (Thrown (PrismaClientKnownRequestError "P2002"), db)
    else (Returned row, withTransactions db (transactions db ++ [row])).

(** [tx.transaction.findUnique({ where: { idempotencyKey } })]. *)
Definition transactionFindUnique (idempotencyKey : string) : Tx (option Transaction) :=
  λ db,
    (Returned (List.find (λ t, bool_decide (tx_idempotencyKey t = idempotencyKey))
                         (transactions db)), db).

(** [tx.transaction.update({ where: { id }, data })]; P2025 when no row has
    the id. *)
Definition transactionUpdate (id : string) (data : Transaction → Transaction) : Tx unit :=
  λ db,
    if existsb (λ t, bool_decide (tx_id t = id)) (transactions db) then
      (Returned (),
       withTransactions db
         (map (λ t, if decide (tx_id t = id) then data t else t) (transactions db)))
    else (Thrown (PrismaClientKnownRequestError "P2025"), db).

(** The [data] of the two updates of [executeMutation]. *)
Definition setResponse (status : TransactionStatus) (errorCode : option string)
    (responseCode : Z) (responseBody : Json) (t : Transaction) : Transaction :=
  {| tx_id := tx_id t;
     tx_idempotencyKey := tx_idempotencyKey t;
     tx_requestHash := tx_requestHash t;
     tx_type := tx_type t;
     tx_status := status;
     tx_amount := tx_amount t;
     tx_assetTypeId := tx_assetTypeId t;
     tx_sourceWalletId := tx_sourceWalletId t;
     tx_destinationWalletId := tx_destinationWalletId t;
     tx_responseCode := Some responseCode;
     tx_responseBody := Some responseBody;
     tx_errorCode := match errorCode with Some c => Some c | None => tx_errorCode t end;
     tx_createdAt := tx_createdAt t |}.

(** [tx.ledgerEntry.createMany]; the rows carry the CHECK amount > 0. *)
Definition ledgerEntryCreateMany (rows : list LedgerEntry) : Tx unit :=
  λ db,
    if forallb (λ e, 0 <? entry_amount e) rows then
      (Returned (), withLedgerEntries db (ledgerEntries db ++ rows))
    else (Thrown (OtherError "ledger_entries_amount_positive_chk"), db).

(** [tx.wallet.updateMany({ where: { id, version }, data: { version:
    { increment: 1 } } })], resolving to the number of rows changed. *)
Definition walletUpdateMany (id : string) (version : Z) : Tx Z :=
  λ db,
    let hit w := bool_decide (wallet_id w = id ∧ wallet_version w = version) in
    (Returned (Z.of_nat (length (List.filter hit (wallets db)))),
     withWallets db
       (map (λ w, if hit w then
                    {| wallet_id := wallet_id w; wallet_userId := wallet_userId w;
                       wallet_ownerType := wallet_ownerType w;
                       wallet_systemCode := wallet_systemCode w;
                       wallet_assetTypeId := wallet_assetTypeId w;
                       wallet_version := wallet_version w + 1 |}
                  else w)
            (wallets db))).

(** [SUM(CASE WHEN entry_type = 'CREDIT' THEN amount ELSE -amount END)]: the
    sum of the values that are not NULL, and NULL when there is none. *)
Definition signedAmount (e : LedgerEntry) : Z :=
  match entry_entryType e with
  | CREDIT => entry_amount e
  | DEBIT => - entry_amount e
  end.

Definition sqlSum (values : list (option Z)) : option Z :=
  match omap id values with
  | [] => None
  | present => Some (foldr Z.add 0 present)
  end.

Definition coalesce (value : option Z) (default : Z) : Z :=
  match value with
  | Some v => v
  | None => default
  end.

(** [getWalletBalance]: the aggregate over the ledger entries of one wallet
    and asset. *)
Definition walletBalance (walletId assetTypeId : string) (db : Database) : Z :=
  coalesce
    (sqlSum (map (λ e, Some (signedAmount e))
               (List.filter (λ e, bool_decide (entry_walletId e = walletId
                                               ∧ entry_assetTypeId e = assetTypeId))
                            (ledgerEntries db))))
    0.

Definition getWalletBalance (walletId assetTypeId : string) : Tx Z :=
  λ db, (Returned (walletBalance walletId assetTypeId db), db).

(** ** src/services/idempotency-cache.ts

    The cache is the Redis keyspace under [idem:response:]; the stored string
    is the JSON text of the payload, read back by [JSON.parse], so the cache
    is kept as the map from key to payload.  Expiry is not modelled.  A Redis
    error is logged and swallowed: [get] then answers [null] and [set] does
    nothing. *)
Record CachedIdempotencyPayload : Type := {
  cachedRequestFingerprint : string;
  cachedStatusCode : Z;
  cachedBody : Json
}.

Record IdempotencyCache : Type := {
  redisReachable : bool;
  cachedResponses : gmap string CachedIdempotencyPayload
}.

Definition keyFor (idempotencyKey : string) : string :=
  "idem:response:" +:+ idempotencyKey.

Definition cacheGet (idempotencyKey : string) (cache : IdempotencyCache)
  : option CachedIdempotencyPayload :=
  if redisReachable cache then cachedResponses cache !! keyFor idempotencyKey else None.

Definition cacheSet (idempotencyKey : string) (payload : CachedIdempotencyPayload)
    (cache : IdempotencyCache) : IdempotencyCache :=
  if redisReachable cache then
    {| redisReachable := true;
       cachedResponses := <[keyFor idempotencyKey := payload]> (cachedResponses cache) |}
  else cache.

(** ** src/services/wallet-service.ts *)

Definition TREASURY_SYSTEM_CODE : string := "TREASURY".

Record WalletMutationRequest : Type := {
  userId : string;
  assetCode : string;
  amount : Z;
  idempotencyKey : string;
  requestFingerprint : string
}.

Record WalletMutationResult : Type := {
  statusCode : Z;
  body : Json;
  replayed : bool
}.

Record BalanceItem : Type := {
  item_assetCode : string;
  item_assetName : string;
  item_balance : string
}.

Record WalletBalanceResponse : Type := {
  response_userId : string;
  balances : list BalanceItem
}.

Record WalletExecutionContext : Type := {
  assetTypeId : string;
  contextAssetCode : string;
  userWalletId : string;
  treasuryWalletId : string
}.

(** What the platform draws while one mutation runs: the [randomUUID()] of
    the lock service, and the id and created_at that the database gives the
    new transaction row ([gen_random_uuid()], [CURRENT_TIMESTAMP], the latter
    already as [toISOString()] prints it). *)
Record Generated : Type := {
  lockToken : string;
  newTransactionId : string;
  newCreatedAt : string
}.

(** Redis and PostgreSQL as one mutation sees them. *)
Record World (Store : Type) : Type := {
  database : Database;
  cache : IdempotencyCache;
  lockStore : Store
}.
Arguments database {Store} _.
Arguments cache {Store} _.
Arguments lockStore {Store} _.

Definition operationLabel (type : TransactionType) : string :=
  match type with
  | TOPUP => "topup"
  | BONUS => "bonus"
  | SPEND => "spend"
  end.

Definition errorPayload (code message : string) : Json :=
  JObj [("error", JObj [("code", JStr code); ("message", JStr message)])].

Definition insufficientFundsPayload : Json :=
  errorPayload "INSUFFICIENT_FUNDS" "Insufficient wallet balance".

Inductive IdempotencyRecord : Type :=
| Created (transactionId : string) (createdAt : string)
| Replay (result : WalletMutationResult).

(** The row of [SELECT ... FROM wallets w JOIN asset_types a LEFT JOIN
    ledger_entries le] of [getBalance]. *)
Definition JoinedRow : Type := (Wallet * AssetType * option LedgerEntry)%type.

Section WalletService.
Context {collator : Collator} {Store : Type} {lockClient : LockClient Store}.
Variable env : Env.

(** The three [findFirst] of [resolveContext].  Ids are compared as the
    tables hold them: [userId] is the user's id as PostgreSQL prints it. *)
Definition resolveContext (userId assetCode : string) (db : Database)
  : Outcome WalletExecutionContext :=
  let normalizedCode := toUpperCase assetCode in
  match List.find (λ a, bool_decide (asset_code a = normalizedCode)) (assetTypes db) with
  | None => Thrown (AppError 404 "ASSET_TYPE_NOT_FOUND" ("Unknown asset code: " +:+ assetCode))
  | Some assetType =>
      match List.find (λ w, bool_decide (wallet_ownerType w = USER
                                         ∧ wallet_userId w = Some userId
                                         ∧ wallet_assetTypeId w = asset_id assetType))
                      (wallets db) with
      | None =>
          Thrown (AppError 404 "USER_WALLET_NOT_FOUND"
                    ("Wallet for user " +:+ userId +:+ " and asset "
                     +:+ asset_code assetType +:+ " does not exist"))
      | Some userWallet =>
          match List.find (λ w, bool_decide (wallet_ownerType w = SYSTEM
                                             ∧ wallet_systemCode w = Some TREASURY_SYSTEM_CODE
                                             ∧ wallet_assetTypeId w = asset_id assetType))
                          (wallets db) with
          | None =>
              Thrown (AppError 500 "TREASURY_WALLET_NOT_CONFIGURED"
                        ("Treasury wallet missing for asset " +:+ asset_code assetType))
          | Some treasuryWallet =>
              Returned {| assetTypeId := asset_id assetType;
                          contextAssetCode := asset_code assetType;
                          userWalletId := wallet_id userWallet;
                          treasuryWalletId := wallet_id treasuryWallet |}
          end
      end
  end.

(** The [findUnique] of the catch block is sent on the transaction [tx] whose
    INSERT has just failed. *)
Definition createOrReplayTransaction (type : TransactionType)
    (input : WalletMutationRequest) (assetTypeId sourceWalletId destinationWalletId : string)
    (generated : Generated) : Tx IdempotencyRecord :=
  λ db,
    match transactionCreate
            {| tx_id := newTransactionId generated;
               tx_idempotencyKey := idempotencyKey input;
               tx_requestHash := requestFingerprint input;
               tx_type := type;
               tx_status := PROCESSING;
               tx_amount := amount input;
               tx_assetTypeId := assetTypeId;
               tx_sourceWalletId := sourceWalletId;
               tx_destinationWalletId := destinationWalletId;
               tx_responseCode := None;
               tx_responseBody := None;
               tx_errorCode := None;
               tx_createdAt := newCreatedAt generated |} db with
    | (Returned created, db1) =>
        (Returned (Created (tx_id created) (tx_createdAt created)), db1)
    | (Thrown error, db1) =>
        match error with
        | PrismaClientKnownRequestError "P2002" =>
            (await existing ←
               inFailedTransaction (transactionFindUnique (idempotencyKey input));
             match existing with
             | None =>
                 txThrow (AppError 500 "IDEMPOTENCY_STATE_NOT_FOUND"
                            "Failed to load transaction for existing Idempotency-Key")
             | Some existing =>
                 if decide (tx_requestHash existing ≠ requestFingerprint input) then
                   txThrow (AppError 409 "IDEMPOTENCY_KEY_REUSED_WITH_DIFFERENT_REQUEST"
                              "Idempotency-Key has already been used with a different request payload")
                 else
                   match tx_responseCode existing, tx_responseBody existing with
                   | Some responseCode, Some responseBody =>
                       txReturn (Replay {| statusCode := responseCode;
                                           body := responseBody;
                                           replayed := true |})
                   | _, _ =>
                       txThrow (AppError 409 "REQUEST_ALREADY_IN_PROGRESS"
                                  "A request with this Idempotency-Key is currently in progress")
                   end
             end) db1
        | _ => (Thrown error, db1)
        end
    end.

(** [SELECT id, version FROM wallets WHERE id IN (...) ORDER BY id FOR
    UPDATE]. *)
Definition lockWallets (walletIds : list string) : Tx (list (string * Z)) :=
  λ db,
    let orderedWalletIds := sortUniqueWalletIds walletIds in
    let rows :=
      arraySort (λ left right, codePointCompare (wallet_id left) (wallet_id right))
                (List.filter (λ w, bool_decide (wallet_id w ∈ orderedWalletIds)) (wallets db)) in
    (Returned (map (λ row, (wallet_id row, wallet_version row)) rows), db).

Fixpoint bumpEach (lockedWallets : list (string * Z)) : Tx (list (string * Z)) :=
  match lockedWallets with
  | [] => txReturn []
  | wallet :: rest =>
      await updated ← walletUpdateMany (fst wallet) (snd wallet);
      await updates ← bumpEach rest;
      txReturn ((fst wallet, updated) :: updates)
  end.

Definition bumpWalletVersions (lockedWallets : list (string * Z)) : Tx unit :=
  await updates ← bumpEach lockedWallets;
  txLift (assertOptimisticWalletUpdates updates).

Definition sourceWalletIdOf (type : TransactionType) (context : WalletExecutionContext)
  : string :=
  if decide (type = SPEND) then userWalletId context else treasuryWalletId context.

Definition destinationWalletIdOf (type : TransactionType) (context : WalletExecutionContext)
  : string :=
  if decide (type = SPEND) then treasuryWalletId context else userWalletId context.

Definition successPayload (type : TransactionType) (input : WalletMutationRequest)
    (context : WalletExecutionContext) (transactionId createdAt : string)
    (userBalance : Z) (sourceWalletId destinationWalletId : string) : Json :=
  JObj [ ("transactionId", JStr transactionId);
         ("idempotencyKey", JStr (idempotencyKey input));
         ("operation", JStr (operationLabel type));
         ("userId", JStr (userId input));
         ("assetCode", JStr (contextAssetCode context));
         ("amount", JStr (bigintToString (amount input)));
         ("balance", JStr (bigintToString userBalance));
         ("fromWalletId", JStr sourceWalletId);
         ("toWalletId", JStr destinationWalletId);
         ("createdAt", JStr createdAt) ].

(** The callback handed to [prisma.$transaction] by [executeMutation]. *)
Definition mutationTransaction (type : TransactionType) (input : WalletMutationRequest)
    (context : WalletExecutionContext) (sourceWalletId destinationWalletId : string)
    (generated : Generated) : Tx WalletMutationResult :=
  await idempotencyRecord ←
    createOrReplayTransaction type input (assetTypeId context)
                              sourceWalletId destinationWalletId generated;
  match idempotencyRecord with
  | Replay result => txReturn result
  | Created transactionId createdAt =>
      await lockedWallets ← lockWallets [sourceWalletId; destinationWalletId];
      let expectedWalletIds := sortUniqueWalletIds [sourceWalletId; destinationWalletId] in
      if decide (length lockedWallets ≠ length expectedWalletIds) then
        txThrow (AppError 409 "LOCKED_WALLET_MISMATCH"
                   "Wallet set changed during transaction. Retry request.")
      else
        await sourceBalance ← getWalletBalance sourceWalletId (assetTypeId context);
        if sourceBalance <? amount input then
          let body := insufficientFundsPayload in
          await _ ← transactionUpdate transactionId
                      (setResponse FAILED (Some "INSUFFICIENT_FUNDS") 409 body);
          txReturn {| statusCode := 409; body := body; replayed := false |}
        else
          await _ ← ledgerEntryCreateMany
                      [ {| entry_transactionId := transactionId;
                           entry_walletId := sourceWalletId;
                           entry_assetTypeId := assetTypeId context;
                           entry_entryType := DEBIT;
                           entry_amount := amount input |};
                        {| entry_transactionId := transactionId;
                           entry_walletId := destinationWalletId;
                           entry_assetTypeId := assetTypeId context;
                           entry_entryType := CREDIT;
                           entry_amount := amount input |} ];
          await _ ← bumpWalletVersions lockedWallets;
          await userBalance ← getWalletBalance (userWalletId context) (assetTypeId context);
          let body := successPayload type input context transactionId createdAt
                                     userBalance sourceWalletId destinationWalletId in
          await _ ← transactionUpdate transactionId (setResponse POSTED None 200 body);
          txReturn {| statusCode := 200; body := body; replayed := false |}
  end.

Definition executeMutation (type : TransactionType) (input : WalletMutationRequest)
    (generated : Generated) (world : World Store)
  : Outcome WalletMutationResult * World Store :=
  match cacheGet (idempotencyKey input) (cache world) with
  | Some cached =>
      if decide (cachedRequestFingerprint cached ≠ requestFingerprint input) then
        (Thrown (AppError 409 "IDEMPOTENCY_KEY_REUSED_WITH_DIFFERENT_REQUEST"
                   "Idempotency-Key has already been used with a different request payload"),
         world)
      else
        (Returned {| statusCode := cachedStatusCode cached;
                     body := cachedBody cached;
                     replayed := true |},
         world)
  | None =>
      match resolveContext (userId input) (assetCode input) (database world) with
      | Thrown error => (Thrown error, world)
      | Returned context =>
          let sourceWalletId := sourceWalletIdOf type context in
          let destinationWalletId := destinationWalletIdOf type context in
          match acquireWalletLocks env [sourceWalletId; destinationWalletId]
                                   (lockToken generated) (lockStore world) with
          | (Thrown error, store1, _) =>
              (Thrown error,
               {| database := database world; cache := cache world; lockStore := store1 |})
          | (Returned distributedLock, store1, _) =>
              match prismaTransaction
                      (mutationTransaction type input context
                                           sourceWalletId destinationWalletId generated)
                      (database world) with
              | (Returned result, db1) =>
                  (Returned result,
                   {| database := db1;
                      cache := cacheSet (idempotencyKey input)
                                 {| cachedRequestFingerprint := requestFingerprint input;
                                    cachedStatusCode := statusCode result;
                                    cachedBody := body result |}
                                 (cache world);
                      lockStore := release distributedLock store1 |})
              | (Thrown error, db1) =>
                  (Thrown error,
                   {| database := db1; cache := cache world;
                      lockStore := release distributedLock store1 |})
              end
          end
      end
  end.

Definition topup := executeMutation TOPUP.
Definition bonus := executeMutation BONUS.
Definition spend := executeMutation SPEND.

(** The rows of the balance query before grouping: the user's wallets, each
    with its asset type, LEFT JOINed with its ledger entries. *)
Definition balanceJoin (userId : string) (assetFilter : option string) (db : Database)
  : list JoinedRow :=
  w ← List.filter (λ w, bool_decide (wallet_ownerType w = USER ∧ wallet_userId w = Some userId))
                  (wallets db);
  a ← List.filter (λ a, bool_decide (asset_id a = wallet_assetTypeId w)
                        && match assetFilter with
                           | Some code => bool_decide (asset_code a = code)
                           | None => true
                           end)
                  (assetTypes db);
  match List.filter (λ le, bool_decide (entry_walletId le = wallet_id w
                                        ∧ entry_assetTypeId le = wallet_assetTypeId w))
                    (ledgerEntries db) with
  | [] => [(w, a, None)]
  | entries => map (λ le, (w, a, Some le)) entries
  end.

(** [GROUP BY a.code, a.name ORDER BY a.code] with the aggregate
    [COALESCE(SUM(...), 0)]. *)
Definition userBalanceRows (userId : string) (assetFilter : option string) (db : Database)
  : list (string * string * Z) :=
  let joined := balanceJoin userId assetFilter db in
  let groups :=
    remove_dups (map (λ '(_, a, _), (asset_code a, asset_name a)) joined) in
  arraySort (λ left right, codePointCompare (fst (fst left)) (fst (fst right)))
    (map (λ group,
            (group,
             coalesce
               (sqlSum (map (λ '(_, _, le), signedAmount <$> le)
                          (List.filter (λ '(_, a, _),
                                          bool_decide ((asset_code a, asset_name a) = group))
                                       joined)))
               0))
         groups).

(** [getBalance]; as in [resolveContext], [userId] is the user's id as
    PostgreSQL prints it. *)
Definition getBalance (userId : string) (assetCode : option string) (db : Database)
  : Outcome WalletBalanceResponse :=
  if negb (existsb (λ u, bool_decide (u = userId)) (users db)) then
    Thrown (AppError 404 "USER_NOT_FOUND" "User does not exist")
  else
    (* a string is truthy unless it is empty *)
    let normalizedAssetCode :=
      match assetCode with
      | Some code => if decide (toUpperCase code = "") then None else Some (toUpperCase code)
      | None => None
      end in
    let rows := userBalanceRows userId normalizedAssetCode db in
    match normalizedAssetCode, rows with
    | Some code, [] =>
        Thrown (AppError 404 "ASSET_WALLET_NOT_FOUND"
                  ("User does not have a wallet for asset " +:+ code))
    | _, _ =>
        Returned {| response_userId := userId;
                    balances := map (λ '(assetCode, assetName, balance),
                                       {| item_assetCode := assetCode;
                                          item_assetName := assetName;
                                          item_balance := bigintToString balance |})
                                    rows |}
    end.
End WalletService.

(** ** src/middleware/idempotency.ts *)

Record Request : Type := {
  method : string;
  originalUrl : string;
  idempotencyKeyHeader : option string;
  requestBody : option Json
}.

Inductive GateResult : Type :=
| GateReplayed (statusCode : Z) (body : Json)
| GateNext (idempotencyKey requestFingerprint : string).

(** [request.originalUrl.split("?")[0]]. *)
Fixpoint getPathWithoutQuery (originalUrl : string) : string :=
  match originalUrl with
  | EmptyString => ""
  | String c rest => if Ascii.eqb c "?" then "" else String c (getPathWithoutQuery rest)
  end.

Section Middleware.
Context {collator : Collator}.

(** The fingerprint is taken from [request.body] as the JSON body parser
    left it; [validate] runs after this middleware. *)
Definition requireIdempotency (request : Request) (cache : IdempotencyCache)
  : Outcome GateResult :=
  match idempotencyKeyHeader request with
  | None | Some "" =>
      Thrown (AppError 400 "IDEMPOTENCY_KEY_MISSING" "Idempotency-Key header is required")
  | Some idempotencyKey =>
      let requestFingerprint :=
        buildRequestFingerprint (method request) (getPathWithoutQuery (originalUrl request))
          (match requestBody request with Some b => b | None => JObj [] end) in
      match cacheGet idempotencyKey cache with
      | Some cached =>
          if decide (cachedRequestFingerprint cached ≠ requestFingerprint) then
            Thrown (AppError 409 "IDEMPOTENCY_KEY_REUSED_WITH_DIFFERENT_REQUEST"
                      "Idempotency-Key has already been used with a different request payload")
          else Returned (GateReplayed (cachedStatusCode cached) (cachedBody cached))
      | None => Returned (GateNext idempotencyKey requestFingerprint)
      end
  end.
End Middleware.

(** ** Vocabulary of the statements *)

(** The alphabet of a canonical UUID, which is what a wallet id is: digits,
    lower-case letters and the hyphen. *)
Definition isIdChar (c : ascii) : bool :=
  isAsciiDigit c || isAsciiLower c || (N_of_ascii c =? 45)%N.

Fixpoint isIdString (s : string) : bool :=
  match s with
  | EmptyString => true
  | String c rest => isIdChar c && isIdString rest
  end.


(** One pass of the lock service over the lock keys, as the protocol
    describes it: the keys whose SET answered OK, and how the pass ended. *)
Inductive AttemptEnd : Type :=
| AllAcquired
| Blocked (lockKey : string)
| Rejected (lockKey : string) (error : Failure).

Record AttemptLog : Type := {
  acquired : list string;
  ending : AttemptEnd
}.

(** The keys of the log are a prefix of the lock keys, followed by the key at
    which the pass stopped. *)
Definition attemptFits (lockKeys : list string) (log : AttemptLog) : Prop :=
  match ending log with
  | AllAcquired => acquired log = lockKeys
  | Blocked lockKey | Rejected lockKey _ => ∃ rest, lockKeys = acquired log ++ lockKey :: rest
  end.

(** What the protocol lets attempt number [attempt] do: one SET NX PX per key
    up to the one that stops the pass; after a blocked pass, one conditional
    delete for each key acquired in the pass, then a pause of
    [retryDelay * attempt] unless it was the last attempt. *)
Definition attemptEvents (env : Env) (token : string) (attempt : Z) (log : AttemptLog)
  : list LockEvent :=
  let set := λ lockKey, SetNxPx lockKey token (distributedLockTtlMs env) in
  match ending log with
  | AllAcquired => map set (acquired log)
  | Rejected lockKey _ => map set (acquired log ++ [lockKey])
  | Blocked lockKey =>
      map set (acquired log ++ [lockKey])
      ++ map (λ held, EvalRelease held token) (acquired log)
      ++ (if attempt <? distributedLockRetryCount env
          then [Sleep (distributedLockRetryDelayMs env * attempt)] else [])
  end.

Fixpoint runEvents (env : Env) (token : string) (attempt : Z) (logs : list AttemptLog)
  : list LockEvent :=
  match logs with
  | [] => []
  | log :: rest => attemptEvents env token attempt log ++ runEvents env token (attempt + 1) rest
  end.

Definition isBlocked (log : AttemptLog) : Prop :=
  match ending log with
  | Blocked _ => True
  | _ => False
  end.

(** What the client answered during one pass.  [passAnswers token ttl store
    acquired ending store'] holds when, the SETs being asked in order from
    [store], the client answered "OK" for each key of [acquired], one after
    the other, and the pass then ended as [ending] says: no key was left; or
    the SET of the next key was answered, but not with "OK"; or it was
    rejected.  [store'] is the client's state after the last SET. *)
Inductive passAnswers {Store : Type} {lockClient : LockClient Store}
    (token : string) (ttl : Z)
  : Store → list string → AttemptEnd → Store → Prop :=
| answers_all (store : Store) :
    passAnswers token ttl store [] AllAcquired store
| answers_ok (store store1 store2 : Store) (lockKey : string) (acquired : list string)
    (ending : AttemptEnd) :
    lockSet lockKey token ttl store = (Returned (Some "OK"), store1) →
    passAnswers token ttl store1 acquired ending store2 →
    passAnswers token ttl store (lockKey :: acquired) ending store2
| answers_blocked (store store1 : Store) (lockKey : string) (answer : option string) :
    lockSet lockKey token ttl store = (Returned answer, store1) →
    answer ≠ Some "OK" →
    passAnswers token ttl store [] (Blocked lockKey) store1
| answers_rejected (store store1 : Store) (lockKey : string) (error : Failure) :
    lockSet lockKey token ttl store = (Thrown error, store1) →
    passAnswers token ttl store [] (Rejected lockKey error) store1.

(** The client's state after the release script ran on each of [lockKeys]
    with [token], in order, whatever the script answered. *)
Fixpoint releasedFrom {Store : Type} {lockClient : LockClient Store}
    (token : string) (lockKeys : list string) (store : Store) : Store :=
  match lockKeys with
  | [] => store
  | lockKey :: rest => releasedFrom token rest (snd (lockEval lockKey token store))
  end.

(** The passes of [logs] against the client, from [store] to [final]: each
    pass is answered as its log says; after a blocked pass the release script
    runs on exactly the keys acquired in it, and the next pass starts from the
    state that leaves; a pass that is not blocked is the last one. *)
Fixpoint clientFollows {Store : Type} {lockClient : LockClient Store}
    (token : string) (ttl : Z) (store : Store) (logs : list AttemptLog) (final : Store)
  : Prop :=
  match logs with
  | [] => final = store
  | log :: rest =>
      ∃ store1,
        passAnswers token ttl store (acquired log) (ending log) store1
        ∧ match ending log with
          | Blocked _ =>
              clientFollows token ttl (releasedFrom token (acquired log) store1) rest final
          | AllAcquired | Rejected _ _ => rest = [] ∧ final = store1
          end
  end.

(** The foreign key [ledger_entries_transaction_id_fkey]: every ledger entry
    belongs to a row of [transactions]. *)
Definition ledgerForeignKey (db : Database) : bool :=
  forallb (λ e, existsb (λ t, bool_decide (tx_id t = entry_transactionId e)) (transactions db))
          (ledgerEntries db).

(** The PROCESSING row that [createOrReplayTransaction] inserts. *)
Definition processingRow (type : TransactionType) (input : WalletMutationRequest)
    (assetTypeId sourceWalletId destinationWalletId : string) (generated : Generated)
  : Transaction :=
  {| tx_id := newTransactionId generated;
     tx_idempotencyKey := idempotencyKey input;
     tx_requestHash := requestFingerprint input;
     tx_type := type;
     tx_status := PROCESSING;
     tx_amount := amount input;
     tx_assetTypeId := assetTypeId;
     tx_sourceWalletId := sourceWalletId;
     tx_destinationWalletId := destinationWalletId;
     tx_responseCode := None;
     tx_responseBody := None;
     tx_errorCode := None;
     tx_createdAt := newCreatedAt generated |}.

(** The two legs of the posting of transaction [t]. *)
Definition debitOf (t : Transaction) : LedgerEntry :=
  {| entry_transactionId := tx_id t;
     entry_walletId := tx_sourceWalletId t;
     entry_assetTypeId := tx_assetTypeId t;
     entry_entryType := DEBIT;
     entry_amount := tx_amount t |}.

Definition creditOf (t : Transaction) : LedgerEntry :=
  {| entry_transactionId := tx_id t;
     entry_walletId := tx_destinationWalletId t;
     entry_assetTypeId := tx_assetTypeId t;
     entry_entryType := CREDIT;
     entry_amount := tx_amount t |}.

Definition isUserWalletOf (userId assetTypeId : string) (w : Wallet) : Prop :=
  wallet_ownerType w = USER ∧ wallet_userId w = Some userId
  ∧ wallet_assetTypeId w = assetTypeId.

Definition isTreasuryWalletOf (assetTypeId : string) (w : Wallet) : Prop :=
  wallet_ownerType w = SYSTEM ∧ wallet_systemCode w = Some "TREASURY"
  ∧ wallet_assetTypeId w = assetTypeId.

(** PostgreSQL reads the text of a uuid without regard to the case of its
    hexadecimal digits and prints it in lower case, so two texts that differ
    only in the case of their letters denote one uuid.  The tables hold the
    ids as printed; [sameUuid] relates the spellings of one id. *)
Definition uuidText (text : string) : string :=
  mapString (λ c, if isAsciiUpper c then ascii_of_N (N_of_ascii c + 32) else c) text.

Definition sameUuid (left right : string) : Prop := uuidText left = uuidText right.

(** The USER wallet of the asset whose owner is the user that [userId]
    spells. *)
Definition isWalletOfUser (userId assetTypeId : string) (w : Wallet) : Prop :=
  wallet_ownerType w = USER
  ∧ (∃ owner, wallet_userId w = Some owner ∧ sameUuid owner userId)
  ∧ wallet_assetTypeId w = assetTypeId.

(** Text without a byte above 127, on which [String.prototype.toUpperCase]
    changes the letters a to z only. *)
Fixpoint isAsciiText (text : string) : bool :=
  match text with
  | EmptyString => true
  | String c rest => (N_of_ascii c <? 128)%N && isAsciiText rest
  end.

(** ** A small database for the examples

    A database that satisfies the schema, in the shape of the one
    prisma/seed.sql builds but smaller and with other figures (it is not the
    seed): the users alice and bob, gold coins and diamonds, the treasury and
    issuance wallets for gold coins, a funding of the treasury with 1000000
    and a bonus of 1000 gold coins to alice, which leaves the treasury at
    999000.  Alice has a diamond wallet without any ledger entry and bob has
    no wallet.  Ids are short names in place of UUIDs.  Only the examples use
    it; the theorems are about every database. *)
Definition seededDatabase : Database := {|
  users := ["alice"; "bob"];
  assetTypes :=
    [ {| asset_id := "a-gold"; asset_code := "GOLD_COINS"; asset_name := "Gold Coins" |};
      {| asset_id := "a-diamond"; asset_code := "DIAMONDS"; asset_name := "Diamonds" |} ];
  wallets :=
    [ {| wallet_id := "w-treasury-gold"; wallet_userId := None; wallet_ownerType := SYSTEM;
         wallet_systemCode := Some "TREASURY"; wallet_assetTypeId := "a-gold";
         wallet_version := 0 |};
      {| wallet_id := "w-issuance-gold"; wallet_userId := None; wallet_ownerType := SYSTEM;
         wallet_systemCode := Some "ISSUANCE"; wallet_assetTypeId := "a-gold";
         wallet_version := 0 |};
      {| wallet_id := "w-alice-gold"; wallet_userId := Some "alice"; wallet_ownerType := USER;
         wallet_systemCode := None; wallet_assetTypeId := "a-gold"; wallet_version := 0 |};
      {| wallet_id := "w-alice-diamond"; wallet_userId := Some "alice";
         wallet_ownerType := USER; wallet_systemCode := None;
         wallet_assetTypeId := "a-diamond"; wallet_version := 0 |} ];
  transactions :=
    [ {| tx_id := "t-seed-1"; tx_idempotencyKey := "seed-bootstrap-gold";
         tx_requestHash := "5c2bd3e1"; tx_type := TOPUP; tx_status := POSTED;
         tx_amount := 1000000; tx_assetTypeId := "a-gold";
         tx_sourceWalletId := "w-issuance-gold"; tx_destinationWalletId := "w-treasury-gold";
         tx_responseCode := Some 200;
         tx_responseBody := Some (JObj [("seed", JBool true)]);
         tx_errorCode := None; tx_createdAt := "2026-02-18T00:00:00.000Z" |};
      {| tx_id := "t-seed-2"; tx_idempotencyKey := "seed-alice-gold";
         tx_requestHash := "9f1a7c04"; tx_type := BONUS; tx_status := POSTED;
         tx_amount := 1000; tx_assetTypeId := "a-gold";
         tx_sourceWalletId := "w-treasury-gold"; tx_destinationWalletId := "w-alice-gold";
         tx_responseCode := Some 200;
         tx_responseBody := Some (JObj [("seed", JBool true)]);
         tx_errorCode := None; tx_createdAt := "2026-02-18T00:00:00.000Z" |} ];
  ledgerEntries :=
    [ {| entry_transactionId := "t-seed-1"; entry_walletId := "w-issuance-gold";
         entry_assetTypeId := "a-gold"; entry_entryType := DEBIT; entry_amount := 1000000 |};
      {| entry_transactionId := "t-seed-1"; entry_walletId := "w-treasury-gold";
         entry_assetTypeId := "a-gold"; entry_entryType := CREDIT; entry_amount := 1000000 |};
      {| entry_transactionId := "t-seed-2"; entry_walletId := "w-treasury-gold";
         entry_assetTypeId := "a-gold"; entry_entryType := DEBIT; entry_amount := 1000 |};
      {| entry_transactionId := "t-seed-2"; entry_walletId := "w-alice-gold";
         entry_assetTypeId := "a-gold"; entry_entryType := CREDIT; entry_amount := 1000 |} ]
|}.

Definition seededWorld : World (gmap string string) := {|
  database := seededDatabase;
  cache := {| redisReachable := true; cachedResponses := ∅ |};
  lockStore := ∅
|}.

Definition aliceRequest (requested : Z) (key : string) : WalletMutationRequest := {|
  userId := "alice";
  assetCode := "gold_coins";
  amount := requested;
  idempotencyKey := key;
  requestFingerprint := "fingerprint-of-" +:+ key
|}.

Definition drawn (n : string) : Generated := {|
  lockToken := "token-" +:+ n;
  newTransactionId := "t-" +:+ n;
  newCreatedAt := "2026-03-01T12:00:00.000Z"
|}.

(** The unique index [uq_wallet_owner_user_asset]: a user has one wallet for
    an asset. *)
Definition uniqueUserWalletIndex (db : Database) : bool :=
  forallb (λ w1,
    forallb (λ w2,
      implb (bool_decide (wallet_ownerType w1 = USER ∧ wallet_ownerType w2 = USER
                          ∧ wallet_userId w1 = wallet_userId w2
                          ∧ wallet_assetTypeId w1 = wallet_assetTypeId w2))
            (bool_decide (wallet_id w1 = wallet_id w2)))
      (wallets db))
    (wallets db).

(** The unique index [asset_types_code_key]. *)
Definition uniqueAssetCodeIndex (db : Database) : bool :=
  forallb (λ a1,
    forallb (λ a2,
      implb (bool_decide (asset_code a1 = asset_code a2))
            (bool_decide (asset_id a1 = asset_id a2)))
      (assetTypes db))
    (assetTypes db).

(** ** Request bodies *)

(** A mutation body with its amount property between the properties [before]
    and [after]. *)
Definition bodyWithAmount (before after : list (string * Json)) (amount : Json) : Json :=
  JObj (before ++ [("amount", amount)] ++ after).

(** The body of a spend, with the amount as JSON number and as JSON string. *)
Definition spendBody (amount : Json) : Json :=
  bodyWithAmount [("userId", JStr "7d1f0d5e-3c77-4c58-9c53-2f3a1c0e8a11");
                  ("assetCode", JStr "GOLD_COINS")] [] amount.

(** Structural equality of JSON values: the same value up to the order in
    which objects list their properties; arrays are ordered. *)
Inductive jsonEquivalent : Json → Json → Prop :=
| equivalent_null : jsonEquivalent JNull JNull
| equivalent_bool (b : bool) : jsonEquivalent (JBool b) (JBool b)
| equivalent_number (n : JsNumber) : jsonEquivalent (JNum n) (JNum n)
| equivalent_string (s : string) : jsonEquivalent (JStr s) (JStr s)
| equivalent_array (items1 items2 : list Json) :
    Forall2 jsonEquivalent items1 items2 →
    jsonEquivalent (JArr items1) (JArr items2)
| equivalent_object (props1 props2 ordered1 ordered2 : list (string * Json)) :
    props1 ≡ₚ ordered1 →
    props2 ≡ₚ ordered2 →
    Forall2 (λ left right, fst left = fst right ∧ jsonEquivalent (snd left) (snd right))
            ordered1 ordered2 →
    jsonEquivalent (JObj props1) (JObj props2).

(** Every number in the value is finite. *)
Fixpoint finiteNumbers (value : Json) : bool :=
  match value with
  | JNum (NumInfinity _) => false
  | JArr items => forallb finiteNumbers items
  | JObj props => forallb (λ '(_, item), finiteNumbers item) props
  | _ => true
  end.

(** Every number in the value is an integer of magnitude at most
    [Number.MAX_SAFE_INTEGER]: the integers a double holds exactly, which
    [JSON.stringify] prints digit by digit. *)
Fixpoint safeIntegers (value : Json) : bool :=
  match value with
  | JNum (NumInt z) => Z.abs z <=? 9007199254740991
  | JNum (NumInfinity _) => false
  | JArr items => forallb safeIntegers items
  | JObj props => forallb (λ '(_, item), safeIntegers item) props
  | _ => true
  end.

(** [localeCompare] tells the keys of every object in the value apart: no
    two properties of one object compare as [0]. *)
Fixpoint pairwiseDistinguished {collator : Collator} (keys : list string) : bool :=
  match keys with
  | [] => true
  | key :: rest =>
      forallb (λ other, negb (localeCompare key other =? 0)) rest
      && pairwiseDistinguished rest
  end.

Fixpoint keysDistinguished {collator : Collator} (value : Json) : bool :=
  match value with
  | JArr items => forallb keysDistinguished items
  | JObj props =>
      pairwiseDistinguished (map fst props)
      && forallb (λ '(_, item), keysDistinguished item) props
  | _ => true
  end.

(** Where a serialized value may end: at the end of the text, or before a
    comma or a closing bracket. *)
Definition isDelimited (rest : string) : bool :=
  match rest with
  | EmptyString => true
  | String c _ => (N_of_ascii c =? 44)%N || (N_of_ascii c =? 93)%N || (N_of_ascii c =? 125)%N
  end.

(** The characters of a decimal integer. *)
Definition isNumberChar (c : ascii) : bool :=
  isAsciiDigit c || (N_of_ascii c =? 45)%N.

Fixpoint isNumberString (s : string) : bool :=
  match s with
  | EmptyString => true
  | String c rest => isNumberChar c && isNumberString rest
  end.

(** The first character of a serialized value tells its kind. *)
Inductive JsonKind : Type :=
| KindNull | KindTrue | KindFalse | KindNumber | KindString | KindArray | KindObject | KindNone.

Definition kindOf (value : Json) : JsonKind :=
  match value with
  | JNull => KindNull
  | JBool true => KindTrue
  | JBool false => KindFalse
  | JNum _ => KindNumber
  | JStr _ => KindString
  | JArr _ => KindArray
  | JObj _ => KindObject
  end.

Definition kindOfChar (c : ascii) : JsonKind :=
  let n := N_of_ascii c in
  if (n =? 110)%N then KindNull
  else if (n =? 116)%N then KindTrue
  else if (n =? 102)%N then KindFalse
  else if isNumberChar c then KindNumber
  else if (n =? 34)%N then KindString
  else if (n =? 91)%N then KindArray
  else if (n =? 123)%N then KindObject
  else KindNone.

(** [join separator parts +:+ rest], unfolded along [parts]. *)
Fixpoint afterFirst (separator : string) (parts : list string) (rest : string) : string :=
  match parts with
  | [] => rest
  | part :: parts' => separator +:+ part +:+ afterFirst separator parts' rest
  end.

(** The body [{"amount": 1e999}] as JSON.parse decodes it, and the body
    [{"amount": null}]. *)
Definition overflowingAmountBody : Json := JObj [("amount", JNum (NumInfinity false))].
Definition nullAmountBody : Json := JObj [("amount", JNull)].

(** What a printer of elements offers on the element [a]: whatever follows,
    the printed text determines the element and where it ends. *)
Definition decodes {A : Type} (print : A → string) (related : A → A → Prop)
    (good : A → Prop) (a : A) : Prop :=
  ∀ b r1 r2, good b → isDelimited r1 = true → isDelimited r2 = true →
             print a +:+ r1 = print b +:+ r2 → related a b ∧ r1 = r2.

(** ** Invariants of the ledger

    What every database the engine has written satisfies: transaction ids are
    unique; the ledger entries of a transaction are the two legs of its
    posting when it is POSTED and none otherwise; every ledger entry belongs to
    a transaction; a row has a response code exactly when it has a response
    body. *)
Definition postingOf (t : Transaction) : list LedgerEntry :=
  if decide (tx_status t = POSTED) then [debitOf t; creditOf t] else [].

Record ledgerConsistent (db : Database) : Prop := {
  consistent_ids : NoDup (map tx_id (transactions db));
  consistent_postings :
    ∀ t, t ∈ transactions db →
         filter (λ e, entry_transactionId e = tx_id t) (ledgerEntries db) = postingOf t;
  consistent_foreign_key : ledgerForeignKey db = true;
  consistent_responses :
    ∀ t, t ∈ transactions db → (tx_responseCode t = None ↔ tx_responseBody t = None)
}.

(** ** src/routes/health-routes.ts

    What the readiness route meets when it probes its two stores: the result
    of [SELECT 1], the status of the Redis connection, and the results of
    [redis.connect()] and [redis.ping()]. *)
Record Dependencies : Type := {
  selectOne : Outcome unit;
  redisStatus : string;
  redisConnect : Outcome unit;
  redisPing : Outcome string
}.

(** The answer of [GET /health/ready], without its time stamp. *)
Record ReadyResponse : Type := {
  ready_statusCode : Z;
  ready_status : string;
  ready_postgres : string;
  ready_redis : string
}.

Definition readyRoute (deps : Dependencies) : ReadyResponse :=
  let '(postgres, statusCode1) :=
    match selectOne deps with
    | Returned _ => ("up", 200)
    | Thrown _ => ("down", 503)
    end in
  let '(redis, statusCode2) :=
    match (if decide (redisStatus deps = "wait") then redisConnect deps else Returned ()) with
    | Thrown _ => ("down", 503)
    | Returned _ =>
        match redisPing deps with
        | Thrown _ => ("down", 503)
        | Returned result =>
            if decide (result = "PONG") then ("up", statusCode1) else ("down", 503)
        end
    end in
  {| ready_statusCode := statusCode2;
     ready_status := if decide (statusCode2 = 200) then "ready" else "not_ready";
     ready_postgres := postgres;
     ready_redis := redis |}.

(** ** src/routes/wallet-routes.ts *)

(** [z.infer<typeof walletMutationSchema>]: the body after validation. *)
Record ValidatedMutation : Type := {
  validUserId : string;
  validAssetCode : string;
  validAmount : Z
}.

(** What a route sends: the status code, whether the header
    [Idempotency-Replayed: true] is set, and the JSON body. *)
Record HttpResponse : Type := {
  http_statusCode : Z;
  http_idempotencyReplayed : bool;
  http_body : Json
}.

(** [request.idempotencyKey] and [request.requestFingerprint] are [undefined]
    until the middleware sets them; [!value] also holds for the empty
    string. *)
Definition buildMutationInput (idempotencyKey requestFingerprint : option string)
    (body : ValidatedMutation) : Outcome WalletMutationRequest :=
  match idempotencyKey, requestFingerprint with
  | Some (String c key), Some (String d fingerprint) =>
      Returned {| userId := validUserId body;
                  assetCode := validAssetCode body;
                  amount := validAmount body;
                  idempotencyKey := String c key;
                  requestFingerprint := String d fingerprint |}
  | _, _ =>
      Thrown (AppError 500 "IDEMPOTENCY_CONTEXT_MISSING"
                "Idempotency middleware context is missing")
  end.

Section WalletRoutes.
Context {collator : Collator} {Store : Type} {lockClient : LockClient Store}.
Variable env : Env.

(** [walletMutationSchema.parse], the zod schema of the three mutation
    routes, applied by [validate(walletMutationSchema, "body")] to
    [request.body]; it returns the validated body or throws. *)
Variable walletMutationSchema : option Json → Outcome ValidatedMutation.

(** [router.post("/topup" | "/bonus" | "/spend", requireIdempotency,
    validate(walletMutationSchema, "body"), asyncHandler(...))]: a thrown value
    goes to the error handler through [next]. *)
Definition mutationRoute (type : TransactionType) (request : Request)
    (generated : Generated) (world : World Store)
  : Outcome HttpResponse * World Store :=
  match requireIdempotency request (cache world) with
  | Thrown error => (Thrown error, world)
  | Returned (GateReplayed statusCode body) =>
      (Returned {| http_statusCode := statusCode; http_idempotencyReplayed := true;
                   http_body := body |},
       world)
  | Returned (GateNext idempotencyKey requestFingerprint) =>
      match walletMutationSchema (requestBody request) with
      | Thrown error => (Thrown error, world)
      | Returned payload =>
          match buildMutationInput (Some idempotencyKey) (Some requestFingerprint) payload with
          | Thrown error => (Thrown error, world)
          | Returned input =>
              match executeMutation env type input generated world with
              | (Thrown error, world1) => (Thrown error, world1)
              | (Returned result, world1) =>
                  (Returned {| http_statusCode := statusCode result;
                               http_idempotencyReplayed := replayed result;
                               http_body := body result |},
                   world1)
              end
          end
      end
  end.
End WalletRoutes.

(** ** More vocabulary for the statements *)

(** The in-memory lock store with [lockKeys] held under [token]. *)
Definition withLocks (lockKeys : list string) (token : string) (store : gmap string string)
  : gmap string string :=
  foldl (λ held lockKey, <[lockKey := token]> held) store lockKeys.

(** The sum over the whole ledger of one asset, credits counted positive and
    debits negative. *)
Definition assetTotal (assetTypeId : string) (db : Database) : Z :=
  foldr Z.add 0
    (map signedAmount
       (List.filter (λ e, bool_decide (entry_assetTypeId e = assetTypeId)) (ledgerEntries db))).

(** A wallet row after [version: { increment: 1 }]. *)
Definition bumped (w : Wallet) : Wallet :=
  {| wallet_id := wallet_id w; wallet_userId := wallet_userId w;
     wallet_ownerType := wallet_ownerType w;
     wallet_systemCode := wallet_systemCode w;
     wallet_assetTypeId := wallet_assetTypeId w;
     wallet_version := wallet_version w + 1 |}.

(** The rows that one wallet and its asset type contribute to the join of the
    balance query: one row for each ledger entry of the wallet, or a single
    row without a ledger entry. *)
Definition walletRows (w : Wallet) (a : AssetType) (db : Database) : list JoinedRow :=
  match List.filter (λ le, bool_decide (entry_walletId le = wallet_id w
                                        ∧ entry_assetTypeId le = wallet_assetTypeId w))
                    (ledgerEntries db) with
  | [] => [(w, a, None)]
  | entries => map (λ le, (w, a, Some le)) entries
  end.

(** The item of the balance response for an asset and a balance. *)
Definition balanceItem (a : AssetType) (balance : Z) : BalanceItem :=
  {| item_assetCode := asset_code a; item_assetName := asset_name a;
     item_balance := bigintToString balance |}.

(** What identifies a wallet row: every column but [version]. *)
Definition walletIdentity (w : Wallet)
  : string * option string * WalletOwnerType * option string * string :=
  (wallet_id w, wallet_userId w, wallet_ownerType w, wallet_systemCode w,
   wallet_assetTypeId w).

(** The wallet table [after] has the rows of [before], in the same order,
    with versions that have not gone down. *)
Definition walletsEvolve (before after : list Wallet) : Prop :=
  Forall2 (λ w w', walletIdentity w' = walletIdentity w
                   ∧ wallet_version w <= wallet_version w')
          before after.

(** * Properties *)

(** ** Weight strings and the two collations *)

Lemma compareWeights_range l r :
  compareWeights l r = -1 ∨ compareWeights l r = 0 ∨ compareWeights l r = 1.
Proof.
  revert r; induction l as [|x l IH]; intros [|y r]; simpl; auto.
  destruct (x ?= y)%N; auto.
Qed.

Lemma compareWeights_refl l : compareWeights l l = 0.
Proof. induction l as [|x l IH]; simpl; [done|]. by rewrite N.compare_refl. Qed.

Lemma compareWeights_eq l r : compareWeights l r = 0 → l = r.
Proof.
  revert r; induction l as [|x l IH]; intros [|y r]; simpl; try done.
  destruct (x ?= y)%N eqn:E; try done.
  apply N.compare_eq_iff in E as ->. intros ?; f_equal; auto.
Qed.

Lemma compareWeights_flip l r : compareWeights r l = - compareWeights l r.
Proof.
  revert r; induction l as [|x l IH]; intros [|y r]; simpl; try done.
  rewrite (N.compare_antisym x y). destruct (x ?= y)%N; simpl; auto.
Qed.

Lemma compareWeights_trans a b c :
  compareWeights a b <= 0 → compareWeights b c <= 0 → compareWeights a c <= 0.
Proof.
  revert b c; induction a as [|x a IH]; intros [|y b] [|z c]; simpl; try lia.
  destruct (N.compare_spec x y), (N.compare_spec y z), (N.compare_spec x z);
    try lia; subst; eauto.
Qed.

Lemma compareWeights_trans_lt a b c :
  compareWeights a b < 0 → compareWeights b c < 0 → compareWeights a c < 0.
Proof.
  intros Hab Hbc.
  assert (compareWeights a c <= 0) as Hle by (eapply compareWeights_trans; [|by apply Z.lt_le_incl]; lia).
  destruct (decide (compareWeights a c = 0)) as [E|]; [|lia].
  apply compareWeights_eq in E as ->.
  rewrite (compareWeights_flip b c) in Hab. lia.
Qed.

(** The code-point order is the lexicographic order of the bytes. *)
Lemma codePointCompare_bytes l r :
  codePointCompare l r = compareWeights (weights N_of_ascii l) (weights N_of_ascii r).
Proof.
  unfold codePointCompare.
  revert r; induction l as [|x l IH]; intros [|y r]; simpl; try done.
  unfold Ascii.compare. destruct (N_of_ascii x ?= N_of_ascii y)%N; auto.
Qed.

Lemma weights_bytes_inj l r : weights N_of_ascii l = weights N_of_ascii r → l = r.
Proof.
  revert r; induction l as [|x l IH]; intros [|y r]; simpl; try done.
  intros [= Hxy Hlr]. f_equal; [|by apply IH].
  by rewrite <- (ascii_N_embedding x), <- (ascii_N_embedding y), Hxy.
Qed.

Lemma codePointCompare_eq l r : codePointCompare l r = 0 ↔ l = r.
Proof.
  rewrite codePointCompare_bytes. split.
  - intros E. by apply weights_bytes_inj, compareWeights_eq.
  - intros ->. apply compareWeights_refl.
Qed.

Lemma codePointCollator_laws : CollatorLaws codePointCollator.
Proof.
  split; simpl; intros *; rewrite !codePointCompare_bytes.
  - apply compareWeights_refl.
  - by rewrite compareWeights_flip, Z.sgn_opp.
  - apply compareWeights_trans.
Qed.

Lemma rootLocaleCompare_unfold l r :
  rootLocaleCompare l r =
    if decide (compareWeights (weights primaryWeight l) (weights primaryWeight r) = 0)
    then compareWeights (weights tertiaryWeight l) (weights tertiaryWeight r)
    else compareWeights (weights primaryWeight l) (weights primaryWeight r).
Proof.
  unfold rootLocaleCompare.
  destruct (compareWeights (weights primaryWeight l) (weights primaryWeight r)) eqn:E;
    case_decide; done.
Qed.

Lemma rootCollator_laws : CollatorLaws rootCollator.
Proof.
  split; simpl.
  - intros a. rewrite rootLocaleCompare_unfold, !compareWeights_refl. by case_decide.
  - intros a b. rewrite !rootLocaleCompare_unfold.
    rewrite (compareWeights_flip (weights primaryWeight a)),
            (compareWeights_flip (weights tertiaryWeight a)).
    repeat case_decide; try lia; by rewrite Z.sgn_opp.
  - intros a b c. rewrite !rootLocaleCompare_unfold.
    destruct (decide (compareWeights (weights primaryWeight a) (weights primaryWeight b) = 0))
      as [Eab|Nab];
    destruct (decide (compareWeights (weights primaryWeight b) (weights primaryWeight c) = 0))
      as [Ebc|Nbc].
    + apply compareWeights_eq in Eab, Ebc. rewrite Eab, Ebc, compareWeights_refl.
      rewrite decide_True by done. apply compareWeights_trans.
    + apply compareWeights_eq in Eab. rewrite Eab.
      rewrite decide_False by done. auto.
    + apply compareWeights_eq in Ebc. rewrite <- Ebc.
      rewrite decide_False by done. auto.
    + intros Hab Hbc.
      assert (compareWeights (weights primaryWeight a) (weights primaryWeight c) < 0)
        by (apply (compareWeights_trans_lt _ (weights primaryWeight b)); lia).
      rewrite decide_False by lia. lia.
Qed.

(** ** [Array.prototype.sort] *)

Section ArraySort.
Context {A : Type} (compareFn : A → A → Z).

Lemma sortInsert_Permutation x l : sortInsert compareFn x l ≡ₚ x :: l.
Proof.
  induction l as [|y l IH]; simpl; [done|].
  destruct (compareFn x y <=? 0); [done|].
  rewrite IH. apply perm_swap.
Qed.

Lemma arraySort_Permutation l : arraySort compareFn l ≡ₚ l.
Proof.
  induction l as [|x l IH]; simpl; [done|].
  by rewrite sortInsert_Permutation, IH.
Qed.

Lemma arraySort_length l : length (arraySort compareFn l) = length l.
Proof. by rewrite arraySort_Permutation. Qed.

Lemma arraySort_elem_of x l : x ∈ arraySort compareFn l ↔ x ∈ l.
Proof. by rewrite arraySort_Permutation. Qed.

Hypothesis compareFn_total : ∀ a b, compareFn a b <= 0 ∨ compareFn b a <= 0.
Hypothesis compareFn_trans :
  ∀ a b c, compareFn a b <= 0 → compareFn b c <= 0 → compareFn a c <= 0.

Lemma sortInsert_sorted x l :
  StronglySorted (λ a b, compareFn a b <= 0) l →
  StronglySorted (λ a b, compareFn a b <= 0) (sortInsert compareFn x l).
Proof.
  induction 1 as [|y l Hl IH Hy]; simpl.
  - repeat constructor.
  - destruct (Z.leb_spec (compareFn x y) 0) as [Hxy|Hxy].
    + constructor; [by constructor|].
      constructor; [done|].
      eapply Forall_impl; [exact Hy|]. intros z Hz. by eapply compareFn_trans.
    + constructor; [done|].
      rewrite sortInsert_Permutation. constructor; [|done].
      destruct (compareFn_total x y); [lia|done].
Qed.

Lemma arraySort_sorted l :
  StronglySorted (λ a b, compareFn a b <= 0) (arraySort compareFn l).
Proof.
  induction l as [|x l IH]; simpl; [constructor|]. by apply sortInsert_sorted.
Qed.

(** Two arrays with the same elements sort to the same array, provided the
    comparator tells their distinct elements apart. *)
Lemma arraySort_canonical l1 l2 :
  l1 ≡ₚ l2 →
  (∀ a b, a ∈ l1 → b ∈ l1 → compareFn a b <= 0 → compareFn b a <= 0 → a = b) →
  arraySort compareFn l1 = arraySort compareFn l2.
Proof.
  intros Hperm Hdistinct.
  apply (StronglySorted_unique_strong (λ a b, compareFn a b <= 0));
    [|apply arraySort_sorted..|by rewrite !arraySort_Permutation].
  intros a b Ha Hb. rewrite arraySort_elem_of in Ha, Hb.
  rewrite <- Hperm in Hb. by apply Hdistinct.
Qed.
End ArraySort.

(** Sorting on a key commutes with a map that keeps the key. *)
Lemma arraySort_map {A B} (cmp : string → string → Z) (keyA : A → string) (keyB : B → string)
    (f : A → B) (l : list A) :
  (∀ x, keyB (f x) = keyA x) →
  arraySort (λ left right, cmp (keyB left) (keyB right)) (map f l)
  = map f (arraySort (λ left right, cmp (keyA left) (keyA right)) l).
Proof.
  intros Hkey. induction l as [|x l IH]; simpl; [done|].
  rewrite IH. clear IH.
  induction (arraySort _ l) as [|y s IHs]; simpl; [done|].
  rewrite !Hkey. destruct (cmp (keyA x) (keyA y) <=? 0); simpl; [done|].
  by rewrite IHs.
Qed.

Section CollatorFacts.
Context {collator : Collator} {laws : CollatorLaws collator}.

Lemma localeCompare_total a b : localeCompare a b <= 0 ∨ localeCompare b a <= 0.
Proof. pose proof (localeCompare_flip a b). lia. Qed.

Lemma localeCompare_zero_sym a b : localeCompare a b = 0 → localeCompare b a = 0.
Proof. pose proof (localeCompare_flip a b). lia. Qed.
End CollatorFacts.

(** ** [new Set] *)

Lemma setToArray_elem_of x items : x ∈ setToArray items ↔ x ∈ items.
Proof.
  induction items as [|y items IH]; simpl; [done|].
  rewrite !elem_of_cons, list_elem_of_filter, IH.
  destruct (decide (x = y)); tauto.
Qed.

Lemma setToArray_NoDup items : NoDup (setToArray items).
Proof.
  induction items as [|y items IH]; simpl; [constructor|].
  constructor; [|by apply NoDup_filter].
  rewrite list_elem_of_filter. tauto.
Qed.

(** ** Claim C7 *)

Lemma forall_ascii (P : ascii → bool) :
  forallb P (map ascii_of_nat (seq 0 256)) = true → ∀ c, P c = true.
Proof.
  intros H c. rewrite forallb_forall in H. apply H.
  apply in_map_iff. exists (nat_of_ascii c). split; [apply ascii_nat_embedding|].
  apply in_seq. pose proof (nat_ascii_bounded c). lia.
Qed.

Lemma primaryWeight_compare c1 c2 :
  isIdChar c1 = true → isIdChar c2 = true →
  (primaryWeight c1 ?= primaryWeight c2)%N = (N_of_ascii c1 ?= N_of_ascii c2)%N.
Proof.
  intros H1 H2.
  assert (forallb
            (λ a, forallb (λ b, implb (isIdChar a && isIdChar b)
                                  (bool_decide ((primaryWeight a ?= primaryWeight b)%N
                                                = (N_of_ascii a ?= N_of_ascii b)%N)))
                          (map ascii_of_nat (seq 0 256)))
            (map ascii_of_nat (seq 0 256)) = true) as Hall
    by (vm_compute; reflexivity).
  pose proof (forall_ascii _ (forall_ascii _ Hall c1) c2) as Hpair. simpl in Hpair.
  rewrite H1, H2 in Hpair. simpl in Hpair. by apply bool_decide_eq_true in Hpair.
Qed.

Lemma tertiaryWeight_id c : isIdChar c = true → tertiaryWeight c = 0%N.
Proof.
  intros H.
  assert (forallb (λ a, implb (isIdChar a) (tertiaryWeight a =? 0)%N)
                  (map ascii_of_nat (seq 0 256)) = true) as Hall
    by (vm_compute; reflexivity).
  pose proof (forall_ascii _ Hall c) as Hc.
  simpl in Hc. rewrite H in Hc. by apply N.eqb_eq in Hc.
Qed.

Lemma rootLocaleCompare_id_strings l r :
  isIdString l = true → isIdString r = true →
  rootLocaleCompare l r = codePointCompare l r.
Proof.
  intros Hl Hr. rewrite codePointCompare_bytes, rootLocaleCompare_unfold.
  assert (compareWeights (weights primaryWeight l) (weights primaryWeight r)
          = compareWeights (weights N_of_ascii l) (weights N_of_ascii r)) as ->.
  { revert r Hl Hr; induction l as [|x l IH]; intros [|y r]; simpl; try done.
    intros [Hx Hl]%andb_prop [Hy Hr]%andb_prop.
    rewrite (primaryWeight_compare x y Hx Hy), (IH r Hl Hr). done. }
  case_decide as E; [|done]. rewrite E.
  apply compareWeights_eq, weights_bytes_inj in E as <-.
  apply compareWeights_refl.
Qed.

(** C7, the claim as stated, fails: [localeCompare] puts "a" before "B",
    the code points put "B" (66) before "a" (97). *)
Lemma sortUniqueWalletIds_code_point_counterexample :
  @sortUniqueWalletIds rootCollator ["B"; "a"] = ["a"; "B"]
  ∧ ¬ StronglySorted (λ left right, codePointCompare left right < 0)
        (@sortUniqueWalletIds rootCollator ["B"; "a"]).
Proof.
  split; [reflexivity|].
  intros Hsorted. apply StronglySorted_cons in Hsorted as [Hhead _].
  apply Forall_cons in Hhead as [Hlt _]. vm_compute in Hlt. discriminate.
Qed.

Lemma StronglySorted_code_point {collator : Collator} (l : list string) :
  NoDup l →
  StronglySorted (λ left right, localeCompare left right <= 0) l →
  (∀ left right, left ∈ l → right ∈ l →
     Z.sgn (localeCompare left right) = Z.sgn (codePointCompare left right)) →
  StronglySorted (λ left right, codePointCompare left right < 0) l.
Proof.
  intros Hnodup Hsorted. induction Hsorted as [|x l Hl IH Hx]; intros Hagree; [constructor|].
  apply NoDup_cons in Hnodup as [Hnotin Hnodup].
  constructor.
  - apply IH; [done|]. intros ????. apply Hagree; by right.
  - apply Forall_forall. intros y Hy.
    pose proof (proj1 (Forall_forall _ _) Hx y Hy) as Hle. simpl in Hle.
    pose proof (Hagree x y ltac:(by left) ltac:(by right)) as Hsgn.
    assert (codePointCompare x y ≠ 0)
      by (rewrite codePointCompare_eq; intros ->; done).
    lia.
Qed.

(** What the sort and the de-duplication give for any collation. *)
Lemma sortUniqueWalletIds_localeCompare_sorted {collator : Collator}
    (laws : CollatorLaws collator) (walletIds : list string) :
  NoDup (sortUniqueWalletIds walletIds)
  ∧ (∀ id, id ∈ sortUniqueWalletIds walletIds ↔ id ∈ walletIds)
  ∧ StronglySorted (λ left right, localeCompare left right <= 0)
                   (sortUniqueWalletIds walletIds).
Proof.
  unfold sortUniqueWalletIds. split_and!.
  - rewrite arraySort_Permutation. apply setToArray_NoDup.
  - intros id. by rewrite arraySort_elem_of, setToArray_elem_of.
  - apply arraySort_sorted; [apply localeCompare_total|apply localeCompare_trans].
Qed.

Lemma sortUniqueWalletIds_code_point_sorted {collator : Collator}
    (laws : CollatorLaws collator) (walletIds : list string) :
  (∀ left right, left ∈ walletIds → right ∈ walletIds →
     Z.sgn (localeCompare left right) = Z.sgn (codePointCompare left right)) →
  StronglySorted (λ left right, codePointCompare left right < 0)
                 (sortUniqueWalletIds walletIds).
Proof.
  intros Hagree.
  destruct (sortUniqueWalletIds_localeCompare_sorted laws walletIds)
    as (Hnodup & Helem & Hsorted).
  apply StronglySorted_code_point; [done..|].
  intros left right Hl Hr. apply Hagree; by apply Helem.
Qed.

(** Under the root collation, wallet ids over the alphabet of canonical UUIDs
    (digits, lower-case letters, hyphen) come out in ascending code-point
    order. *)
Lemma sortUniqueWalletIds_uuid_code_point (walletIds : list string) :
  Forall (λ id, isIdString id = true) walletIds →
  StronglySorted (λ left right, codePointCompare left right < 0)
                 (@sortUniqueWalletIds rootCollator walletIds).
Proof.
  intros Hids. apply (sortUniqueWalletIds_code_point_sorted rootCollator_laws).
  intros left right Hl Hr. simpl. f_equal.
  rewrite Forall_forall in Hids. apply rootLocaleCompare_id_strings; by apply Hids.
Qed.

(** C7 (amended): [sortUniqueWalletIds] returns each distinct id once, in
    ascending [localeCompare] order, and [toWalletLockKeys] is
    [lock:wallet:{id}] over exactly that list.  The list is in ascending
    code-point order for every input on whose ids [localeCompare] agrees in
    sign with the comparison of code points; under the ICU root collation
    ([rootCollator]) that is the case for all ids over digits, lower-case
    letters and the hyphen, the alphabet of canonical UUIDs. *)
Theorem sortUniqueWalletIds_sorted_unique {collator : Collator}
    (laws : CollatorLaws collator) (walletIds : list string) :
  let sorted := sortUniqueWalletIds walletIds in
  let codePointSorted := StronglySorted (λ left right, codePointCompare left right < 0) in
  NoDup sorted
  ∧ (∀ id, id ∈ sorted ↔ id ∈ walletIds)
  ∧ StronglySorted (λ left right, localeCompare left right <= 0) sorted
  ∧ toWalletLockKeys walletIds = map (λ id, "lock:wallet:" +:+ id) sorted
  ∧ ((∀ left right, left ∈ walletIds → right ∈ walletIds →
        Z.sgn (localeCompare left right) = Z.sgn (codePointCompare left right)) →
     codePointSorted sorted)
  ∧ (Forall (λ id, isIdString id = true) walletIds →
     codePointSorted (@sortUniqueWalletIds rootCollator walletIds)
     ∧ @toWalletLockKeys rootCollator walletIds
       = map (λ id, "lock:wallet:" +:+ id) (@sortUniqueWalletIds rootCollator walletIds)).
Proof.
  intros sorted codePointSorted. subst sorted codePointSorted.
  destruct (sortUniqueWalletIds_localeCompare_sorted laws walletIds)
    as (Hnodup & Helem & Hsorted).
  split_and!; [done|done|done|reflexivity| |].
  - apply (sortUniqueWalletIds_code_point_sorted laws).
  - intros Hids. split; [by apply sortUniqueWalletIds_uuid_code_point|reflexivity].
Qed.

(** The wallet ids of the unit test and two UUIDs, under the root
    collation. *)
Lemma sortUniqueWalletIds_sorted_unique_witness :
  let sorted := @sortUniqueWalletIds rootCollator ["wallet-b"; "wallet-a"; "wallet-b"] in
  let uuids := ["7d1f0d5e-3c77-4c58-9c53-2f3a1c0e8a11";
                "0b9f6c1a-52de-4e0b-a7c1-94d4e3a7f0c2"] in
  sorted = ["wallet-a"; "wallet-b"]
  ∧ NoDup sorted
  ∧ StronglySorted (λ left right, codePointCompare left right < 0) sorted
  ∧ @sortUniqueWalletIds rootCollator uuids
    = ["0b9f6c1a-52de-4e0b-a7c1-94d4e3a7f0c2"; "7d1f0d5e-3c77-4c58-9c53-2f3a1c0e8a11"]
  ∧ StronglySorted (λ left right, codePointCompare left right < 0)
                   (@sortUniqueWalletIds rootCollator uuids).
Proof.
  intros sorted uuids.
  pose proof (@sortUniqueWalletIds_sorted_unique rootCollator rootCollator_laws
                ["wallet-b"; "wallet-a"; "wallet-b"]) as (Hnodup & _ & _ & _ & Hcode & _).
  pose proof (@sortUniqueWalletIds_sorted_unique rootCollator rootCollator_laws uuids)
    as (_ & _ & _ & _ & _ & Hroot).
  split_and!; [reflexivity|exact Hnodup| |reflexivity|].
  - apply Hcode. intros left right Hl Hr. simpl. f_equal.
    apply rootLocaleCompare_id_strings.
    + set_unfold in Hl. destruct Hl as [->|[->|[->|[]]]]; reflexivity.
    + set_unfold in Hr. destruct Hr as [->|[->|[->|[]]]]; reflexivity.
  - apply Hroot. by repeat constructor.
Defined.

(** ** The distributed lock (claim C6) *)

Section LockProtocol.
Context {collator : Collator} {Store : Type} {lockClient : LockClient Store}.
Variable env : Env.

Lemma releaseEach_events lockKeys token store :
  snd (releaseEach lockKeys token store) = map (λ held, EvalRelease held token) lockKeys.
Proof.
  revert store; induction lockKeys as [|k lockKeys IH]; intros store; simpl; [done|].
  destruct (lockEval k token store) as [r store1].
  specialize (IH store1). destruct (releaseEach lockKeys token store1). simpl in *.
  by rewrite IH.
Qed.

Lemma releaseLocks_events lockKeys token store :
  snd (releaseLocks lockKeys token store) = map (λ held, EvalRelease held token) lockKeys.
Proof.
  unfold releaseLocks. case_decide as E; [|apply releaseEach_events].
  by destruct lockKeys.
Qed.

Lemma releaseEach_store lockKeys token store :
  fst (releaseEach lockKeys token store) = releasedFrom token lockKeys store.
Proof.
  revert store; induction lockKeys as [|k lockKeys IH]; intros store; simpl; [done|].
  destruct (lockEval k token store) as [r store1]. simpl.
  specialize (IH store1). by destruct (releaseEach lockKeys token store1).
Qed.

Lemma releaseLocks_store lockKeys token store :
  fst (releaseLocks lockKeys token store) = releasedFrom token lockKeys store.
Proof.
  unfold releaseLocks. case_decide as E; [|apply releaseEach_store].
  by destruct lockKeys.
Qed.

Lemma setEach_spec lockKeys token acquiredKeys store :
  let '(keys, status, store1, events) := setEach env lockKeys token acquiredKeys store in
  let set := λ lockKey, SetNxPx lockKey token (distributedLockTtlMs env) in
  let answers := passAnswers token (distributedLockTtlMs env) store in
  match status with
  | Locked =>
      keys = acquiredKeys ++ lockKeys ∧ events = map set lockKeys
      ∧ answers lockKeys AllAcquired store1
  | NotLocked =>
      ∃ got blocked rest, lockKeys = got ++ blocked :: rest
                          ∧ keys = acquiredKeys ++ got
                          ∧ events = map set (got ++ [blocked])
                          ∧ answers got (Blocked blocked) store1
  | SetRejected error =>
      ∃ got blocked rest, lockKeys = got ++ blocked :: rest
                          ∧ keys = acquiredKeys ++ got
                          ∧ events = map set (got ++ [blocked])
                          ∧ answers got (Rejected blocked error) store1
  end.
Proof.
  revert acquiredKeys store.
  induction lockKeys as [|k lockKeys IH]; intros acquiredKeys store; simpl.
  { rewrite app_nil_r. split_and!; [done..|constructor]. }
  destruct (lockSet k token (distributedLockTtlMs env) store) as [[result|error] store1]
    eqn:Hset.
  - case_decide as Hok.
    + subst result. specialize (IH (acquiredKeys ++ [k]) store1).
      destruct (setEach env lockKeys token (acquiredKeys ++ [k]) store1)
        as [[[keys status] store2] events].
      destruct status.
      * destruct IH as (-> & -> & Hanswers). rewrite <- app_assoc.
        split_and!; [done..|]. by eapply answers_ok.
      * destruct IH as (got & blocked & rest & -> & -> & -> & Hanswers).
        exists (k :: got), blocked, rest. rewrite <- app_assoc.
        split_and!; [done..|]. by eapply answers_ok.
      * destruct IH as (got & blocked & rest & -> & -> & -> & Hanswers).
        exists (k :: got), blocked, rest. rewrite <- app_assoc.
        split_and!; [done..|]. by eapply answers_ok.
    + exists [], k, lockKeys. rewrite app_nil_r.
      split_and!; [done..|]. by eapply answers_blocked.
  - exists [], k, lockKeys. rewrite app_nil_r.
    split_and!; [done..|]. by eapply answers_rejected.
Qed.

Lemma attemptLoop_spec remaining attempt lockKeys token store :
  let '(outcome, final, events) := attemptLoop env remaining attempt lockKeys token store in
  ∃ logs,
    (length logs ≤ remaining)%nat
    ∧ events = runEvents env token attempt logs
    ∧ Forall (attemptFits lockKeys) logs
    ∧ clientFollows token (distributedLockTtlMs env) store logs final
    ∧ (∀ i log, logs !! i = Some log → (S i < length logs)%nat → isBlocked log)
    ∧ match ending <$> last logs with
      | Some AllAcquired =>
          outcome = Returned {| heldKeys := lockKeys; heldToken := token |}
      | Some (Rejected _ error) => outcome = Thrown error
      | Some (Blocked _) | None =>
          length logs = remaining ∧ outcome = Thrown (AppError 423 "DISTRIBUTED_LOCK_NOT_ACQUIRED"
                                              "Could not acquire wallet lock. Please retry.")
      end.
Proof.
  revert attempt store.
  induction remaining as [|remaining IH]; intros attempt store; simpl.
  { exists []. split_and!; done. }
  pose proof (setEach_spec lockKeys token [] store) as Hset.
  destruct (setEach env lockKeys token [] store) as [[[keys status] store1] events1].
  destruct status; simpl in Hset.
  - destruct Hset as (-> & -> & Hanswers).
    exists [ {| acquired := lockKeys; ending := AllAcquired |} ].
    split_and!; simpl; rewrite ?app_nil_r; try done; try lia;
      try (by repeat constructor); try (intros [|i] log; simpl; [lia|done]).
    by exists store1.
  - destruct Hset as (got & blocked & rest & -> & -> & -> & Hanswers). simpl.
    pose proof (releaseLocks_events got token store1) as Hrel.
    pose proof (releaseLocks_store got token store1) as Hstore.
    destruct (releaseLocks got token store1) as [store2 events2]. simpl in Hrel, Hstore.
    specialize (IH (attempt + 1) store2).
    destruct (attemptLoop env remaining (attempt + 1) (got ++ blocked :: rest) token store2)
      as [[outcome store3] events4].
    destruct IH as (logs & Hlen & -> & Hfits & Hfollows & Hblocked & Hlast).
    exists ({| acquired := got; ending := Blocked blocked |} :: logs).
    split_and!; simpl.
    + lia.
    + unfold attemptEvents at 1. simpl. by rewrite Hrel, <- !app_assoc.
    + constructor; [by exists rest|done].
    + exists store1. split; [done|]. by rewrite <- Hstore.
    + intros [|i] log; simpl.
      * intros [= <-] _. done.
      * intros ? ?. apply (Hblocked i); [done|lia].
    + destruct logs as [|log logs]; simpl in *.
      * destruct Hlast as [<- ->]. done.
      * destruct (ending <$> last (log :: logs)) as [[]|]; try done.
        all: destruct Hlast as [<- ->]; done.
  - destruct Hset as (got & blocked & rest & -> & -> & -> & Hanswers).
    exists [ {| acquired := got; ending := Rejected blocked error |} ].
    split_and!; simpl; rewrite ?app_nil_r; try done; try lia;
      try (repeat constructor; by exists rest);
      try (intros [|i] log; simpl; [lia|done]).
    by exists store1.
Qed.

(** C6: the protocol of [acquireWalletLocks].  Without lock keys the call
    fails at once with 400 LOCK_KEYS_MISSING and asks nothing of the client.
    Otherwise it makes at most DISTRIBUTED_LOCK_RETRY_COUNT attempts,
    numbered from 1, and what it asks of the client and of the timer is the
    run of these attempts.  Within an attempt the keys are SET in order with
    NX and the TTL: the attempt acquires the keys the client answers "OK"
    for, up to the first key whose SET is answered otherwise (the attempt is
    blocked) or rejected.  A blocked attempt runs the release script, with
    the call's token, on exactly the keys it acquired, then pauses for
    [retryDelay * attempt] unless it was the last, and the next attempt
    starts from the client state the releases left.  An attempt that
    acquires every key ends the call with the handle; the call fails with 423
    DISTRIBUTED_LOCK_NOT_ACQUIRED exactly when the last of
    DISTRIBUTED_LOCK_RETRY_COUNT attempts was blocked as well. *)
Theorem acquireWalletLocks_protocol (walletIds : list string) (token : string)
    (store : Store) :
  let lockKeys := toWalletLockKeys walletIds in
  let run := acquireWalletLocks env walletIds token store in
  let outcome := fst (fst run) in
  let final := snd (fst run) in
  let events := snd run in
  (lockKeys = [] →
     outcome = Thrown (AppError 400 "LOCK_KEYS_MISSING" "No lock keys were provided")
     ∧ events = [] ∧ final = store)
  ∧ (lockKeys ≠ [] →
     ∃ logs,
       (length logs ≤ Z.to_nat (distributedLockRetryCount env))%nat
       ∧ events = runEvents env token 1 logs
       ∧ Forall (attemptFits lockKeys) logs
       ∧ clientFollows token (distributedLockTtlMs env) store logs final
       ∧ (∀ i log, logs !! i = Some log → (S i < length logs)%nat → isBlocked log)
       ∧ match ending <$> last logs with
         | Some AllAcquired =>
             outcome = Returned {| heldKeys := lockKeys; heldToken := token |}
         | Some (Rejected _ error) => outcome = Thrown error
         | Some (Blocked _) | None =>
             length logs = Z.to_nat (distributedLockRetryCount env)
             ∧ outcome = Thrown (AppError 423 "DISTRIBUTED_LOCK_NOT_ACQUIRED"
                                   "Could not acquire wallet lock. Please retry.")
         end).
Proof.
  intros lockKeys run outcome final events. subst outcome final events run.
  unfold acquireWalletLocks. fold lockKeys.
  split.
  - intros ->. done.
  - intros Hkeys. rewrite decide_False by (by destruct lockKeys).
    pose proof (attemptLoop_spec (Z.to_nat (distributedLockRetryCount env)) 1
                  lockKeys token store) as Hloop.
    by destruct (attemptLoop env (Z.to_nat (distributedLockRetryCount env)) 1
                   lockKeys token store) as [[? ?] ?].
Qed.
End LockProtocol.


(** The in-memory client of the unit test: SET NX writes only an absent key,
    and the release script deletes a key only under the token that holds it. *)
Lemma inMemorySet_spec (key value : string) (ttl : Z) (store : gmap string string) :
  inMemorySet key value ttl store
  = if decide (store !! key = None)
    then (Returned (Some "OK"), <[key := value]> store)
    else (Returned None, store).
Proof. unfold inMemorySet. by destruct (store !! key). Qed.

Lemma inMemoryEval_spec (key token : string) (store : gmap string string) :
  inMemoryEval key token store
  = (Returned (), if decide (store !! key = Some token) then delete key store else store).
Proof.
  unfold inMemoryEval. destruct (store !! key) as [current|]; [|done].
  destruct (decide (current = token)) as [->|Hne].
  - by rewrite decide_True.
  - rewrite decide_False; [done|]. by intros [= ->].
Qed.

(** The second test of tests/distributed-lock.test.ts, with one key held by
    another caller: three blocked attempts, the first two followed by pauses
    of 50 and 100 ms, then 423; the other caller's key is still held and
    nothing else is. *)
Lemma acquireWalletLocks_protocol_witness :
  let held : gmap string string := {[ "lock:wallet:wallet-b" := "token-0" ]} in
  let run := @acquireWalletLocks rootCollator _ InMemoryLockClient defaultEnv
               ["wallet-b"; "wallet-a"] "token-1" held in
  (∃ logs, (length logs ≤ 3)%nat
           ∧ snd run = runEvents defaultEnv "token-1" 1 logs
           ∧ @clientFollows _ InMemoryLockClient "token-1" 5000 held logs (snd (fst run)))
  ∧ snd run
    = [ SetNxPx "lock:wallet:wallet-a" "token-1" 5000;
        SetNxPx "lock:wallet:wallet-b" "token-1" 5000;
        EvalRelease "lock:wallet:wallet-a" "token-1"; Sleep 50;
        SetNxPx "lock:wallet:wallet-a" "token-1" 5000;
        SetNxPx "lock:wallet:wallet-b" "token-1" 5000;
        EvalRelease "lock:wallet:wallet-a" "token-1"; Sleep 100;
        SetNxPx "lock:wallet:wallet-a" "token-1" 5000;
        SetNxPx "lock:wallet:wallet-b" "token-1" 5000;
        EvalRelease "lock:wallet:wallet-a" "token-1" ]
  ∧ fst (fst run) = Thrown (AppError 423 "DISTRIBUTED_LOCK_NOT_ACQUIRED"
                              "Could not acquire wallet lock. Please retry.")
  ∧ snd (fst run) = held.
Proof.
  intros held run.
  destruct (@acquireWalletLocks_protocol rootCollator _ InMemoryLockClient defaultEnv
              ["wallet-b"; "wallet-a"] "token-1" held) as [_ Hprotocol].
  destruct Hprotocol as (logs & Hlength & Hevents & _ & Hfollows & _); [discriminate|].
  split_and!; [by exists logs|vm_compute; reflexivity|vm_compute; reflexivity|].
  apply map_eq. intros key. vm_compute. reflexivity.
Defined.

(** ** The mutation engine *)

Section Engine.
Context {collator : Collator} {Store : Type} {lockClient : LockClient Store}.
Variable env : Env.

Lemma find_some_elem_of {A} (f : A → bool) l x :
  List.find f l = Some x → x ∈ l ∧ f x = true.
Proof. intros H. apply find_some in H as [? ?]. by rewrite list_elem_of_In. Qed.

Lemma resolveContext_wallets userId assetCode db context :
  resolveContext userId assetCode db = Returned context →
  ∃ assetType userWallet treasuryWallet,
    assetType ∈ assetTypes db
    ∧ asset_code assetType = toUpperCase assetCode
    ∧ asset_id assetType = assetTypeId context
    ∧ asset_code assetType = contextAssetCode context
    ∧ userWallet ∈ wallets db
    ∧ isUserWalletOf userId (assetTypeId context) userWallet
    ∧ wallet_id userWallet = userWalletId context
    ∧ treasuryWallet ∈ wallets db
    ∧ isTreasuryWalletOf (assetTypeId context) treasuryWallet
    ∧ wallet_id treasuryWallet = treasuryWalletId context.
Proof.
  unfold resolveContext.
  destruct (List.find _ (assetTypes db)) as [assetType|] eqn:Ea; [|done].
  destruct (List.find _ (wallets db)) as [userWallet|] eqn:Eu; [|done].
  destruct (List.find (λ w, bool_decide (wallet_ownerType w = SYSTEM ∧ _)) (wallets db))
    as [treasuryWallet|] eqn:Et; [|done].
  intros [= <-]. simpl.
  apply find_some_elem_of in Ea as [? ?%bool_decide_eq_true].
  apply find_some_elem_of in Eu as [? ?%bool_decide_eq_true].
  apply find_some_elem_of in Et as [? ?%bool_decide_eq_true].
  exists assetType, userWallet, treasuryWallet. split_and!; done.
Qed.

(** *** The statements of the transaction, one by one *)

Lemma createOrReplayTransaction_created type input asset source destination generated
    db transactionId createdAt db1 :
  createOrReplayTransaction type input asset source destination generated db
    = (Returned (Created transactionId createdAt), db1) →
  transactionId = newTransactionId generated
  ∧ createdAt = newCreatedAt generated
  ∧ 0 < amount input
  ∧ (∀ t, t ∈ transactions db →
          tx_id t ≠ newTransactionId generated
          ∧ tx_idempotencyKey t ≠ idempotencyKey input)
  ∧ db1 = withTransactions db
            (transactions db
             ++ [processingRow type input asset source destination generated]).
Proof.
  unfold createOrReplayTransaction, transactionCreate. simpl.
  case_decide as Hamount; [done|].
  destruct (existsb _ (transactions db)) eqn:Hexists.
  - by unfold txBind, inFailedTransaction.
  - intros [= <- <- <-]. split_and!; try done; [lia|].
    intros t Ht.
    assert (bool_decide (tx_id t = newTransactionId generated
                         ∨ tx_idempotencyKey t = idempotencyKey input) = false) as Hn.
    { destruct (bool_decide _) eqn:E; [|done].
      assert (existsb (λ t, bool_decide (tx_id t = newTransactionId generated
                             ∨ tx_idempotencyKey t = idempotencyKey input))
                      (transactions db) = true) as Hx
        by (apply existsb_exists; exists t; by rewrite <- list_elem_of_In).
      simpl in Hexists. congruence. }
    apply bool_decide_eq_false in Hn. tauto.
Qed.

Lemma createOrReplayTransaction_replay type input asset source destination generated
    db result db1 :
  createOrReplayTransaction type input asset source destination generated db
    = (Returned (Replay result), db1) →
  replayed result = true ∧ db1 = db.
Proof.
  unfold createOrReplayTransaction, transactionCreate. simpl.
  case_decide as Hamount; [done|].
  destruct (existsb _ (transactions db)) eqn:Hexists; [|done].
  by unfold txBind, inFailedTransaction.
Qed.

Lemma transactionUpdate_last id data db rows row :
  transactions db = rows ++ [row] →
  (∀ t, t ∈ rows → tx_id t ≠ id) → tx_id row = id →
  transactionUpdate id data db
  = (Returned (), withTransactions db (rows ++ [data row])).
Proof.
  intros Hrows Hfresh Hid. unfold transactionUpdate. rewrite Hrows.
  rewrite existsb_app. simpl. rewrite (bool_decide_eq_true_2 _ Hid), orb_true_r.
  do 2 f_equal.
  rewrite map_app. simpl. rewrite decide_True by done. f_equal.
  rewrite <- (map_id rows) at 2. apply map_ext_in.
  intros t Ht%list_elem_of_In. rewrite decide_False; [done|by apply Hfresh].
Qed.

Lemma walletBalance_ledger walletId asset db1 db2 :
  ledgerEntries db1 = ledgerEntries db2 →
  walletBalance walletId asset db1 = walletBalance walletId asset db2.
Proof. unfold walletBalance. by intros ->. Qed.

Lemma walletUpdateMany_tables id version db :
  let db1 := snd (walletUpdateMany id version db) in
  users db1 = users db ∧ assetTypes db1 = assetTypes db
  ∧ transactions db1 = transactions db ∧ ledgerEntries db1 = ledgerEntries db.
Proof. done. Qed.

Lemma bumpEach_tables lockedWallets db :
  let db1 := snd (bumpEach lockedWallets db) in
  users db1 = users db ∧ assetTypes db1 = assetTypes db
  ∧ transactions db1 = transactions db ∧ ledgerEntries db1 = ledgerEntries db.
Proof.
  revert db. induction lockedWallets as [|w l IH]; intros db; simpl; [done|].
  unfold txBind. simpl.
  specialize (IH (snd (walletUpdateMany (fst w) (snd w) db))).
  destruct (bumpEach l _) as [[updates|error] db2]; simpl in *; done.
Qed.

Lemma bumpWalletVersions_tables lockedWallets db outcome db1 :
  bumpWalletVersions lockedWallets db = (outcome, db1) →
  users db1 = users db ∧ assetTypes db1 = assetTypes db
  ∧ transactions db1 = transactions db ∧ ledgerEntries db1 = ledgerEntries db.
Proof.
  unfold bumpWalletVersions, txBind, txLift.
  pose proof (bumpEach_tables lockedWallets db) as H.
  destruct (bumpEach lockedWallets db) as [[updates|error] db2]; simpl in *;
    by intros [= <- <-].
Qed.

(** What a mutation that is not a replay leaves behind: the new row, and
    either the recorded refusal or the posting. *)
Lemma mutationTransaction_fresh type input context source destination generated
    db result db' :
  mutationTransaction type input context source destination generated db
    = (Returned result, db') →
  replayed result = false →
  let row := processingRow type input (assetTypeId context) source destination generated in
  0 < amount input
  ∧ (∀ t, t ∈ transactions db →
          tx_id t ≠ newTransactionId generated
          ∧ tx_idempotencyKey t ≠ idempotencyKey input)
  ∧ users db' = users db ∧ assetTypes db' = assetTypes db
  ∧ ((walletBalance source (assetTypeId context) db < amount input
      ∧ result = {| statusCode := 409; body := insufficientFundsPayload; replayed := false |}
      ∧ wallets db' = wallets db
      ∧ ledgerEntries db' = ledgerEntries db
      ∧ transactions db'
        = transactions db
          ++ [setResponse FAILED (Some "INSUFFICIENT_FUNDS") 409 insufficientFundsPayload row])
     ∨ (amount input <= walletBalance source (assetTypeId context) db
        ∧ statusCode result = 200
        ∧ ledgerEntries db' = ledgerEntries db ++ [debitOf row; creditOf row]
        ∧ transactions db'
          = transactions db ++ [setResponse POSTED None 200 (body result) row])).
Proof.
  unfold mutationTransaction, txBind at 1.
  destruct (createOrReplayTransaction type input (assetTypeId context) source destination
              generated db) as [[[transactionId createdAt|replay]|error] db1] eqn:Hcreate;
    [| |done].
  2:{ apply createOrReplayTransaction_replay in Hcreate as [Hreplayed ->].
      unfold txReturn. intros [= <- <-]. congruence. }
  apply createOrReplayTransaction_created in Hcreate as (-> & -> & Hamount & Hfresh & ->).
  unfold txBind at 1, lockWallets at 1.
  case_decide as Hlocked; [done|].
  unfold txBind at 1, getWalletBalance at 1.
  rewrite (walletBalance_ledger source (assetTypeId context) _ db) by done.
  destruct (Z.ltb_spec (walletBalance source (assetTypeId context) db) (amount input))
    as [Hlow|Henough].
  - unfold txBind at 1.
    rewrite (transactionUpdate_last _ _ _ (transactions db)
               (processingRow type input (assetTypeId context) source destination generated));
      [|done|intros t Ht; by destruct (Hfresh t Ht)|done].
    unfold txReturn. intros [= <- <-] _. split_and!; try done. by left.
  - unfold txBind at 1, ledgerEntryCreateMany at 1. simpl forallb.
    rewrite (proj2 (Z.ltb_lt 0 (amount input)) Hamount). simpl.
    unfold txBind at 1.
    match goal with
    | |- context [bumpWalletVersions ?l ?d] =>
        destruct (bumpWalletVersions l d) as [[[]|error] db2] eqn:Hbump; [|done];
        apply bumpWalletVersions_tables in Hbump as (Husers & Hassets & Htxs & Hledger)
    end.
    simpl in Husers, Hassets, Htxs, Hledger.
    unfold txBind at 1, getWalletBalance at 1.
    unfold txBind at 1.
    rewrite (transactionUpdate_last _ _ _ (transactions db)
               (processingRow type input (assetTypeId context) source destination generated));
      [|done|intros t Ht; by destruct (Hfresh t Ht)|done].
    unfold txReturn. intros [= <- <-] _. simpl.
    split_and!; try done. right. split_and!; done.
Qed.

Lemma executeMutation_fresh type input generated world result world' :
  executeMutation env type input generated world = (Returned result, world') →
  replayed result = false →
  ∃ context,
    cacheGet (idempotencyKey input) (cache world) = None
    ∧ resolveContext (userId input) (assetCode input) (database world) = Returned context
    ∧ mutationTransaction type input context (sourceWalletIdOf type context)
        (destinationWalletIdOf type context) generated (database world)
      = (Returned result, database world').
Proof.
  unfold executeMutation.
  destruct (cacheGet (idempotencyKey input) (cache world)) as [cached|].
  { case_decide; [done|]. intros [= <- <-]. done. }
  destruct (resolveContext (userId input) (assetCode input) (database world))
    as [context|]; [|done].
  destruct (acquireWalletLocks _ _ _ _) as [[[handle|] store1] events]; [|done].
  unfold prismaTransaction.
  destruct (mutationTransaction type input context _ _ generated (database world))
    as [[r|] db1] eqn:Htx; [|done].
  intros [= <- <-] Hreplayed. exists context. done.
Qed.

Lemma walletBalance_sum walletId asset db :
  walletBalance walletId asset db
  = foldr Z.add 0
      (map signedAmount
         (List.filter (λ e, bool_decide (entry_walletId e = walletId
                                         ∧ entry_assetTypeId e = asset))
                      (ledgerEntries db))).
Proof.
  unfold walletBalance, sqlSum.
  generalize (List.filter (λ e, bool_decide (entry_walletId e = walletId
                                             ∧ entry_assetTypeId e = asset))
                          (ledgerEntries db)).
  intros l.
  assert (omap id (map (λ e, Some (signedAmount e)) l) = map signedAmount l) as ->.
  { induction l as [|e l IH]; simpl; [done|]. by rewrite <- IH. }
  by destruct l.
Qed.

Lemma walletBalance_posted walletId asset db db' row :
  ledgerEntries db' = ledgerEntries db ++ [debitOf row; creditOf row] →
  walletBalance walletId asset db'
  = walletBalance walletId asset db
    + (if decide (tx_sourceWalletId row = walletId ∧ tx_assetTypeId row = asset)
       then - tx_amount row else 0)
    + (if decide (tx_destinationWalletId row = walletId ∧ tx_assetTypeId row = asset)
       then tx_amount row else 0).
Proof.
  intros Hledger. rewrite !walletBalance_sum, Hledger.
  rewrite List.filter_app, map_app, foldr_app. simpl.
  generalize (map signedAmount
                (List.filter (λ e, bool_decide (entry_walletId e = walletId
                                                ∧ entry_assetTypeId e = asset))
                             (ledgerEntries db))).
  intros amounts.
  assert (∀ x, foldr Z.add x amounts = foldr Z.add 0 amounts + x) as Hshift.
  { induction amounts as [|y amounts IH]; intros x; simpl; [lia|]. rewrite IH. lia. }
  repeat case_decide; repeat case_bool_decide; try tauto; simpl;
    unfold signedAmount; simpl; rewrite Hshift; lia.
Qed.
End Engine.

(** ** Claims C1, C2, C8: what a mutation writes *)

Section Mutations.
Context {collator : Collator} {Store : Type} {lockClient : LockClient Store}.
Variable env : Env.

Lemma ledgerForeignKey_fresh db id :
  ledgerForeignKey db = true →
  (∀ t, t ∈ transactions db → tx_id t ≠ id) →
  filter (λ e, entry_transactionId e = id) (ledgerEntries db) = [].
Proof.
  unfold ledgerForeignKey. rewrite forallb_forall. intros Hfk Hfresh.
  induction (ledgerEntries db) as [|e entries IH]; [done|].
  rewrite filter_cons, decide_False.
  - apply IH. intros e' He'. apply Hfk. by right.
  - intros Heq. specialize (Hfk e ltac:(by left)).
    apply existsb_exists in Hfk as (t & Ht%list_elem_of_In & Hid%bool_decide_eq_true).
    apply (Hfresh t Ht). congruence.
Qed.

(** C1: a mutation that ends POSTED (status 200, not a replay) has appended
    to the ledger exactly the two entries of its transaction, a DEBIT of
    the amount on the source wallet and a CREDIT of the amount on the
    destination wallet, both for the asset of the transaction; no other
    entry carries the id of that transaction. *)
Theorem posted_mutation_writes_two_entries (type : TransactionType)
    (input : WalletMutationRequest) (generated : Generated)
    (world world' : World Store) (result : WalletMutationResult) :
  ledgerForeignKey (database world) = true →
  executeMutation env type input generated world = (Returned result, world') →
  replayed result = false →
  statusCode result = 200 →
  ∃ t,
    t ∈ transactions (database world')
    ∧ tx_id t = newTransactionId generated
    ∧ tx_idempotencyKey t = idempotencyKey input
    ∧ tx_status t = POSTED
    ∧ tx_amount t = amount input
    ∧ ledgerEntries (database world')
      = ledgerEntries (database world) ++ [debitOf t; creditOf t]
    ∧ filter (λ e, entry_transactionId e = tx_id t) (ledgerEntries (database world'))
      = [debitOf t; creditOf t].
Proof.
  intros Hfk Hrun Hreplayed Hstatus.
  apply executeMutation_fresh in Hrun as (context & _ & _ & Htx); [|done].
  apply mutationTransaction_fresh in Htx
    as (_ & Hfresh & _ & _ & [(_ & -> & _)|(_ & _ & Hledger & Htxs)]);
    [by simpl in Hstatus| |done].
  set (row := processingRow type input (assetTypeId context)
                (sourceWalletIdOf type context) (destinationWalletIdOf type context)
                generated) in *.
  exists (setResponse POSTED None 200 (body result) row).
  split_and!; try done.
  - rewrite Htxs. apply elem_of_app. right. by left.
  - rewrite Hledger, filter_app.
    rewrite (ledgerForeignKey_fresh _ _ Hfk) by (intros t Ht; by destruct (Hfresh t Ht)).
    simpl. rewrite !filter_cons, filter_nil. simpl.
    by rewrite !decide_True by done.
Qed.

(** C2: a mutation that finds less than the requested amount on the source
    wallet records the refusal on its transaction row (FAILED,
    INSUFFICIENT_FUNDS, 409 and the error body), returns that body with
    status 409, and leaves the ledger (and the wallets) as they were. *)
Theorem insufficient_funds_is_recorded (type : TransactionType)
    (input : WalletMutationRequest) (generated : Generated)
    (world world' : World Store) (result : WalletMutationResult)
    (context : WalletExecutionContext) :
  executeMutation env type input generated world = (Returned result, world') →
  replayed result = false →
  resolveContext (userId input) (assetCode input) (database world) = Returned context →
  walletBalance (sourceWalletIdOf type context) (assetTypeId context) (database world)
    < amount input →
  result = {| statusCode := 409; body := insufficientFundsPayload; replayed := false |}
  ∧ ledgerEntries (database world') = ledgerEntries (database world)
  ∧ wallets (database world') = wallets (database world)
  ∧ ∃ t,
      transactions (database world') = transactions (database world) ++ [t]
      ∧ tx_id t = newTransactionId generated
      ∧ tx_idempotencyKey t = idempotencyKey input
      ∧ tx_status t = FAILED
      ∧ tx_errorCode t = Some "INSUFFICIENT_FUNDS"
      ∧ tx_responseCode t = Some 409
      ∧ tx_responseBody t = Some (body result).
Proof.
  intros Hrun Hreplayed Hcontext Hlow.
  apply executeMutation_fresh in Hrun as (context' & _ & Hcontext' & Htx); [|done].
  assert (context' = context) as -> by congruence.
  apply mutationTransaction_fresh in Htx
    as (_ & _ & _ & _ & [(_ & -> & Hwallets & Hledger & Htxs)|(? & _)]); [|lia|done].
  split_and!; try done. eexists. split; [exact Htxs|]. done.
Qed.

(** C8: the balance check is on the source wallet whatever the type of the
    mutation, the treasury included: with less than the amount on the source
    the mutation is refused with INSUFFICIENT_FUNDS and the ledger is left
    alone, and a posted mutation lowers the balance of no wallet but its
    source, which it leaves at zero or above. *)
Theorem source_balance_check_is_uniform (type : TransactionType)
    (input : WalletMutationRequest) (generated : Generated)
    (world world' : World Store) (result : WalletMutationResult) :
  executeMutation env type input generated world = (Returned result, world') →
  replayed result = false →
  ∃ context,
    resolveContext (userId input) (assetCode input) (database world) = Returned context
    ∧ let source := sourceWalletIdOf type context in
      let before := walletBalance source (assetTypeId context) (database world) in
      (type ≠ SPEND → source = treasuryWalletId context)
      ∧ (before < amount input →
           statusCode result = 409 ∧ body result = insufficientFundsPayload
           ∧ ledgerEntries (database world') = ledgerEntries (database world))
      ∧ (statusCode result = 200 →
           amount input <= before
           ∧ ∀ walletId asset,
               walletBalance walletId asset (database world')
                 < walletBalance walletId asset (database world) →
               walletId = source ∧ asset = assetTypeId context
               ∧ 0 <= walletBalance walletId asset (database world')).
Proof.
  intros Hrun Hreplayed.
  apply executeMutation_fresh in Hrun as (context & _ & Hcontext & Htx); [|done].
  exists context. split; [done|]. simpl.
  apply mutationTransaction_fresh in Htx
    as (Hamount & _ & _ & _ & [(Hlow & -> & _ & Hledger & _)|(Henough & Hstatus & Hledger & _)]);
    [| |done].
  - split_and!; try done;
      try (unfold sourceWalletIdOf; intros ?; by rewrite decide_False);
      try (simpl; lia).
  - split_and!.
    + unfold sourceWalletIdOf. intros ?. by rewrite decide_False.
    + lia.
    + intros _. split; [done|]. intros walletId asset.
      rewrite (walletBalance_posted walletId asset _ _ _ Hledger). simpl.
      repeat case_decide; try lia.
      intros _. destruct_and!. subst. split_and!; try done. lia.
Qed.
End Mutations.

(** The scenarios of the specification on the example database: a topup of 100
    gold coins for alice, a spend of 999999, and a topup of two million, more
    than the treasury holds. *)
Lemma posted_mutation_writes_two_entries_witness :
  let run := @executeMutation rootCollator _ InMemoryLockClient defaultEnv
               TOPUP (aliceRequest 100 "key-1") (drawn "1") seededWorld in
  ∃ t,
    t ∈ transactions (database (snd run))
    ∧ tx_id t = "t-1"
    ∧ tx_idempotencyKey t = "key-1"
    ∧ tx_status t = POSTED
    ∧ tx_amount t = 100
    ∧ ledgerEntries (database (snd run))
      = ledgerEntries seededDatabase ++ [debitOf t; creditOf t]
    ∧ filter (λ e, entry_transactionId e = tx_id t) (ledgerEntries (database (snd run)))
      = [debitOf t; creditOf t].
Proof.
  intros run.
  apply (@posted_mutation_writes_two_entries rootCollator _ InMemoryLockClient defaultEnv
           TOPUP (aliceRequest 100 "key-1") (drawn "1") seededWorld (snd run)
           {| statusCode := 200;
              body := successPayload TOPUP (aliceRequest 100 "key-1")
                        {| assetTypeId := "a-gold"; contextAssetCode := "GOLD_COINS";
                           userWalletId := "w-alice-gold";
                           treasuryWalletId := "w-treasury-gold" |}
                        "t-1" "2026-03-01T12:00:00.000Z" 1100
                        "w-treasury-gold" "w-alice-gold";
              replayed := false |});
    vm_compute; reflexivity.
Defined.

Lemma insufficient_funds_is_recorded_witness :
  let run := @executeMutation rootCollator _ InMemoryLockClient defaultEnv
               SPEND (aliceRequest 999999 "key-2") (drawn "2") seededWorld in
  fst run = Returned {| statusCode := 409; body := insufficientFundsPayload;
                        replayed := false |}
  ∧ ledgerEntries (database (snd run)) = ledgerEntries seededDatabase
  ∧ ∃ t, transactions (database (snd run)) = transactions seededDatabase ++ [t]
         ∧ tx_status t = FAILED
         ∧ tx_errorCode t = Some "INSUFFICIENT_FUNDS"
         ∧ tx_responseCode t = Some 409
         ∧ tx_responseBody t = Some insufficientFundsPayload.
Proof.
  intros run.
  destruct (@insufficient_funds_is_recorded rootCollator _ InMemoryLockClient defaultEnv
              SPEND (aliceRequest 999999 "key-2") (drawn "2") seededWorld (snd run)
              {| statusCode := 409; body := insufficientFundsPayload; replayed := false |}
              {| assetTypeId := "a-gold"; contextAssetCode := "GOLD_COINS";
                 userWalletId := "w-alice-gold"; treasuryWalletId := "w-treasury-gold" |})
    as (_ & Hledger & _ & t & Htxs & _ & _ & Hstatus & Herror & Hcode & Hbody);
    [vm_compute; reflexivity..|].
  split_and!; [vm_compute; reflexivity|exact Hledger|].
  exists t. split_and!; done.
Defined.

Lemma source_balance_check_is_uniform_witness :
  let run := @executeMutation rootCollator _ InMemoryLockClient defaultEnv
               TOPUP (aliceRequest 2000000 "key-3") (drawn "3") seededWorld in
  walletBalance "w-treasury-gold" "a-gold" seededDatabase = 999000
  ∧ statusCode <$> (match fst run with Returned r => Some r | Thrown _ => None end) = Some 409
  ∧ ledgerEntries (database (snd run)) = ledgerEntries seededDatabase.
Proof.
  intros run.
  destruct (@source_balance_check_is_uniform rootCollator _ InMemoryLockClient defaultEnv
              TOPUP (aliceRequest 2000000 "key-3") (drawn "3") seededWorld (snd run)
              {| statusCode := 409; body := insufficientFundsPayload; replayed := false |})
    as (context & Hcontext & Hsource & Hrefused & _); [vm_compute; reflexivity..|].
  assert (context = {| assetTypeId := "a-gold"; contextAssetCode := "GOLD_COINS";
                       userWalletId := "w-alice-gold";
                       treasuryWalletId := "w-treasury-gold" |}) as ->
    by (vm_compute in Hcontext; congruence).
  destruct Hrefused as (_ & _ & Hledger); [vm_compute; reflexivity|].
  split_and!; [reflexivity|vm_compute; reflexivity|exact Hledger].
Defined.

(** ** A retried key: the catch block of [createOrReplayTransaction] *)

(** The INSERT of the PROCESSING row fails with P2002 exactly when the amount
    passes the CHECK and a row has the new id or the request's key. *)
Lemma transactionCreate_unique_violation (row : Transaction) (db : Database) :
  fst (transactionCreate row db) = Thrown (PrismaClientKnownRequestError "P2002")
  ↔ 0 < tx_amount row
    ∧ ∃ t, t ∈ transactions db
           ∧ (tx_id t = tx_id row ∨ tx_idempotencyKey t = tx_idempotencyKey row).
Proof.
  unfold transactionCreate. case_decide as Hamount.
  - simpl. split; [done|]. intros [? _]. lia.
  - destruct (existsb _ (transactions db)) eqn:Hexists; simpl.
    + split; [intros _|done]. split; [lia|].
      apply existsb_exists in Hexists as (t & Ht%list_elem_of_In & Hsame%bool_decide_eq_true).
      by exists t.
    + split; [done|]. intros (_ & t & Ht & Hsame).
      assert (existsb (λ t, bool_decide (tx_id t = tx_id row
                                         ∨ tx_idempotencyKey t = tx_idempotencyKey row))
                      (transactions db) = true) as Hx.
      { apply existsb_exists. exists t. split; [by apply list_elem_of_In|].
        by apply bool_decide_eq_true. }
      congruence.
Qed.

(** C3 (the code departs from the claim): when the INSERT of the PROCESSING
    row fails with a unique violation, [createOrReplayTransaction] sends its
    [findUnique] on the transaction that PostgreSQL has just aborted, so the
    existing row is never loaded.  Whatever that row holds (another request
    hash, no response yet, or a stored response) the call throws the
    database's refusal: it neither fails with a 409
    IDEMPOTENCY_KEY_REUSED_WITH_DIFFERENT_REQUEST or a 409
    REQUEST_ALREADY_IN_PROGRESS nor returns a replay, and it leaves the tables
    as they were. *)
Theorem createOrReplayTransaction_unique_violation_throws (type : TransactionType)
    (input : WalletMutationRequest) (asset source destination : string)
    (generated : Generated) (db : Database) :
  fst (transactionCreate (processingRow type input asset source destination generated) db)
    = Thrown (PrismaClientKnownRequestError "P2002") →
  let run := createOrReplayTransaction type input asset source destination generated db in
  run = (Thrown (OtherError "25P02"), db)
  ∧ (∀ result, fst run ≠ Returned (Replay result))
  ∧ (∀ status code message, fst run ≠ Thrown (AppError status code message)).
Proof.
  intros Hcreate run.
  assert (run = (Thrown (OtherError "25P02"), db)) as Hrun.
  { subst run. unfold createOrReplayTransaction.
    fold (processingRow type input asset source destination generated).
    destruct (transactionCreate _ db) as [outcome db1] eqn:Hrow.
    simpl in Hcreate. subst outcome.
    assert (db1 = db) as ->.
    { revert Hrow. unfold transactionCreate. repeat case_match; congruence. }
    reflexivity. }
  rewrite Hrun. by split_and!.
Qed.

(** The three rows the claim tells apart, each met by a request with its key:
    the answered bonus of the example database retried with its own
    fingerprint, the same key with another fingerprint, and a row still
    PROCESSING. *)
Lemma createOrReplayTransaction_unique_violation_throws_witness :
  let retry := {| userId := "alice"; assetCode := "GOLD_COINS"; amount := 1000;
                  idempotencyKey := "seed-alice-gold"; requestFingerprint := "9f1a7c04" |} in
  let other := {| userId := "alice"; assetCode := "GOLD_COINS"; amount := 7;
                  idempotencyKey := "seed-alice-gold"; requestFingerprint := "0badc0de" |} in
  let pending := withTransactions seededDatabase
                   (transactions seededDatabase
                    ++ [processingRow SPEND (aliceRequest 10 "key-7") "a-gold"
                          "w-alice-gold" "w-treasury-gold" (drawn "7")]) in
  createOrReplayTransaction BONUS retry "a-gold" "w-treasury-gold" "w-alice-gold"
    (drawn "9") seededDatabase
  = (Thrown (OtherError "25P02"), seededDatabase)
  ∧ createOrReplayTransaction BONUS other "a-gold" "w-treasury-gold" "w-alice-gold"
      (drawn "9") seededDatabase
    = (Thrown (OtherError "25P02"), seededDatabase)
  ∧ createOrReplayTransaction SPEND (aliceRequest 10 "key-7") "a-gold" "w-alice-gold"
      "w-treasury-gold" (drawn "9") pending
    = (Thrown (OtherError "25P02"), pending).
Proof.
  intros retry other pending. split_and!.
  - apply (createOrReplayTransaction_unique_violation_throws BONUS retry "a-gold"
             "w-treasury-gold" "w-alice-gold" (drawn "9") seededDatabase).
    reflexivity.
  - apply (createOrReplayTransaction_unique_violation_throws BONUS other "a-gold"
             "w-treasury-gold" "w-alice-gold" (drawn "9") seededDatabase).
    reflexivity.
  - apply (createOrReplayTransaction_unique_violation_throws SPEND (aliceRequest 10 "key-7")
             "a-gold" "w-alice-gold" "w-treasury-gold" (drawn "9") pending).
    reflexivity.
Defined.

(** The same at the service: a spend that was answered with 200 and is sent
    again with its key and fingerprint, at a time the cache does not hold its
    answer (expired, or Redis was restarted), is not replayed from the
    stored row; the call throws and changes nothing. *)
Lemma executeMutation_retry_without_cache_throws :
  let request := aliceRequest 10 "key-1" in
  let first := @executeMutation rootCollator _ InMemoryLockClient defaultEnv
                 SPEND request (drawn "1") seededWorld in
  let later := {| database := database (snd first);
                  cache := cache seededWorld;
                  lockStore := lockStore (snd first) |} in
  match fst first with
  | Returned result => statusCode result = 200 ∧ replayed result = false
  | Thrown _ => False
  end
  ∧ (∃ t, t ∈ transactions (database later)
          ∧ tx_idempotencyKey t = idempotencyKey request
          ∧ tx_requestHash t = requestFingerprint request
          ∧ tx_status t = POSTED
          ∧ tx_responseCode t = Some 200
          ∧ tx_responseBody t ≠ None)
  ∧ cacheGet (idempotencyKey request) (cache later) = None
  ∧ @executeMutation rootCollator _ InMemoryLockClient defaultEnv
      SPEND request (drawn "2") later
    = (Thrown (OtherError "25P02"), later).
Proof.
  intros request first later. split_and!.
  - vm_compute. done.
  - eexists. split_and!.
    + apply list_elem_of_In. vm_compute. do 2 right. left. reflexivity.
    + reflexivity.
    + reflexivity.
    + reflexivity.
    + reflexivity.
    + done.
  - reflexivity.
  - vm_compute. reflexivity.
Qed.

(** ** The ledger invariants are kept by every mutation *)

Section Invariants.
Context {collator : Collator} {Store : Type} {lockClient : LockClient Store}.
Variable env : Env.

Lemma mutationTransaction_replayed type input context source destination generated
    db result db' :
  mutationTransaction type input context source destination generated db
    = (Returned result, db') →
  replayed result = true → db' = db.
Proof.
  intros Hrun Hreplayed.
  unfold mutationTransaction, txBind at 1 in Hrun.
  destruct (createOrReplayTransaction type input (assetTypeId context) source destination
              generated db) as [[[transactionId createdAt|replay]|error] db1] eqn:Hcreate;
    [| |done].
  - destruct (decide (replayed result = false)) as [Hfalse|_]; [congruence|].
    exfalso. revert Hrun. unfold txBind at 1, lockWallets at 1.
    case_decide; [done|].
    unfold txBind at 1, getWalletBalance at 1.
    destruct (_ <? _).
    + unfold txBind. destruct (transactionUpdate _ _ _) as [[[]|] ?]; [|done].
      unfold txReturn. intros [= <- _]. done.
    + unfold txBind at 1. destruct (ledgerEntryCreateMany _ _) as [[[]|] ?]; [|done].
      unfold txBind at 1. destruct (bumpWalletVersions _ _) as [[[]|] ?]; [|done].
      unfold txBind at 1, getWalletBalance at 1.
      unfold txBind. destruct (transactionUpdate _ _ _) as [[[]|] ?]; [|done].
      unfold txReturn. intros [= <- _]. done.
  - apply createOrReplayTransaction_replay in Hcreate as [_ ->].
    unfold txReturn in Hrun. by injection Hrun as _ <-.
Qed.

(** A mutation that throws, or that replays a stored response, leaves the
    tables as they were. *)
Lemma executeMutation_database type input generated world outcome world' :
  executeMutation env type input generated world = (outcome, world') →
  database world' = database world
  ∨ ∃ result, outcome = Returned result ∧ replayed result = false.
Proof.
  unfold executeMutation.
  destruct (cacheGet (idempotencyKey input) (cache world)) as [cached|].
  { case_decide; intros [= <- <-]; by left. }
  destruct (resolveContext (userId input) (assetCode input) (database world))
    as [context|]; [|intros [= <- <-]; by left].
  destruct (acquireWalletLocks _ _ _ _) as [[[handle|] store1] events];
    [|intros [= <- <-]; by left].
  unfold prismaTransaction.
  destruct (mutationTransaction type input context _ _ generated (database world))
    as [[result|] db1] eqn:Htx; [|intros [= <- <-]; by left].
  intros [= <- <-]. simpl.
  destruct (replayed result) eqn:Hreplayed.
  - left. by apply (mutationTransaction_replayed _ _ _ _ _ _ _ _ _ Htx).
  - right. by exists result.
Qed.

Lemma ledgerForeignKey_extend db rows entries :
  ledgerForeignKey db = true →
  Forall (λ e, ∃ t, t ∈ transactions db ++ rows ∧ tx_id t = entry_transactionId e) entries →
  ∀ db', transactions db' = transactions db ++ rows →
         ledgerEntries db' = ledgerEntries db ++ entries →
         ledgerForeignKey db' = true.
Proof.
  unfold ledgerForeignKey. intros Hfk Hentries db' -> ->.
  rewrite forallb_app. apply andb_true_intro. split.
  - rewrite forallb_forall in Hfk |- *. intros e He. specialize (Hfk e He).
    rewrite existsb_app. by rewrite Hfk.
  - apply forallb_forall. intros e He%list_elem_of_In.
    destruct (proj1 (Forall_forall _ _) Hentries e He) as (t & Ht & Hid).
    apply existsb_exists. exists t. split; [by apply list_elem_of_In|].
    by apply bool_decide_eq_true.
Qed.

(** X5: every mutation keeps the ledger consistent.  If before the call
    the transaction ids are unique, every transaction has exactly the ledger
    entries of its posting (two when it is POSTED, none otherwise), every
    ledger entry belongs to a transaction, and a row has a response code
    exactly when it has a response body, then the same holds after
    [executeMutation], whatever its type and outcome. *)
Theorem executeMutation_keeps_ledger_consistent type input generated world :
  ledgerConsistent (database world) →
  ledgerConsistent (database (snd (executeMutation env type input generated world))).
Proof.
  intros [Hids Hpostings Hfk Hresponses].
  destruct (executeMutation env type input generated world) as [outcome world'] eqn:Hrun.
  simpl.
  destruct (executeMutation_database _ _ _ _ _ _ Hrun) as [->|(result & -> & Hreplayed)];
    [by split|].
  apply executeMutation_fresh in Hrun as (context & _ & _ & Htx); [|done].
  apply mutationTransaction_fresh in Htx
    as (_ & Hfresh & _ & _ & Hcases); [|done].
  set (row := processingRow type input (assetTypeId context)
                (sourceWalletIdOf type context) (destinationWalletIdOf type context)
                generated) in *.
  assert (filter (λ e, entry_transactionId e = tx_id row) (ledgerEntries (database world)) = [])
    as Hnone by (apply ledgerForeignKey_fresh; [done|intros t Ht; by destruct (Hfresh t Ht)]).
  assert (∀ t, t ∈ transactions (database world) → tx_id t ≠ tx_id row) as Hother
    by (intros t Ht; by destruct (Hfresh t Ht)).
  destruct Hcases as [(_ & _ & _ & Hledger & Htxs)|(_ & _ & Hledger & Htxs)].
  - split.
    + rewrite Htxs, map_app. apply NoDup_app. split_and!; [done| |by apply NoDup_singleton].
      intros id Hid Hnew. apply list_elem_of_fmap in Hid as (t & -> & Ht).
      apply list_elem_of_singleton in Hnew. by apply (Hother t Ht).
    + intros t. rewrite Htxs, Hledger. intros [Ht|Hnew]%elem_of_app;
        [|apply list_elem_of_singleton in Hnew as ->].
      * by apply Hpostings.
      * exact Hnone.
    + apply (ledgerForeignKey_extend (database world) _ [] Hfk ltac:(constructor) _ Htxs).
      by rewrite app_nil_r.
    + intros t. rewrite Htxs. intros [Ht|Hnew]%elem_of_app;
        [|apply list_elem_of_singleton in Hnew as ->].
      * by apply Hresponses.
      * done.
  - split.
    + rewrite Htxs, map_app. apply NoDup_app. split_and!; [done| |by apply NoDup_singleton].
      intros id Hid Hnew. apply list_elem_of_fmap in Hid as (t & -> & Ht).
      apply list_elem_of_singleton in Hnew. by apply (Hother t Ht).
    + intros t. rewrite Htxs, Hledger, filter_app.
      intros [Ht|Hnew]%elem_of_app;
        [|apply list_elem_of_singleton in Hnew as ->].
      * rewrite (Hpostings t Ht). rewrite !filter_cons, filter_nil. simpl.
        rewrite !decide_False by (intros Heq; by apply (Hother t Ht)).
        by rewrite app_nil_r.
      * change (tx_id (setResponse POSTED None 200 (body result) row)) with (tx_id row).
        rewrite Hnone. rewrite !filter_cons, filter_nil. simpl.
        by rewrite !decide_True by done.
    + eapply (ledgerForeignKey_extend (database world) _ _ Hfk);
        [|exact Htxs|exact Hledger].
      repeat constructor; eexists; (split; [apply elem_of_app; right; by left|done]).
    + intros t. rewrite Htxs. intros [Ht|Hnew]%elem_of_app;
        [|apply list_elem_of_singleton in Hnew as ->].
      * by apply Hresponses.
      * done.
Qed.
(** The refusal is reached: nothing throws on the way to it. *)
Lemma refusal_is_reached type input generated (world : World Store)
    context handle :
  let source := sourceWalletIdOf type context in
  let destination := destinationWalletIdOf type context in
  cacheGet (idempotencyKey input) (cache world) = None →
  resolveContext (userId input) (assetCode input) (database world) = Returned context →
  fst (fst (acquireWalletLocks env [source; destination] (lockToken generated)
              (lockStore world))) = Returned handle →
  0 < amount input →
  (∀ t, t ∈ transactions (database world) →
        tx_id t ≠ newTransactionId generated
        ∧ tx_idempotencyKey t ≠ idempotencyKey input) →
  length (List.filter (λ w, bool_decide (wallet_id w ∈ sortUniqueWalletIds [source; destination]))
                      (wallets (database world)))
  = length (sortUniqueWalletIds [source; destination]) →
  walletBalance source (assetTypeId context) (database world) < amount input →
  ∃ world',
    executeMutation env type input generated world
    = (Returned {| statusCode := 409; body := insufficientFundsPayload; replayed := false |},
       world').
Proof.
  intros source destination Hcache Hcontext Hlock Hamount Hfresh Hrows Hlow.
  unfold executeMutation. rewrite Hcache, Hcontext. fold source destination.
  destruct (acquireWalletLocks env [source; destination] (lockToken generated)
              (lockStore world)) as [[outcome store1] events].
  simpl in Hlock. subst outcome.
  assert (existsb (λ t, bool_decide (tx_id t = newTransactionId generated
                                     ∨ tx_idempotencyKey t = idempotencyKey input))
                  (transactions (database world)) = false) as Hnone.
  { apply not_true_is_false. intros (t & Ht%list_elem_of_In & Hhit%bool_decide_eq_true)%existsb_exists.
    destruct (Hfresh t Ht). tauto. }
  unfold prismaTransaction, mutationTransaction, txBind, createOrReplayTransaction,
    transactionCreate. simpl.
  rewrite decide_False by lia. rewrite Hnone. simpl.
  unfold lockWallets. simpl.
  rewrite decide_False
    by (intros Hne; apply Hne; by rewrite length_map, arraySort_length).
  unfold getWalletBalance. simpl.
  replace (walletBalance source (assetTypeId context) _)
    with (walletBalance source (assetTypeId context) (database world)) by done.
  destruct (Z.ltb_spec (walletBalance source (assetTypeId context) (database world))
              (amount input)); [|lia].
  unfold transactionUpdate, txReturn. simpl.
  rewrite existsb_app. simpl. rewrite bool_decide_true by done.
  rewrite orb_true_r. eexists. reflexivity.
Qed.

End Invariants.

Lemma seededDatabase_consistent : ledgerConsistent seededDatabase.
Proof.
  split.
  - simpl. repeat (constructor; [set_unfold; intuition discriminate|]). constructor.
  - intros t Ht. set_unfold in Ht. destruct Ht as [->|[->|[]]]; reflexivity.
  - reflexivity.
  - intros t Ht. set_unfold in Ht. destruct Ht as [->|[->|[]]]; done.
Qed.

(** ** Claim C10: the balance query keeps empty wallets *)

Lemma sqlSum_all_null (values : list (option Z)) :
  Forall (λ v, v = None) values → sqlSum values = None.
Proof.
  intros Hnull. unfold sqlSum.
  assert (omap id values = []) as ->; [|done].
  induction Hnull as [|v values -> _ IH]; simpl; [done|]. exact IH.
Qed.

Lemma forallb_pair {A} (f : A → A → bool) (l : list A) x y :
  forallb (λ a, forallb (f a) l) l = true → x ∈ l → y ∈ l → f x y = true.
Proof.
  intros H Hx%list_elem_of_In Hy%list_elem_of_In.
  rewrite forallb_forall in H. specialize (H x Hx).
  rewrite forallb_forall in H. by apply H.
Qed.

(** C10: every wallet the user owns is in the answer of the unfiltered balance
    query: a user wallet without ledger entries for its asset is listed with
    its asset code and name and the balance "0". *)
Theorem getBalance_lists_empty_wallet (db : Database) (userId : string)
    (w : Wallet) (a : AssetType) :
  uniqueUserWalletIndex db = true →
  uniqueAssetCodeIndex db = true →
  userId ∈ users db →
  w ∈ wallets db →
  wallet_ownerType w = USER →
  wallet_userId w = Some userId →
  a ∈ assetTypes db →
  asset_id a = wallet_assetTypeId w →
  (∀ e, e ∈ ledgerEntries db →
        ¬ (entry_walletId e = wallet_id w ∧ entry_assetTypeId e = wallet_assetTypeId w)) →
  ∃ response,
    getBalance userId None db = Returned response
    ∧ {| item_assetCode := asset_code a; item_assetName := asset_name a;
         item_balance := "0" |} ∈ balances response.
Proof.
  intros Hwallets Hassets Huser Hw Howner Hwuser Ha Hasset Hempty.
  unfold getBalance.
  assert (existsb (λ u, bool_decide (u = userId)) (users db) = true) as ->.
  { apply existsb_exists. exists userId. split; [by apply list_elem_of_In|].
    by apply bool_decide_eq_true. }
  simpl. eexists. split; [reflexivity|]. simpl.
  apply (list_elem_of_fmap_2 (λ '(assetCode, assetName, balance),
            {| item_assetCode := assetCode; item_assetName := assetName;
               item_balance := bigintToString balance |})
           _ (asset_code a, asset_name a, 0)).
  unfold userBalanceRows. rewrite arraySort_elem_of.
  (* the rows of the join for [w] *)
  assert (List.filter (λ le, bool_decide (entry_walletId le = wallet_id w
                                          ∧ entry_assetTypeId le = wallet_assetTypeId w))
                      (ledgerEntries db) = []) as Hnone.
  { induction (ledgerEntries db) as [|e entries IH]; [done|]. simpl.
    rewrite bool_decide_eq_false_2 by (apply Hempty; by left).
    apply IH. intros e' He'. apply Hempty. by right. }
  assert ((w, a, None) ∈ balanceJoin userId None db) as Hjoined.
  { unfold balanceJoin. apply list_elem_of_bind. exists w. split.
    - apply list_elem_of_bind. exists a. split.
      + rewrite Hnone. by left.
      + apply list_elem_of_In, filter_In. split; [by apply list_elem_of_In|].
        rewrite andb_true_r. by apply bool_decide_eq_true.
    - apply list_elem_of_In, filter_In. split; [by apply list_elem_of_In|].
      by apply bool_decide_eq_true. }
  (* every row of the group of [a] is a row of [w] without a ledger entry *)
  assert (∀ w' a' le, (w', a', le) ∈ balanceJoin userId None db →
                      (asset_code a', asset_name a') = (asset_code a, asset_name a) →
                      le = None) as Hgroup.
  { intros w' a' le Hin [= Hcode Hname].
    unfold balanceJoin in Hin.
    apply list_elem_of_bind in Hin as (w0 & Hin & Hw0).
    apply list_elem_of_In, filter_In in Hw0 as [Hw0%list_elem_of_In [Hw0o Hw0u]%bool_decide_eq_true].
    apply list_elem_of_bind in Hin as (a0 & Hin & Ha0).
    apply list_elem_of_In, filter_In in Ha0 as [Ha0%list_elem_of_In Ha0id].
    rewrite andb_true_r in Ha0id. apply bool_decide_eq_true in Ha0id.
    assert (wallet_id w0 = wallet_id w ∧ wallet_assetTypeId w0 = wallet_assetTypeId w)
      as [Hid Hsame].
    { assert (a' = a0 ∧ w' = w0) as [-> ->].
      { destruct (List.filter (λ le, bool_decide (entry_walletId le = wallet_id w0 ∧ _))
                             (ledgerEntries db)) as [|e entries].
        - apply list_elem_of_singleton in Hin. by injection Hin as -> -> ->.
        - apply list_elem_of_fmap in Hin as (le' & Heq & _). by injection Heq as -> -> ->. }
      pose proof (forallb_pair _ _ a0 a Hassets Ha0 Ha) as Hidx. simpl in Hidx.
      rewrite (bool_decide_eq_true_2 _ Hcode) in Hidx. simpl in Hidx.
      apply bool_decide_eq_true in Hidx.
      assert (wallet_assetTypeId w0 = wallet_assetTypeId w) as Hsame by congruence.
      split; [|done].
      pose proof (forallb_pair _ _ w0 w Hwallets Hw0 Hw) as Hwidx. simpl in Hwidx.
      rewrite bool_decide_eq_true_2 in Hwidx by (split_and!; congruence).
      simpl in Hwidx. by apply bool_decide_eq_true in Hwidx. }
    rewrite Hid, Hsame, Hnone in Hin.
    apply list_elem_of_singleton in Hin. by injection Hin. }
  apply (list_elem_of_fmap_2' _ _ (asset_code a, asset_name a)).
  - apply elem_of_remove_dups.
    by apply (list_elem_of_fmap_2' (λ '(_, a0, _), (asset_code a0, asset_name a0)) _ (w, a, None)).
  - f_equal. rewrite sqlSum_all_null; [done|].
    apply Forall_forall. intros value Hvalue.
    apply list_elem_of_fmap in Hvalue as ([[w' a'] le] & -> & Hrow).
    apply list_elem_of_In, filter_In in Hrow as [Hrow%list_elem_of_In Hkey%bool_decide_eq_true].
    by rewrite (Hgroup w' a' le Hrow Hkey).
Qed.

(** Alice's diamond wallet has no ledger entry. *)
Lemma getBalance_lists_empty_wallet_witness :
  ∃ response,
    getBalance "alice" None seededDatabase = Returned response
    ∧ {| item_assetCode := "DIAMONDS"; item_assetName := "Diamonds"; item_balance := "0" |}
        ∈ balances response.
Proof.
  apply (getBalance_lists_empty_wallet seededDatabase "alice"
           {| wallet_id := "w-alice-diamond"; wallet_userId := Some "alice";
              wallet_ownerType := USER; wallet_systemCode := None;
              wallet_assetTypeId := "a-diamond"; wallet_version := 0 |}
           {| asset_id := "a-diamond"; asset_code := "DIAMONDS"; asset_name := "Diamonds" |});
    try reflexivity.
  - by left.
  - do 3 right. by left.
  - right. by left.
  - intros e He [Hw _]. set_unfold in He.
    destruct He as [->|[->|[->|[->|[]]]]]; discriminate Hw.
Defined.

(** ** The request fingerprint *)

(** The digest is SHA-256: the test vectors of FIPS 180-4, one and two
    blocks. *)
Example sha256Hex_abc :
  sha256Hex "abc" = "ba7816bf8f01cfea414140de5dae2223b00361a396177a9cb410ff61f20015ad".
Proof. vm_compute. reflexivity. Qed.

Example sha256Hex_two_blocks :
  sha256Hex "abcdbcdecdefdefgefghfghighijhijkijkljklmklmnlmnomnopnopq"
  = "248d6a61d20638b8e5c026930c3e6039a33ce45964ff2167f6ecedd419db06c1".
Proof. vm_compute. reflexivity. Qed.

(** *** Strings *)

Lemma append_cons (x : ascii) (a b : string) : String x a +:+ b = String x (a +:+ b).
Proof. reflexivity. Qed.

Lemma append_nil_l (b : string) : "" +:+ b = b.
Proof. reflexivity. Qed.

Lemma append_assoc (a b c : string) : (a +:+ b) +:+ c = a +:+ (b +:+ c).
Proof. induction a as [|x a IH]; rewrite ?append_cons, ?append_nil_l; [done|]. by f_equal. Qed.

Lemma append_nil_r (a : string) : a +:+ "" = a.
Proof. induction a as [|x a IH]; rewrite ?append_cons, ?append_nil_l; [done|]. by f_equal. Qed.

Lemma append_inv_head (a x y : string) : a +:+ x = a +:+ y → x = y.
Proof.
  induction a as [|c a IH]; rewrite ?append_cons, ?append_nil_l; [done|].
  intros [= H]. auto.
Qed.

Lemma length_append (a b : string) :
  String.length (a +:+ b) = (String.length a + String.length b)%nat.
Proof.
  induction a as [|x a IH]; rewrite ?append_cons, ?append_nil_l; [done|].
  simpl. by rewrite IH.
Qed.

(** The length of a joined array does not depend on the order of its parts. *)
Lemma join_length (separator : string) (parts : list string) :
  (String.length (join separator parts) + String.length separator
   = foldr (λ p n, String.length p + String.length separator + n) 0 parts
     + (if decide (parts = []) then String.length separator else 0))%nat.
Proof.
  induction parts as [|p [|q parts] IH].
  - simpl. lia.
  - simpl. lia.
  - change (join separator (p :: q :: parts))
      with (p +:+ separator +:+ join separator (q :: parts)).
    rewrite !length_append. rewrite decide_False by done.
    rewrite decide_False in IH by done. simpl foldr in *. lia.
Qed.

Lemma join_length_Permutation (separator : string) (l1 l2 : list string) :
  l1 ≡ₚ l2 → String.length (join separator l1) = String.length (join separator l2).
Proof.
  intros Hperm.
  assert (foldr (λ p n, String.length p + String.length separator + n)%nat 0%nat l1
          = foldr (λ p n, String.length p + String.length separator + n)%nat 0%nat l2) as Hsum.
  { induction Hperm; simpl; lia. }
  pose proof (join_length separator l1) as H1.
  pose proof (join_length separator l2) as H2.
  assert ((l1 = [] ↔ l2 = [])) as Hnil.
  { split; intros ->; [by apply Permutation_nil_l in Hperm|by apply Permutation_nil_r in Hperm]. }
  repeat case_decide; try tauto; lia.
Qed.

(** *** The amount as a number and as a string *)

Section AmountEncodings.
Context {collator : Collator}.

(** The canonical string of an object, from the sorted properties. *)
Lemma stableStringify_object (props : list (string * Json)) :
  stableStringify (JObj props)
  = "{" +:+ join "," (map (λ '(key, value), quoteJSONString key +:+ ":" +:+ stableStringify value)
                         (arraySort (λ left right, localeCompare (fst left) (fst right)) props))
        +:+ "}".
Proof.
  simpl. f_equal.
  rewrite (arraySort_map localeCompare fst fst
             (λ '(key, value), (key, stableStringify value)) props)
    by (by intros []).
  rewrite map_map. do 2 f_equal. apply map_ext. by intros [].
Qed.

Lemma stableStringify_amount_length (before after : list (string * Json)) :
  String.length (stableStringify (bodyWithAmount before after (JStr "1")))
  = S (S (String.length (stableStringify (bodyWithAmount before after (JNum (NumInt 1)))))).
Proof.
  unfold bodyWithAmount. rewrite !stableStringify_object.
  set (render := λ '(key, value), quoteJSONString key +:+ ":" +:+ stableStringify value).
  set (byKey := λ left right : string * Json, localeCompare (fst left) (fst right)).
  simpl String.length. rewrite !length_append. simpl String.length.
  rewrite (join_length_Permutation "," _
             (render ("amount", JStr "1") :: map render (before ++ after))).
  2:{ rewrite arraySort_Permutation. rewrite !map_app. simpl.
      by rewrite Permutation_middle. }
  rewrite (join_length_Permutation "," (map render (arraySort byKey _))
             (render ("amount", JNum (NumInt 1)) :: map render (before ++ after))).
  2:{ rewrite arraySort_Permutation. rewrite !map_app. simpl.
      by rewrite Permutation_middle. }
  pose proof (join_length "," (render ("amount", JStr "1") :: map render (before ++ after))) as H1.
  pose proof (join_length "," (render ("amount", JNum (NumInt 1)) :: map render (before ++ after)))
    as H2.
  rewrite decide_False in H1 by done. rewrite decide_False in H2 by done.
  simpl foldr in H1, H2.
  change (String.length (render ("amount", JStr "1")))
    with (S (S (String.length (render ("amount", JNum (NumInt 1)))))) in H1.
  lia.
Qed.

(** X23: the fingerprint is taken from the body as it was decoded, before
    the schema turns the amount into a big integer.  For every method, path
    and surrounding properties, the string that is hashed for the body with
    the amount written as the number 1 differs from the one for the body with
    the amount written as the string "1" (it is two characters shorter); and
    on a miss of the cache [requireIdempotency] hands on the SHA-256 digest of
    the string built from the method, the path without its query and the raw
    body. *)
Theorem requireIdempotency_fingerprints_raw_body (request : Request)
    (before after : list (string * Json)) :
  let path := getPathWithoutQuery (originalUrl request) in
  let asNumber := bodyWithAmount before after (JNum (NumInt 1)) in
  let asString := bodyWithAmount before after (JStr "1") in
  fingerprintMaterial (method request) path asNumber
    ≠ fingerprintMaterial (method request) path asString
  ∧ String.length (fingerprintMaterial (method request) path asString)
    = S (S (String.length (fingerprintMaterial (method request) path asNumber)))
  ∧ ∀ cache key rawBody,
      idempotencyKeyHeader request = Some key → key ≠ "" →
      requestBody request = Some rawBody →
      cacheGet key cache = None →
      requireIdempotency request cache
      = Returned (GateNext key
                    (sha256Hex (toUpperCase (method request) +:+ "|" +:+ path +:+ "|"
                                +:+ stableStringify rawBody))).
Proof.
  intros path asNumber asString.
  assert (String.length (fingerprintMaterial (method request) path asString)
          = S (S (String.length (fingerprintMaterial (method request) path asNumber))))
    as Hlength.
  { unfold fingerprintMaterial. rewrite !length_append.
    subst asNumber asString. rewrite stableStringify_amount_length. lia. }
  split_and!; [|done|].
  - intros Heq. rewrite Heq in Hlength. lia.
  - intros cache key rawBody Hkey Hnonempty Hbody Hmiss.
    unfold requireIdempotency. rewrite Hkey, Hbody, Hmiss.
    by destruct key.
Qed.
End AmountEncodings.

(** A spend with the amount written [1] and ["1"], sent with the same key:
    the two fingerprints the middleware hands on; and once the answer to the
    first is cached, the second is refused as another request. *)
Lemma requireIdempotency_fingerprints_raw_body_witness :
  let request body := {| method := "POST"; originalUrl := "/wallet/spend?trace=1";
                         idempotencyKeyHeader := Some "key-1";
                         requestBody := Some body |} in
  let cache := {| redisReachable := true; cachedResponses := ∅ |} in
  let answered :=
    cacheSet "key-1"
      {| cachedRequestFingerprint :=
           "7bb4d1ad1d4de9c64768a030b1c6da55b9f72766813719d497f1e28e51bd9d6e";
         cachedStatusCode := 200; cachedBody := JObj [] |} cache in
  @requireIdempotency rootCollator (request (spendBody (JNum (NumInt 1)))) cache
  = Returned (GateNext "key-1"
                "7bb4d1ad1d4de9c64768a030b1c6da55b9f72766813719d497f1e28e51bd9d6e")
  ∧ @requireIdempotency rootCollator (request (spendBody (JStr "1"))) cache
    = Returned (GateNext "key-1"
                  "e5095f935c55a9a115b7fc73c0560aa03e1c1a144f356dc99f621eeb593b2e3b")
  ∧ @requireIdempotency rootCollator (request (spendBody (JStr "1"))) answered
    = Thrown (AppError 409 "IDEMPOTENCY_KEY_REUSED_WITH_DIFFERENT_REQUEST"
                "Idempotency-Key has already been used with a different request payload").
Proof.
  intros request cache answered. split_and!; [| |by vm_compute].
  - destruct (@requireIdempotency_fingerprints_raw_body rootCollator
                (request (spendBody (JNum (NumInt 1)))) [] []) as (_ & _ & Hgate).
    rewrite (Hgate cache "key-1" (spendBody (JNum (NumInt 1))));
      [|reflexivity|discriminate|reflexivity|reflexivity].
    vm_compute. reflexivity.
  - destruct (@requireIdempotency_fingerprints_raw_body rootCollator
                (request (spendBody (JStr "1"))) [] []) as (_ & _ & Hgate).
    rewrite (Hgate cache "key-1" (spendBody (JStr "1")));
      [|reflexivity|discriminate|reflexivity|reflexivity].
    vm_compute. reflexivity.
Defined.

(** ** Claim C4: the canonical string and structural equality *)

(** Induction on JSON values, with the hypothesis for every item of an array
    and every property value of an object. *)
Lemma Json_forall_ind (P : Json → Prop) :
  P JNull →
  (∀ b, P (JBool b)) →
  (∀ n, P (JNum n)) →
  (∀ s, P (JStr s)) →
  (∀ items, Forall P items → P (JArr items)) →
  (∀ props, Forall (λ prop, P (snd prop)) props → P (JObj props)) →
  ∀ value, P value.
Proof.
  intros Hnull Hbool Hnum Hstr Harr Hobj.
  fix IH 1. intros [ |b|n|s|items|props].
  - exact Hnull.
  - apply Hbool.
  - apply Hnum.
  - apply Hstr.
  - apply Harr. induction items as [|item items IHitems]; constructor; [apply IH|exact IHitems].
  - apply Hobj. induction props as [|[key item] props IHprops]; constructor;
      [apply IH|exact IHprops].
Qed.

(** *** Decimal integers *)

Lemma string_of_uint_number (d : Decimal.uint) :
  isNumberString (NilEmpty.string_of_uint d) = true.
Proof. induction d; simpl; auto. Qed.

Lemma bigintToString_number (z : Z) : isNumberString (bigintToString z) = true.
Proof.
  unfold bigintToString, NilZero.string_of_int, NilZero.string_of_uint.
  destruct (Z.to_int z) as [d|d]; destruct d; simpl; auto using string_of_uint_number.
Qed.

Lemma bigintToString_nonempty (z : Z) : bigintToString z ≠ "".
Proof.
  unfold bigintToString, NilZero.string_of_int, NilZero.string_of_uint.
  destruct (Z.to_int z) as [d|d]; destruct d; simpl; done.
Qed.

Lemma to_int_not_nil (z : Z) : Z.to_int z ≠ Pos Nil ∧ Z.to_int z ≠ Neg Nil.
Proof.
  destruct z as [|p|p]; simpl; split; try done.
  - unfold Z.to_int. simpl. intros [= H]. by apply DecimalPos.Unsigned.to_uint_nonnil in H.
  - intros [= H]. by apply DecimalPos.Unsigned.to_uint_nonnil in H.
Qed.

Lemma bigintToString_inj (z1 z2 : Z) : bigintToString z1 = bigintToString z2 → z1 = z2.
Proof.
  unfold bigintToString. intros Heq.
  apply DecimalZ.to_int_inj.
  destruct (to_int_not_nil z1) as [Hp1 Hn1], (to_int_not_nil z2) as [Hp2 Hn2].
  assert (Some (Z.to_int z1) = Some (Z.to_int z2)) as [= Hint]; [|done].
  rewrite <- (NilZero.isi (Z.to_int z1)), <- (NilZero.isi (Z.to_int z2)) by done.
  by rewrite Heq.
Qed.

Lemma number_span (d1 d2 r1 r2 : string) :
  isNumberString d1 = true → isNumberString d2 = true →
  isDelimited r1 = true → isDelimited r2 = true →
  d1 +:+ r1 = d2 +:+ r2 → d1 = d2 ∧ r1 = r2.
Proof.
  assert (∀ c r d, isNumberChar c = true → isDelimited r = true →
                   r ≠ String c d) as Hclash.
  { intros c r d Hc Hr ->. simpl in Hr. revert Hc Hr.
    unfold isNumberChar, isAsciiDigit. generalize (N_of_ascii c). intros n.
    repeat match goal with
           | |- context [N.eqb ?a ?b] => destruct (N.eqb_spec a b)
           | |- context [N.leb ?a ?b] => destruct (N.leb_spec a b)
           end; simpl; try discriminate; lia. }
  revert d2. induction d1 as [|c1 d1 IH]; intros [|c2 d2]; simpl;
    rewrite ?append_cons, ?append_nil_l.
  - done.
  - intros _ [Hc _]%andb_prop Hr1 _ Heq. by destruct (Hclash c2 r1 (d2 +:+ r2) Hc Hr1).
  - intros [Hc _]%andb_prop _ _ Hr2 Heq. by destruct (Hclash c1 r2 (d1 +:+ r1) Hc Hr2).
  - intros [_ H1]%andb_prop [_ H2]%andb_prop Hr1 Hr2 [= -> Heq].
    destruct (IH d2 H1 H2 Hr1 Hr2 Heq) as [-> ->]. done.
Qed.

(** *** Quoted strings *)

Lemma append_eq_prefix (a b x y : string) :
  a +:+ x = b +:+ y → String.prefix a b = true ∨ String.prefix b a = true.
Proof.
  revert b. induction a as [|c a IH]; intros [|d b]; rewrite ?append_cons, ?append_nil_l;
    simpl; auto.
  intros [= -> Heq]. destruct (ascii_dec d d); [|done]. by apply IH.
Qed.

(** No escape is the beginning of another one. *)
Lemma escapeChar_prefix_free (c1 c2 : ascii) (x y : string) :
  escapeChar c1 +:+ x = escapeChar c2 +:+ y → c1 = c2.
Proof.
  intros Heq.
  assert (forallb
            (λ a, forallb (λ b, implb (String.prefix (escapeChar a) (escapeChar b))
                                  (Ascii.eqb a b))
                          (map ascii_of_nat (seq 0 256)))
            (map ascii_of_nat (seq 0 256)) = true) as Hall
    by (vm_compute; reflexivity).
  destruct (append_eq_prefix _ _ _ _ Heq) as [Hprefix|Hprefix].
  - pose proof (forall_ascii _ (forall_ascii _ Hall c1) c2) as Hpair. simpl in Hpair.
    rewrite Hprefix in Hpair. by apply Ascii.eqb_eq in Hpair.
  - pose proof (forall_ascii _ (forall_ascii _ Hall c2) c1) as Hpair. simpl in Hpair.
    rewrite Hprefix in Hpair. by apply Ascii.eqb_eq in Hpair.
Qed.

(** An escape is not empty and does not begin with the quotation mark. *)
Lemma escapeChar_head (c : ascii) :
  ∃ h t, escapeChar c = String h t ∧ h ≠ doubleQuote.
Proof.
  assert (forallb (λ a, match escapeChar a with
                        | EmptyString => false
                        | String h _ => negb (Ascii.eqb h doubleQuote)
                        end)
                  (map ascii_of_nat (seq 0 256)) = true) as Hall
    by (vm_compute; reflexivity).
  pose proof (forall_ascii _ Hall c) as Hc. simpl in Hc.
  destruct (escapeChar c) as [|h t]; [done|].
  exists h, t. split; [done|]. intros ->. by rewrite Ascii.eqb_refl in Hc.
Qed.

Lemma escapeString_decode (s1 s2 r1 r2 : string) :
  escapeString s1 +:+ String doubleQuote r1 = escapeString s2 +:+ String doubleQuote r2 →
  s1 = s2 ∧ r1 = r2.
Proof.
  revert s2. induction s1 as [|c1 s1 IH]; intros [|c2 s2]; simpl escapeString;
    rewrite ?append_nil_l, ?append_assoc.
  - by intros [= ->].
  - destruct (escapeChar_head c2) as (h & t & -> & Hh).
    rewrite append_cons. intros [= Heq _]. congruence.
  - destruct (escapeChar_head c1) as (h & t & -> & Hh).
    rewrite append_cons. intros [= Heq _]. congruence.
  - intros Heq. pose proof (escapeChar_prefix_free _ _ _ _ Heq) as ->.
    apply append_inv_head in Heq. destruct (IH s2 Heq) as [-> ->]. done.
Qed.

Lemma quoteJSONString_append (s r : string) :
  quoteJSONString s +:+ r = String doubleQuote (escapeString s +:+ String doubleQuote r).
Proof.
  unfold quoteJSONString. by rewrite append_cons, append_assoc, append_cons, append_nil_l.
Qed.

Lemma quoteJSONString_decode (s1 s2 r1 r2 : string) :
  quoteJSONString s1 +:+ r1 = quoteJSONString s2 +:+ r2 → s1 = s2 ∧ r1 = r2.
Proof.
  rewrite !quoteJSONString_append. intros [= Heq]. by apply escapeString_decode.
Qed.

(** *** Joined arrays *)

Lemma join_append (separator : string) (parts : list string) (rest : string) :
  join separator parts +:+ rest
  = match parts with
    | [] => rest
    | part :: parts' => part +:+ afterFirst separator parts' rest
    end.
Proof.
  destruct parts as [|part parts]; [done|].
  revert part. induction parts as [|next parts IH]; intros part.
  - done.
  - change (join separator (part :: next :: parts))
      with (part +:+ separator +:+ join separator (next :: parts)).
    rewrite !append_assoc. rewrite IH. done.
Qed.

Section Elements.
Context {A : Type} (print : A → string) (related : A → A → Prop) (good : A → Prop).
Variable close : ascii.
Hypothesis close_delimits : isDelimited (String close "") = true.
Hypothesis close_not_comma : close ≠ ","%char.
Hypothesis print_head :
  ∀ a, good a → ∃ c rest, print a = String c rest ∧ c ≠ close ∧ c ≠ ","%char.

Lemma afterFirst_delimited (parts : list string) (rest : string) :
  isDelimited (afterFirst "," parts (String close rest)) = true.
Proof. destruct parts; [exact close_delimits|reflexivity]. Qed.

Lemma afterFirst_decode (l1 l2 : list A) (r1 r2 : string) :
  Forall (decodes print related good) l1 → Forall good l2 →
  afterFirst "," (map print l1) (String close r1)
  = afterFirst "," (map print l2) (String close r2) →
  Forall2 related l1 l2 ∧ r1 = r2.
Proof.
  intros Hl1. revert l2. induction Hl1 as [|a l1 Ha Hl1 IH]; intros [|b l2] Hl2; simpl.
  - by intros [= ->].
  - rewrite append_cons. intros [= Hclose _]. done.
  - rewrite append_cons. intros [= Hclose _]. done.
  - apply Forall_cons in Hl2 as [Hb Hl2].
    rewrite !append_cons, !append_nil_l. intros [= Heq].
    destruct (Ha b _ _ Hb (afterFirst_delimited _ _) (afterFirst_delimited _ _) Heq)
      as [Hab Hrest].
    destruct (IH l2 Hl2 Hrest) as [Hrelated ->]. split; [by constructor|done].
Qed.

Lemma join_decode (l1 l2 : list A) (r1 r2 : string) :
  Forall (decodes print related good) l1 → Forall good l1 → Forall good l2 →
  join "," (map print l1) +:+ String close r1
  = join "," (map print l2) +:+ String close r2 →
  Forall2 related l1 l2 ∧ r1 = r2.
Proof.
  rewrite !join_append.
  intros Hl1 Hg1 Hg2. destruct l1 as [|a l1], l2 as [|b l2]; simpl.
  - by intros [= ->].
  - apply Forall_cons in Hg2 as [Hb _].
    destruct (print_head b Hb) as (c & rest & -> & Hc & _).
    rewrite append_cons. intros [= Heq _]. congruence.
  - apply Forall_cons in Hg1 as [Ha _].
    destruct (print_head a Ha) as (c & rest & -> & Hc & _).
    rewrite append_cons. intros [= Heq _]. congruence.
  - apply Forall_cons in Hl1 as [Ha Hl1]. apply Forall_cons in Hg2 as [Hb Hg2].
    intros Heq.
    destruct (Ha b _ _ Hb (afterFirst_delimited _ _) (afterFirst_delimited _ _) Heq)
      as [Hab Hrest].
    destruct (afterFirst_decode l1 l2 r1 r2 Hl1 Hg2 Hrest) as [Hrelated ->].
    split; [by constructor|done].
Qed.
End Elements.

(** *** The canonical string determines the value *)

Lemma kindOfChar_number (c : ascii) : isNumberChar c = true → kindOfChar c = KindNumber.
Proof.
  intros Hc.
  assert (forallb (λ a, implb (isNumberChar a)
                          match kindOfChar a with KindNumber => true | _ => false end)
                  (map ascii_of_nat (seq 0 256)) = true) as Hall
    by (vm_compute; reflexivity).
  pose proof (forall_ascii _ Hall c) as H. simpl in H. rewrite Hc in H. simpl in H.
  by destruct (kindOfChar c).
Qed.

Section Canonical.
Context {collator : Collator}.

Lemma stableStringify_head (value : Json) :
  finiteNumbers value = true →
  ∃ c rest, stableStringify value = String c rest ∧ kindOfChar c = kindOf value.
Proof.
  destruct value as [ |[|]|[z|negative]|s|items|props]; intros Hfinite; try done.
  - by exists "n"%char, "ull".
  - by exists "t"%char, "rue".
  - by exists "f"%char, "alse".
  - simpl. pose proof (bigintToString_number z) as Hnumber.
    pose proof (bigintToString_nonempty z) as Hnonempty.
    destruct (bigintToString z) as [|c rest]; [done|].
    exists c, rest. split; [done|].
    apply andb_prop in Hnumber as [Hc _]. by apply kindOfChar_number.
  - simpl. unfold quoteJSONString. by eexists _, _.
  - simpl. rewrite append_cons. by eexists _, _.
  - simpl. rewrite append_cons. by eexists _, _.
Qed.

Lemma stableStringify_head_not (value : Json) (c : ascii) (rest : string) :
  finiteNumbers value = true → stableStringify value = String c rest →
  kindOfChar c ≠ KindNone.
Proof.
  intros Hfinite Heq. destruct (stableStringify_head value Hfinite) as (c' & rest' & Heq' & Hkind).
  rewrite Heq in Heq'. injection Heq' as -> _. rewrite Hkind. by destruct value as [ |[|]| | | | ].
Qed.

Lemma stableStringify_same_kind (x y : Json) (r1 r2 : string) :
  finiteNumbers x = true → finiteNumbers y = true →
  stableStringify x +:+ r1 = stableStringify y +:+ r2 → kindOf x = kindOf y.
Proof.
  intros Hx Hy.
  destruct (stableStringify_head x Hx) as (c1 & rest1 & -> & <-).
  destruct (stableStringify_head y Hy) as (c2 & rest2 & -> & <-).
  rewrite !append_cons. by intros [= -> _].
Qed.

Lemma stableStringify_decodes (x : Json) :
  finiteNumbers x = true →
  decodes stableStringify jsonEquivalent (λ y, finiteNumbers y = true) x.
Proof.
  induction x as [ |b1|n1|s1|items1 IH|props1 IH] using Json_forall_ind;
    intros Hx y r1 r2 Hy Hr1 Hr2 Heq;
    pose proof (stableStringify_same_kind _ _ _ _ Hx Hy Heq) as Hkind.
  - destruct y as [ |[|]| | | | ]; try done.
    apply append_inv_head in Heq. split; [constructor|done].
  - destruct b1, y as [ |[|]| | | | ]; try done;
      apply append_inv_head in Heq; (split; [constructor|done]).
  - destruct y as [ |[|]|n2| | | ]; try done.
    destruct n1 as [z1|], n2 as [z2|]; try done. simpl in Heq.
    destruct (number_span _ _ _ _ (bigintToString_number z1) (bigintToString_number z2)
                Hr1 Hr2 Heq) as [Hz ->].
    apply bigintToString_inj in Hz as ->. split; [constructor|done].
  - destruct y as [ |[|]| |s2| | ]; try done. simpl in Heq.
    apply quoteJSONString_decode in Heq as [-> ->]. split; [constructor|done].
  - destruct y as [ |[|]| | |items2| ]; try done. simpl in Heq, Hx, Hy.
    rewrite !append_assoc, !append_cons, !append_nil_l in Heq. injection Heq as Heq.
    rewrite forallb_forall in Hx, Hy.
    assert (∀ a, finiteNumbers a = true →
                 ∃ c rest, stableStringify a = String c rest
                           ∧ c ≠ "]"%char ∧ c ≠ ","%char) as Hhead.
    { intros a Ha. destruct (stableStringify_head a Ha) as (c & rest & Hc & Hk).
      exists c, rest. split; [done|].
      pose proof (stableStringify_head_not a c rest Ha Hc) as Hnone.
      split; intros ->; by apply Hnone. }
    destruct (join_decode stableStringify jsonEquivalent (λ y, finiteNumbers y = true)
                "]"%char eq_refl ltac:(done) Hhead items1 items2 r1 r2) as [Hitems ->].
    + apply Forall_forall. intros a Ha.
      apply (proj1 (Forall_forall _ _) IH a Ha), Hx. by apply list_elem_of_In.
    + apply Forall_forall. intros a Ha. apply Hx. by apply list_elem_of_In.
    + apply Forall_forall. intros a Ha. apply Hy. by apply list_elem_of_In.
    + exact Heq.
    + split; [by constructor|done].
  - destruct y as [ |[|]| | | |props2]; try done.
    rewrite !stableStringify_object in Heq. simpl in Hx, Hy.
    rewrite !append_assoc, !append_cons, !append_nil_l in Heq. injection Heq as Heq.
    rewrite forallb_forall in Hx, Hy.
    set (byKey := λ left right : string * Json, localeCompare (fst left) (fst right)) in *.
    assert (∀ prop : string * Json, finiteNumbers (snd prop) = true →
                 ∃ c rest, (let '(key, value) := prop in
                            quoteJSONString key +:+ ":" +:+ stableStringify value)
                           = String c rest ∧ c ≠ "}"%char ∧ c ≠ ","%char) as Hhead.
    { intros [key value] _. unfold quoteJSONString. rewrite append_cons.
      by eexists _, _. }
    destruct (join_decode
                (λ '(key, value), quoteJSONString key +:+ ":" +:+ stableStringify value)
                (λ left right, fst left = fst right ∧ jsonEquivalent (snd left) (snd right))
                (λ prop, finiteNumbers (snd prop) = true)
                "}"%char eq_refl ltac:(done) Hhead
                (arraySort byKey props1) (arraySort byKey props2) r1 r2) as [Hprops ->].
    + apply Forall_forall. intros [key value] Hin. rewrite arraySort_elem_of in Hin.
      intros [key' value'] t1 t2 Hgood Ht1 Ht2 Hprint. simpl in Hgood.
      rewrite !append_assoc in Hprint.
      apply quoteJSONString_decode in Hprint as [-> Hprint].
      rewrite !append_cons, !append_nil_l in Hprint. injection Hprint as Hprint.
      pose proof (proj1 (Forall_forall _ _) IH (key', value) Hin) as IHvalue.
      simpl in IHvalue.
      destruct (IHvalue (Hx (key', value) (proj1 (list_elem_of_In _ _) Hin))
                  value' t1 t2 Hgood Ht1 Ht2 Hprint) as [Hvalue ->].
      done.
    + apply Forall_forall. intros [key value] Hin. rewrite arraySort_elem_of in Hin.
      apply (Hx (key, value)). by apply list_elem_of_In.
    + apply Forall_forall. intros [key value] Hin. rewrite arraySort_elem_of in Hin.
      apply (Hy (key, value)). by apply list_elem_of_In.
    + exact Heq.
    + split; [|done].
      apply (equivalent_object _ _ (arraySort byKey props1) (arraySort byKey props2));
        [symmetry; apply arraySort_Permutation..|done].
Qed.

(** Two finite values with the same canonical string are structurally equal. *)
Lemma stableStringify_inj (x y : Json) :
  finiteNumbers x = true → finiteNumbers y = true →
  stableStringify x = stableStringify y → jsonEquivalent x y.
Proof.
  intros Hx Hy Heq.
  apply (stableStringify_decodes x Hx y "" "" Hy eq_refl eq_refl).
  by rewrite Heq.
Qed.
End Canonical.

(** *** Structurally equal values have the same canonical string *)

Lemma jsonEquivalent_refl (x : Json) : jsonEquivalent x x.
Proof.
  induction x as [ |b|n|s|items IH|props IH] using Json_forall_ind; try constructor.
  - induction IH; by constructor.
  - apply (equivalent_object _ _ props props); [done..|].
    induction IH; by constructor.
Qed.

Section Reordering.
Context {collator : Collator} {laws : CollatorLaws collator}.

Lemma pairwiseDistinguished_eq (props : list (string * Json)) (a b : string * Json) :
  pairwiseDistinguished (map fst props) = true →
  a ∈ props → b ∈ props → localeCompare (fst a) (fst b) = 0 → a = b.
Proof.
  induction props as [|p props IH]; simpl; [by intros _ ?%elem_of_nil|].
  intros [Hhead Htail]%andb_prop Ha Hb Hzero.
  rewrite forallb_forall in Hhead.
  assert (∀ c, c ∈ props → localeCompare (fst p) (fst c) ≠ 0) as Hp.
  { intros c Hc Hpc. specialize (Hhead (fst c)).
    rewrite Hpc in Hhead. simpl in Hhead.
    assert (false = true) as Habsurd; [|done].
    apply Hhead, in_map. by apply list_elem_of_In. }
  apply elem_of_cons in Ha as [->|Ha], Hb as [->|Hb].
  - done.
  - by destruct (Hp b Hb).
  - apply localeCompare_zero_sym in Hzero. by destruct (Hp a Ha).
  - by apply IH.
Qed.

Lemma stableStringify_equivalent (x : Json) :
  keysDistinguished x = true →
  ∀ y, jsonEquivalent x y → stableStringify x = stableStringify y.
Proof.
  induction x as [ |b1|n1|s1|items1 IH|props1 IH] using Json_forall_ind;
    intros Hx y Hxy; inversion Hxy as [ | | | |? items2 Hitems|? props2 ordered1 ordered2 H1 H2 Hprops];
    subst; try done.
  - simpl. do 3 f_equal. simpl in Hx. rewrite forallb_forall in Hx. clear Hxy.
    induction Hitems as [|a b l1 l2 Hab Hl IHl]; [done|]. simpl.
    apply Forall_cons in IH as [IHa IH].
    rewrite (IHa (Hx a ltac:(by left)) b Hab). f_equal.
    apply IHl; [done|]. intros c Hc. apply Hx. by right.
  - clear Hxy. simpl. simpl in Hx. apply andb_prop in Hx as [Hkeys Hvalues].
    rewrite forallb_forall in Hvalues.
    set (entry := λ '(key, value), (key, stableStringify value)).
    set (byKey := λ left right : string * string, localeCompare (fst left) (fst right)).
    assert (map entry ordered1 = map entry ordered2) as Hentries.
    { assert (Forall (λ prop, keysDistinguished (snd prop) = true
                              ∧ ∀ y, keysDistinguished (snd prop) = true →
                                     jsonEquivalent (snd prop) y →
                                     stableStringify (snd prop) = stableStringify y)
                     ordered1) as Hordered.
      { rewrite <- H1. apply Forall_forall. intros [key value] Hin. split.
        - apply (Hvalues (key, value)). by apply list_elem_of_In.
        - intros y Hy. by apply (proj1 (Forall_forall _ _) IH (key, value) Hin). }
      clear H1 H2. induction Hprops as [|[k1 v1] [k2 v2] l1 l2 [Hk Hv] Hl IHl]; [done|].
      apply Forall_cons in Hordered as [[Hd Hs] Hordered]. simpl in *. subst k2.
      rewrite (Hs v2 Hd Hv). f_equal. by apply IHl. }
    do 4 f_equal.
    apply arraySort_canonical.
    + intros a b. apply localeCompare_total.
    + intros a b c. apply localeCompare_trans.
    + rewrite H1, H2, Hentries. done.
    + intros a b Ha Hb Hab Hba.
      apply list_elem_of_fmap in Ha as (a0 & -> & Ha0).
      apply list_elem_of_fmap in Hb as (b0 & -> & Hb0).
      assert (localeCompare (fst a0) (fst b0) = 0) as Hzero.
      { destruct a0, b0. unfold byKey in Hab, Hba. simpl in *.
        pose proof (localeCompare_flip s s0). lia. }
      by rewrite (pairwiseDistinguished_eq props1 a0 b0 Hkeys Ha0 Hb0 Hzero).
Qed.
End Reordering.

(** C4 (the code departs from the claim): a number beyond the range of a
    double is decoded as [Infinity], which [JSON.stringify] serializes as
    [null], so the body [{"amount": 1e999}] has the canonical string, and with
    it the fingerprint, of the body [{"amount": null}], although the two
    bodies are not structurally equal. *)
Theorem fingerprint_collision_counterexample :
  numberToJSON (NumInfinity false) = "null"
  ∧ @stableStringify rootCollator overflowingAmountBody
    = @stableStringify rootCollator nullAmountBody
  ∧ @buildRequestFingerprint rootCollator "POST" "/wallet/topup" overflowingAmountBody
    = @buildRequestFingerprint rootCollator "POST" "/wallet/topup" nullAmountBody
  ∧ ¬ jsonEquivalent overflowingAmountBody nullAmountBody.
Proof.
  split_and!; [reflexivity|by vm_compute| |].
  { unfold buildRequestFingerprint. f_equal. }
  intros Hequivalent.
  inversion Hequivalent as [ | | | | |? ? ordered1 ordered2 H1 H2 Hprops]; subst.
  apply Permutation_singleton_l in H1. apply Permutation_singleton_l in H2. subst.
  apply Forall2_cons in Hprops as [[_ Hvalue] _]. inversion Hvalue.
Qed.

Lemma safeIntegers_finiteNumbers (x : Json) :
  safeIntegers x = true → finiteNumbers x = true.
Proof.
  induction x as [ |b|n|s|items IH|props IH] using Json_forall_ind; simpl; try done.
  - by destruct n.
  - rewrite !forallb_forall. intros Hitems item Hitem.
    apply (proj1 (Forall_forall _ _) IH item); [by apply list_elem_of_In|].
    by apply Hitems.
  - rewrite !forallb_forall. intros Hprops [key item] Hprop.
    apply (proj1 (Forall_forall _ _) IH (key, item)); [by apply list_elem_of_In|].
    by apply (Hprops (key, item)).
Qed.

(** X24: the canonical string decides structural equality where the numbers
    are plain.  For every method and path and all bodies [x] and [y] whose
    numbers are integers of magnitude at most 2^53 - 1, and when
    [localeCompare] tells the keys of each object of [x] apart: the strings
    that are hashed are equal if and only if [x] and [y] are structurally
    equal (objects compared without regard to the order of their keys); hence
    structurally equal bodies have the same fingerprint, in particular bodies
    that differ in the order of their keys. *)
Theorem stableStringify_decides_structural_equality {collator : Collator}
    (laws : CollatorLaws collator) (method path : string) (x y : Json) :
  safeIntegers x = true →
  safeIntegers y = true →
  keysDistinguished x = true →
  (fingerprintMaterial method path x = fingerprintMaterial method path y ↔ jsonEquivalent x y)
  ∧ (jsonEquivalent x y →
     buildRequestFingerprint method path x = buildRequestFingerprint method path y)
  ∧ (∀ props reordered,
       x = JObj props → props ≡ₚ reordered →
       buildRequestFingerprint method path x
       = buildRequestFingerprint method path (JObj reordered)).
Proof.
  intros Hx%safeIntegers_finiteNumbers Hy%safeIntegers_finiteNumbers Hkeys.
  assert (fingerprintMaterial method path x = fingerprintMaterial method path y
          ↔ jsonEquivalent x y) as Hmaterial.
  { unfold fingerprintMaterial. split.
    - intros Heq. do 4 apply append_inv_head in Heq. by apply stableStringify_inj.
    - intros Hxy. by rewrite (stableStringify_equivalent x Hkeys y Hxy). }
  split_and!.
  - exact Hmaterial.
  - intros Hxy. unfold buildRequestFingerprint. f_equal. by apply Hmaterial.
  - intros props reordered -> Hperm. unfold buildRequestFingerprint, fingerprintMaterial.
    do 5 f_equal. apply (stableStringify_equivalent _ Hkeys).
    apply (equivalent_object _ _ props props); [done|by symmetry|].
    clear. induction props; constructor; [split; [done|apply jsonEquivalent_refl]|done].
Qed.

(** The body of a topup with its properties in two orders, and with another
    amount. *)
Lemma stableStringify_decides_structural_equality_witness :
  let body := JObj [("userId", JStr "alice"); ("assetCode", JStr "GOLD_COINS");
                    ("amount", JNum (NumInt 100))] in
  let reordered := JObj [("amount", JNum (NumInt 100)); ("userId", JStr "alice");
                         ("assetCode", JStr "GOLD_COINS")] in
  let other := JObj [("userId", JStr "alice"); ("assetCode", JStr "GOLD_COINS");
                     ("amount", JNum (NumInt 101))] in
  @buildRequestFingerprint rootCollator "POST" "/wallet/topup" body
  = @buildRequestFingerprint rootCollator "POST" "/wallet/topup" reordered
  ∧ (@fingerprintMaterial rootCollator "POST" "/wallet/topup" body
     = @fingerprintMaterial rootCollator "POST" "/wallet/topup" other
     ↔ jsonEquivalent body other)
  ∧ @fingerprintMaterial rootCollator "POST" "/wallet/topup" body
    ≠ @fingerprintMaterial rootCollator "POST" "/wallet/topup" other.
Proof.
  intros body reordered other. split_and!.
  - destruct (@stableStringify_decides_structural_equality rootCollator rootCollator_laws
                "POST" "/wallet/topup" body reordered)
      as (_ & _ & Hreorder); [reflexivity..|].
    apply (Hreorder _ _ eq_refl).
    apply (Permutation_app_comm [("userId", JStr "alice"); ("assetCode", JStr "GOLD_COINS")]
                                [("amount", JNum (NumInt 100))]).
  - destruct (@stableStringify_decides_structural_equality rootCollator rootCollator_laws
                "POST" "/wallet/topup" body other) as (Hiff & _); [reflexivity..|].
    exact Hiff.
  - vm_compute. discriminate.
Defined.

(** ** The shape of a digest *)

Lemma sha256Round_length (state : list N) (kw : N * N) :
  length state = 8%nat → length (sha256Round state kw) = 8%nat.
Proof.
  intros Hlength. do 9 (destruct state as [|? state]; try discriminate Hlength). done.
Qed.

Lemma sha256Block_length (hash block : list N) :
  length hash = 8%nat → length (sha256Block hash block) = 8%nat.
Proof.
  intros Hlength. unfold sha256Block. rewrite length_map, length_combine.
  assert (∀ rounds state, length state = 8%nat →
            length (fold_left sha256Round rounds state) = 8%nat) as Hfold.
  { induction rounds as [|kw rounds IH]; intros state Hstate; [done|].
    simpl. apply IH. by apply sha256Round_length. }
  rewrite (Hfold _ _ Hlength). lia.
Qed.

Lemma sha256Blocks_length (fuel : nat) (hash words : list N) :
  length hash = 8%nat → length (sha256Blocks fuel hash words) = 8%nat.
Proof.
  revert hash words. induction fuel as [|fuel IH]; intros hash words Hlength; [done|].
  destruct words as [|word words]; [done|].
  cbn [sha256Blocks]. apply IH. by apply sha256Block_length.
Qed.

Lemma hexOfWord_length (digits : nat) (x : N) : String.length (hexOfWord digits x) = digits.
Proof. induction digits as [|digits IH]; simpl; [done|]. by rewrite IH. Qed.

Lemma sha256Hex_length (material : string) : String.length (sha256Hex material) = 64%nat.
Proof.
  unfold sha256Hex.
  set (hash := sha256Blocks _ sha256H0 _).
  assert (length hash = 8%nat) as Hlength by (by apply sha256Blocks_length).
  clearbody hash.
  do 9 (destruct hash as [|? hash]; try discriminate Hlength).
  cbn [fold_right]. rewrite !length_append, !hexOfWord_length. done.
Qed.

(** ** The idempotency cache and the idempotency middleware *)

Lemma keyFor_inj (key other : string) : keyFor key = keyFor other → key = other.
Proof. unfold keyFor. apply append_inv_head. Qed.

Lemma cacheSet_lookup (key other : string) (payload : CachedIdempotencyPayload)
    (cache : IdempotencyCache) :
  cacheGet other (cacheSet key payload cache)
  = if redisReachable cache
    then (if decide (other = key) then Some payload else cacheGet other cache)
    else None.
Proof.
  unfold cacheGet, cacheSet. destruct (redisReachable cache) eqn:Hreachable; simpl.
  - case_decide as Hkey.
    + subst other. apply lookup_insert_eq.
    + apply lookup_insert_ne. intros Heq. by apply keyFor_inj in Heq.
  - by rewrite Hreachable.
Qed.

(** X1: reading the cache after a write.  With Redis reachable, [get] of
    the key just [set] gives the payload written, and [get] of every other
    key gives what it gave before; with Redis unreachable the write is
    dropped and every [get] answers [null].  A second write under a key
    replaces the first. *)
Theorem cacheGet_cacheSet (key other : string) (payload earlier : CachedIdempotencyPayload)
    (cache : IdempotencyCache) :
  cacheGet other (cacheSet key payload cache)
  = (if redisReachable cache
     then (if decide (other = key) then Some payload else cacheGet other cache)
     else None)
  ∧ cacheSet key payload (cacheSet key earlier cache) = cacheSet key payload cache.
Proof.
  split; [apply cacheSet_lookup|].
  unfold cacheSet. destruct (redisReachable cache) eqn:Hreachable; simpl.
  - by rewrite insert_insert_eq.
  - by rewrite Hreachable.
Qed.

Lemma toUpperCase_idempotent (s : string) : toUpperCase (toUpperCase s) = toUpperCase s.
Proof.
  unfold toUpperCase. induction s as [|c s IH]; simpl; [done|]. f_equal; [|exact IH].
  assert (forallb (λ c, let u := if isAsciiLower c then ascii_of_N (N_of_ascii c - 32) else c in
                        Ascii.eqb (if isAsciiLower u then ascii_of_N (N_of_ascii u - 32) else u) u)
                  (map (λ n, ascii_of_N (N.of_nat n)) (seq 0 256)) = true) as Hall
    by (vm_compute; reflexivity).
  rewrite forallb_forall in Hall.
  apply Ascii.eqb_eq, (Hall c), in_map_iff.
  exists (N.to_nat (N_of_ascii c)). split.
  - by rewrite N2Nat.id, ascii_N_embedding.
  - apply in_seq. pose proof (N_ascii_bounded c). lia.
Qed.

Lemma getPathWithoutQuery_query (path query : string) :
  getPathWithoutQuery (path +:+ "?" +:+ query) = getPathWithoutQuery path.
Proof.
  induction path as [|c path IH].
  - by rewrite append_nil_l.
  - rewrite append_cons. simpl. destruct (Ascii.eqb c "?"); [done|]. by rewrite IH.
Qed.

Section Replay.
Context {collator : Collator} {Store : Type} {lockClient : LockClient Store}.
Variable env : Env.

(** What a mutation that returned has left in a reachable cache. *)
Lemma executeMutation_cached (type : TransactionType) (input : WalletMutationRequest)
    (generated : Generated) (world world' : World Store) (result : WalletMutationResult) :
  executeMutation env type input generated world = (Returned result, world') →
  redisReachable (cache world) = true →
  ∃ cached, cacheGet (idempotencyKey input) (cache world') = Some cached
            ∧ cachedRequestFingerprint cached = requestFingerprint input
            ∧ cachedStatusCode cached = statusCode result
            ∧ cachedBody cached = body result.
Proof.
  intros Hrun Hreachable. revert Hrun. unfold executeMutation.
  destruct (cacheGet (idempotencyKey input) (cache world)) as [cached|] eqn:Hget.
  - case_decide as Hdiff; [done|]. intros [= <- <-]. exists cached. simpl.
    split_and!; [done| |done..]. by destruct (decide (cachedRequestFingerprint cached
                                                      = requestFingerprint input)).
  - destruct (resolveContext _ _ _) as [context|]; [|done].
    destruct (acquireWalletLocks _ _ _ _) as [[[handle|] store1] events]; [|done].
    destruct (prismaTransaction _ _) as [[stored|] db1]; [|done].
    intros [= <- <-]. simpl. eexists. rewrite cacheSet_lookup, Hreachable.
    rewrite decide_True by done. done.
Qed.

(** X14: what the middleware does not look at.  A request without an
    Idempotency-Key header (or with an empty one) is refused with 400
    IDEMPOTENCY_KEY_MISSING whatever the cache holds; and the outcome for a
    request does not change when a query string is added to its URL, when its
    method is written in upper case, or when a missing body is sent as the
    empty object. *)
Theorem requireIdempotency_insensitive (request : Request) (query : string)
    (cache : IdempotencyCache) :
  ((idempotencyKeyHeader request = None ∨ idempotencyKeyHeader request = Some "") →
     requireIdempotency request cache
     = Thrown (AppError 400 "IDEMPOTENCY_KEY_MISSING" "Idempotency-Key header is required"))
  ∧ requireIdempotency
      {| method := toUpperCase (method request);
         originalUrl := originalUrl request +:+ "?" +:+ query;
         idempotencyKeyHeader := idempotencyKeyHeader request;
         requestBody := Some (match requestBody request with
                              | Some body => body
                              | None => JObj []
                              end) |}
      cache
    = requireIdempotency request cache.
Proof.
  split.
  - unfold requireIdempotency. by intros [-> | ->].
  - unfold requireIdempotency, buildRequestFingerprint, fingerprintMaterial. simpl.
    by rewrite toUpperCase_idempotent, getPathWithoutQuery_query.
Qed.

End Replay.



(** ** The mutation routes *)

Section Routes.
Context {collator : Collator} {Store : Type} {lockClient : LockClient Store}.
Variable env : Env.
Variable walletMutationSchema : option Json → Outcome ValidatedMutation.

Lemma requireIdempotency_next (request : Request) (cache : IdempotencyCache)
    (key fingerprint : string) :
  requireIdempotency request cache = Returned (GateNext key fingerprint) →
  idempotencyKeyHeader request = Some key ∧ key ≠ ""
  ∧ fingerprint
    = buildRequestFingerprint (method request) (getPathWithoutQuery (originalUrl request))
        (match requestBody request with Some body => body | None => JObj [] end).
Proof.
  unfold requireIdempotency.
  destruct (idempotencyKeyHeader request) as [[|c header]|]; [done| |done].
  destruct (cacheGet _ cache) as [cached|]; [by case_decide|].
  by intros [= <- <-].
Qed.

End Routes.


(** ** The lock service over the in-memory client *)

Lemma withLocks_lookup (lockKeys : list string) (token : string)
    (store : gmap string string) (key : string) :
  withLocks lockKeys token store !! key
  = if decide (key ∈ lockKeys) then Some token else store !! key.
Proof.
  unfold withLocks. revert store. induction lockKeys as [|k lockKeys IH]; intros store.
  - case_decide as Hin; [by apply elem_of_nil in Hin|done].
  - simpl. rewrite IH.
    destruct (decide (key ∈ lockKeys)) as [Hin|Hnotin];
      destruct (decide (key ∈ k :: lockKeys)) as [Hcons|Hcons]; try done.
    + destruct Hcons. by right.
    + apply elem_of_cons in Hcons as [->|Hin]; [|done]. by rewrite lookup_insert_eq.
    + rewrite lookup_insert_ne; [done|]. intros <-. apply Hcons. by left.
Qed.

Lemma toWalletLockKeys_NoDup {collator : Collator} (walletIds : list string) :
  NoDup (toWalletLockKeys walletIds).
Proof.
  unfold toWalletLockKeys. apply NoDup_fmap_2.
  - intros a b Hab. by apply append_inv_head in Hab.
  - unfold sortUniqueWalletIds. rewrite arraySort_Permutation. apply setToArray_NoDup.
Qed.

Section InMemoryLocks.
Context {collator : Collator}.
Variable env : Env.

Lemma inMemory_setEach (lockKeys : list string) (token : string)
    (acquiredKeys : list string) (store : gmap string string) :
  NoDup lockKeys →
  ∃ got status events,
    @setEach _ InMemoryLockClient env lockKeys token acquiredKeys store
    = (acquiredKeys ++ got, status, withLocks got token store, events)
    ∧ NoDup got
    ∧ (∀ key, key ∈ got → key ∈ lockKeys ∧ store !! key = None)
    ∧ ((status = Locked ∧ got = lockKeys)
       ∨ (status = NotLocked ∧ ∃ key, key ∈ lockKeys ∧ store !! key ≠ None)).
Proof.
  revert acquiredKeys store.
  induction lockKeys as [|k lockKeys IH]; intros acquiredKeys store Hnodup.
  - exists [], Locked, []. simpl. rewrite app_nil_r.
    split_and!; [done|constructor| |by left].
    intros key Hin. by apply elem_of_nil in Hin.
  - apply NoDup_cons in Hnodup as [Hk Hnodup]. simpl.
    unfold inMemorySet. destruct (store !! k) as [holder|] eqn:Hheld.
    + rewrite decide_False by done.
      exists [], NotLocked, [SetNxPx k token (distributedLockTtlMs env)].
      rewrite app_nil_r. split_and!; [done|constructor| |].
      { intros key Hin. by apply elem_of_nil in Hin. }
      right. split; [done|]. exists k. split; [by left|]. by rewrite Hheld.
    + rewrite decide_True by done.
      destruct (IH (acquiredKeys ++ [k]) (<[k := token]> store) Hnodup)
        as (got & status & events & -> & Hgot & Hfree & Hstatus).
      exists (k :: got), status, (SetNxPx k token (distributedLockTtlMs env) :: events).
      rewrite <- app_assoc. split_and!; [done| | |].
      * constructor; [|done]. intros Hin. by destruct (Hfree k Hin).
      * intros key [->|Hin]%elem_of_cons; [split; [by left|done]|].
        destruct (Hfree key Hin) as [Hkey Hnone]. split; [by right|].
        by apply lookup_insert_None in Hnone as [? _].
      * destruct Hstatus as [[-> ->]|[-> (key & Hkey & Hnone)]]; [by left|].
        right. split; [done|]. exists key. split; [by right|].
        intros Hfreekey. apply Hnone. apply lookup_insert_None. split; [done|].
        intros <-. done.
Qed.

Lemma inMemory_releaseEach (lockKeys : list string) (token : string)
    (store : gmap string string) (key : string) :
  fst (@releaseEach _ InMemoryLockClient lockKeys token store) !! key
  = if decide (key ∈ lockKeys ∧ store !! key = Some token) then None else store !! key.
Proof.
  revert store. induction lockKeys as [|k lockKeys IH]; intros store.
  - destruct (decide _) as [[Hin _]|_]; [by apply elem_of_nil in Hin|done].
  - cbn [releaseEach lockEval InMemoryLockClient]. rewrite inMemoryEval_spec.
    specialize (IH (if decide (store !! k = Some token) then delete k store else store)).
    destruct (releaseEach lockKeys token _) as [store2 events]. simpl in *. rewrite IH.
    clear IH. destruct (decide (key = k)) as [->|Hne].
    + destruct (decide (store !! k = Some token)) as [Hheld|Hnot].
      * rewrite lookup_delete_eq.
        rewrite (decide_True (P := k ∈ k :: lockKeys ∧ _)) by (split; [by left|done]).
        by case_decide.
      * rewrite (decide_False (P := k ∈ lockKeys ∧ _)) by tauto.
        by rewrite (decide_False (P := k ∈ k :: lockKeys ∧ _)) by tauto.
    + assert ((if decide (store !! k = Some token) then delete k store else store) !! key
              = store !! key) as ->
        by (case_decide; [by rewrite lookup_delete_ne|done]).
      destruct (decide (key ∈ lockKeys ∧ store !! key = Some token)) as [[Hin Hheld]|Hnot].
      * by rewrite decide_True by (split; [by right|done]).
      * rewrite decide_False; [done|].
        intros [[->|Hin]%elem_of_cons Hheld]; [done|]. by apply Hnot.
Qed.

Lemma inMemory_releaseLocks (lockKeys : list string) (token : string)
    (store : gmap string string) :
  NoDup lockKeys →
  (∀ key, key ∈ lockKeys → store !! key = None) →
  fst (@releaseLocks _ InMemoryLockClient lockKeys token (withLocks lockKeys token store))
  = store.
Proof.
  intros Hnodup Hfree. unfold releaseLocks.
  case_decide as Hempty; [by destruct lockKeys|].
  apply map_eq. intros key. rewrite inMemory_releaseEach, withLocks_lookup.
  destruct (decide (key ∈ lockKeys)) as [Hin|Hnotin].
  - rewrite decide_True by done. by rewrite Hfree.
  - by rewrite decide_False by tauto.
Qed.

Lemma inMemory_attemptLoop (remaining : nat) (attempt : Z) (lockKeys : list string)
    (token : string) (store : gmap string string) :
  NoDup lockKeys →
  ∃ outcome store1 events,
    @attemptLoop _ InMemoryLockClient env remaining attempt lockKeys token store
    = (outcome, store1, events)
    ∧ (((∀ key, key ∈ lockKeys → store !! key = None) ∧ remaining ≠ O
        ∧ outcome = Returned {| heldKeys := lockKeys; heldToken := token |}
        ∧ store1 = withLocks lockKeys token store)
       ∨ (((∃ key, key ∈ lockKeys ∧ store !! key ≠ None) ∨ remaining = O)
          ∧ outcome = Thrown (AppError 423 "DISTRIBUTED_LOCK_NOT_ACQUIRED"
                                "Could not acquire wallet lock. Please retry.")
          ∧ store1 = store)).
Proof.
  intros Hnodup. revert attempt.
  induction remaining as [|remaining IH]; intros attempt; simpl.
  - eexists _, _, _. split; [done|]. right. split_and!; [by right|done..].
  - destruct (inMemory_setEach lockKeys token [] store Hnodup)
      as (got & status & events & -> & Hgot & Hfree & [[-> ->]|[-> Hblocked]]).
    + eexists _, _, _. split; [done|]. left. split_and!; try done.
      intros key Hkey. by destruct (Hfree key Hkey).
    + simpl.
      pose proof (inMemory_releaseLocks got token store Hgot
                    (λ key Hkey, proj2 (Hfree key Hkey))) as Hreleased.
      destruct (releaseLocks got token (withLocks got token store)) as [store2 events2].
      simpl in Hreleased. subst store2.
      destruct (IH (attempt + 1)) as (outcome & store3 & events4 & -> & Hrest).
      eexists _, _, _. split; [done|]. right.
      destruct Hrest as [(Hallfree & _)|(_ & -> & ->)].
      * destruct Hblocked as (key & Hkey & Hheld). by destruct (Hheld (Hallfree key Hkey)).
      * split_and!; [by left|done..].
Qed.

(** X11: the lock service over the in-memory client of the unit test.  When
    every lock key of the wallets is free (and at least one attempt is
    allowed), the call returns a handle, the store holds exactly the lock
    keys under the token of the call besides what it held before, and
    releasing the handle gives back the store as it was. *)
Theorem acquireWalletLocks_release_round_trip (walletIds : list string) (token : string)
    (store : gmap string string) :
  walletIds ≠ [] →
  0 < distributedLockRetryCount env →
  (∀ key, key ∈ toWalletLockKeys walletIds → store !! key = None) →
  let run := @acquireWalletLocks collator _ InMemoryLockClient env walletIds token store in
  ∃ handle,
    fst (fst run) = Returned handle
    ∧ (∀ key, snd (fst run) !! key
              = if decide (key ∈ toWalletLockKeys walletIds) then Some token
                else store !! key)
    ∧ @release _ InMemoryLockClient handle (snd (fst run)) = store.
Proof.
  intros Hids Hretry Hfree run. subst run. unfold acquireWalletLocks.
  rewrite decide_False.
  2:{ unfold toWalletLockKeys, sortUniqueWalletIds.
      rewrite length_map, arraySort_length. destruct walletIds; [done|]. simpl. lia. }
  destruct (inMemory_attemptLoop (Z.to_nat (distributedLockRetryCount env)) 1
              (toWalletLockKeys walletIds) token store (toWalletLockKeys_NoDup walletIds))
    as (outcome & store1 & events & -> & [(_ & _ & -> & ->)|([(key & Hkey & Hheld)|Hzero] & _)]).
  - eexists. simpl. split_and!; [done|apply withLocks_lookup|].
    unfold release. simpl.
    apply inMemory_releaseLocks; [apply toWalletLockKeys_NoDup|done].
  - by destruct (Hheld (Hfree key Hkey)).
  - lia.
Qed.

(** X12: a failed acquisition leaves nothing behind.  Whenever the call over
    the in-memory client throws, the store is as it was before the call (the
    keys taken in a blocked attempt are given back); and it throws 423
    DISTRIBUTED_LOCK_NOT_ACQUIRED whenever one of the lock keys is held. *)
Theorem acquireWalletLocks_blocked (walletIds : list string) (token : string)
    (store : gmap string string) :
  let run := @acquireWalletLocks collator _ InMemoryLockClient env walletIds token store in
  (∀ error, fst (fst run) = Thrown error → snd (fst run) = store)
  ∧ (∀ key, key ∈ toWalletLockKeys walletIds → store !! key ≠ None →
       fst (fst run) = Thrown (AppError 423 "DISTRIBUTED_LOCK_NOT_ACQUIRED"
                                 "Could not acquire wallet lock. Please retry.")).
Proof.
  intros run. subst run. unfold acquireWalletLocks.
  case_decide as Hempty.
  - split; [done|]. intros key Hkey.
    destruct (toWalletLockKeys walletIds); [by apply elem_of_nil in Hkey|done].
  - destruct (inMemory_attemptLoop (Z.to_nat (distributedLockRetryCount env)) 1
                (toWalletLockKeys walletIds) token store (toWalletLockKeys_NoDup walletIds))
      as (outcome & store1 & events & -> & [(Hfree & _ & -> & ->)|(_ & -> & ->)]); simpl.
    + split; [done|]. intros key Hkey Hheld. by destruct (Hheld (Hfree key Hkey)).
    + done.
Qed.
End InMemoryLocks.

(** The first test of tests/distributed-lock.test.ts: both wallets free. *)
Lemma acquireWalletLocks_release_round_trip_witness :
  ∃ handle,
    fst (fst (@acquireWalletLocks rootCollator _ InMemoryLockClient defaultEnv
                ["wallet-b"; "wallet-a"] "token-1" ∅)) = Returned handle
    ∧ @release _ InMemoryLockClient handle
        (snd (fst (@acquireWalletLocks rootCollator _ InMemoryLockClient defaultEnv
                     ["wallet-b"; "wallet-a"] "token-1" ∅))) = ∅.
Proof.
  destruct (@acquireWalletLocks_release_round_trip rootCollator defaultEnv
              ["wallet-b"; "wallet-a"] "token-1" ∅)
    as (handle & Hhandle & _ & Hrelease); [done|done|done|].
  by exists handle.
Defined.

Lemma toWalletLockKeys_elem_of {collator : Collator} (walletIds : list string) (id : string) :
  "lock:wallet:" +:+ id ∈ toWalletLockKeys walletIds ↔ id ∈ walletIds.
Proof.
  unfold toWalletLockKeys, sortUniqueWalletIds.
  rewrite <- (setToArray_elem_of id walletIds),
    <- (arraySort_elem_of (λ left right, localeCompare left right) id (setToArray walletIds)).
  split.
  - intros (other & Heq & Hother)%list_elem_of_fmap. by apply append_inv_head in Heq as ->.
  - intros Hid. by apply (list_elem_of_fmap_2 (λ walletId, "lock:wallet:" +:+ walletId)).
Qed.

(** X19: two callers never hold a common wallet.  Over the in-memory client,
    after one caller has acquired the locks of its wallets (all free before),
    an acquisition by anyone for wallets that share a wallet id with them
    fails with 423 DISTRIBUTED_LOCK_NOT_ACQUIRED and changes nothing, for as
    long as the handle is not released; once it is released, the second
    caller finds the store as it was at the start. *)
Theorem acquireWalletLocks_mutual_exclusion {collator : Collator} (env : Env)
    (walletIds others : list string) (token token' shared : string)
    (store : gmap string string) :
  0 < distributedLockRetryCount env →
  (∀ key, key ∈ toWalletLockKeys walletIds → store !! key = None) →
  shared ∈ walletIds →
  shared ∈ others →
  let first := @acquireWalletLocks collator _ InMemoryLockClient env walletIds token store in
  let second := @acquireWalletLocks collator _ InMemoryLockClient env others token'
                  (snd (fst first)) in
  ∃ handle,
    fst (fst first) = Returned handle
    ∧ fst (fst second) = Thrown (AppError 423 "DISTRIBUTED_LOCK_NOT_ACQUIRED"
                                   "Could not acquire wallet lock. Please retry.")
    ∧ snd (fst second) = snd (fst first)
    ∧ @release _ InMemoryLockClient handle (snd (fst second)) = store.
Proof.
  intros Hretry Hfree Hshared Hothers first second. subst second first.
  assert (∀ ids : list string, shared ∈ ids → length (toWalletLockKeys ids) ≠ 0%nat)
    as Hnonempty.
  { intros ids Hin Hzero. apply (toWalletLockKeys_elem_of ids shared) in Hin.
    destruct (toWalletLockKeys ids); [by apply elem_of_nil in Hin|done]. }
  assert (∃ events,
            @acquireWalletLocks collator _ InMemoryLockClient env walletIds token store
            = (Returned {| heldKeys := toWalletLockKeys walletIds; heldToken := token |},
               withLocks (toWalletLockKeys walletIds) token store, events))
    as [events Hfirst].
  { unfold acquireWalletLocks. rewrite decide_False by (by apply Hnonempty).
    destruct (inMemory_attemptLoop env (Z.to_nat (distributedLockRetryCount env)) 1
                (toWalletLockKeys walletIds) token store (toWalletLockKeys_NoDup walletIds))
      as (outcome & store1 & events
          & -> & [(_ & _ & -> & ->)|([(key & Hkey & Hheld)|Hzero] & _)]);
      [by eexists|by destruct (Hheld (Hfree key Hkey))|lia]. }
  rewrite Hfirst. simpl.
  assert (∃ events2,
            @acquireWalletLocks collator _ InMemoryLockClient env others token'
              (withLocks (toWalletLockKeys walletIds) token store)
            = (Thrown (AppError 423 "DISTRIBUTED_LOCK_NOT_ACQUIRED"
                         "Could not acquire wallet lock. Please retry."),
               withLocks (toWalletLockKeys walletIds) token store, events2))
    as [events2 Hsecond].
  { unfold acquireWalletLocks. rewrite decide_False by (by apply Hnonempty).
    destruct (inMemory_attemptLoop env (Z.to_nat (distributedLockRetryCount env)) 1
                (toWalletLockKeys others) token'
                (withLocks (toWalletLockKeys walletIds) token store)
                (toWalletLockKeys_NoDup others))
      as (outcome & store2 & events2 & -> & [(Hfree2 & _)|(_ & -> & ->)]); [|by eexists].
    exfalso.
    pose proof (Hfree2 _ (proj2 (toWalletLockKeys_elem_of others shared) Hothers)) as Hnone.
    rewrite withLocks_lookup in Hnone.
    by rewrite decide_True in Hnone by (by apply toWalletLockKeys_elem_of). }
  rewrite Hsecond. simpl. eexists. split_and!; [done..|].
  unfold release. simpl.
  apply inMemory_releaseLocks; [apply toWalletLockKeys_NoDup|done].
Qed.

(** The first test of tests/distributed-lock.test.ts: while the handle on
    wallet-a and wallet-b is held, a second acquisition is refused. *)
Lemma acquireWalletLocks_mutual_exclusion_witness :
  let first := @acquireWalletLocks rootCollator _ InMemoryLockClient defaultEnv
                 ["wallet-b"; "wallet-a"] "token-1" ∅ in
  fst (fst (@acquireWalletLocks rootCollator _ InMemoryLockClient defaultEnv
              ["wallet-a"; "wallet-b"] "token-2" (snd (fst first))))
  = Thrown (AppError 423 "DISTRIBUTED_LOCK_NOT_ACQUIRED"
              "Could not acquire wallet lock. Please retry.").
Proof.
  intros first.
  destruct (@acquireWalletLocks_mutual_exclusion rootCollator defaultEnv
              ["wallet-b"; "wallet-a"] ["wallet-a"; "wallet-b"] "token-1" "token-2"
              "wallet-a" ∅) as (handle & _ & Hsecond & _).
  - reflexivity.
  - done.
  - right. by left.
  - by left.
  - exact Hsecond.
Defined.

(** ** The order of the lock keys *)

(** X10: the lock keys depend on the set of wallet ids only, not on their
    order or multiplicity, whenever [localeCompare] tells the ids apart; so
    two callers that lock the same wallets ask for the keys in the same order.
    The keys are pairwise distinct, and sorting twice changes nothing. *)
Theorem toWalletLockKeys_order_independent {collator : Collator}
    (laws : CollatorLaws collator) (walletIds others : list string) :
  (∀ a b, a ∈ walletIds → b ∈ walletIds → localeCompare a b = 0 → a = b) →
  (∀ id, id ∈ walletIds ↔ id ∈ others) →
  toWalletLockKeys walletIds = toWalletLockKeys others
  ∧ sortUniqueWalletIds (sortUniqueWalletIds walletIds) = sortUniqueWalletIds walletIds
  ∧ NoDup (toWalletLockKeys walletIds).
Proof.
  intros Hapart Hsame.
  assert (∀ l1 l2 : list string, (∀ id, id ∈ l1 ↔ id ∈ walletIds) →
            (∀ id, id ∈ l1 ↔ id ∈ l2) →
            sortUniqueWalletIds l1 = sortUniqueWalletIds l2) as Hsort.
  { intros l1 l2 Hl1 Hl12. unfold sortUniqueWalletIds. apply arraySort_canonical.
    - intros a b. apply localeCompare_total.
    - intros a b c. apply localeCompare_trans.
    - apply NoDup_Permutation; [apply setToArray_NoDup..|].
      intros id. by rewrite !setToArray_elem_of.
    - intros a b Ha Hb Hab Hba. rewrite setToArray_elem_of, Hl1 in Ha, Hb.
      apply Hapart; [done..|]. pose proof (localeCompare_flip a b). lia. }
  split_and!.
  - unfold toWalletLockKeys. by rewrite (Hsort walletIds others).
  - apply Hsort.
    + intros id. unfold sortUniqueWalletIds.
      by rewrite arraySort_elem_of, setToArray_elem_of.
    + intros id. unfold sortUniqueWalletIds.
      by rewrite arraySort_elem_of, setToArray_elem_of.
  - apply toWalletLockKeys_NoDup.
Qed.

(** The wallet ids of tests/concurrency-controls.test.ts, in two orders. *)
Lemma toWalletLockKeys_order_independent_witness :
  @toWalletLockKeys rootCollator ["w2"; "w1"; "w1"]
  = @toWalletLockKeys rootCollator ["w1"; "w2"].
Proof.
  apply (@toWalletLockKeys_order_independent rootCollator rootCollator_laws
           ["w2"; "w1"; "w1"] ["w1"; "w2"]).
  - intros a b Ha Hb. simpl. rewrite rootLocaleCompare_id_strings.
    + apply codePointCompare_eq.
    + repeat (apply elem_of_cons in Ha as [->|Ha]; [reflexivity|]).
      by apply elem_of_nil in Ha.
    + repeat (apply elem_of_cons in Hb as [->|Hb]; [reflexivity|]).
      by apply elem_of_nil in Hb.
  - intros id. rewrite !elem_of_cons, !elem_of_nil. tauto.
Defined.

(** ** What a mutation keeps, and when it posts *)

Lemma NoDup_map_eq {A B} (f : A → B) (l : list A) (x y : A) :
  NoDup (map f l) → x ∈ l → y ∈ l → f x = f y → x = y.
Proof.
  induction l as [|z l IH]; intros Hnodup Hx Hy Heq; [by apply elem_of_nil in Hx|].
  simpl in Hnodup. apply NoDup_cons in Hnodup as [Hz Hnodup].
  apply elem_of_cons in Hx as [->|Hx]; apply elem_of_cons in Hy as [->|Hy]; [done| | |by apply IH].
  - destruct Hz. rewrite Heq. by apply (list_elem_of_fmap_2 f).
  - destruct Hz. rewrite <- Heq. by apply (list_elem_of_fmap_2 f).
Qed.

Lemma withWallets_same (db : Database) : withWallets db (wallets db) = db.
Proof. by destruct db. Qed.

Lemma walletUpdateMany_unique (db : Database) (row : Wallet) :
  NoDup (map wallet_id (wallets db)) →
  row ∈ wallets db →
  walletUpdateMany (wallet_id row) (wallet_version row) db
  = (Returned 1,
     withWallets db
       (map (λ w, if decide (wallet_id w = wallet_id row) then bumped w else w) (wallets db))).
Proof.
  intros Hnodup Hrow. unfold walletUpdateMany.
  assert (∀ w, w ∈ wallets db →
               bool_decide (wallet_id w = wallet_id row ∧ wallet_version w = wallet_version row)
               = bool_decide (wallet_id w = wallet_id row)) as Hhit.
  { intros w Hw. apply bool_decide_ext. split; [tauto|]. intros Hid.
    by rewrite (NoDup_map_eq wallet_id _ w row Hnodup Hw Hrow Hid). }
  f_equal.
  - do 2 f_equal.
    revert Hnodup Hrow Hhit. generalize (wallets db) as rows.
    induction rows as [|w rows IH]; intros Hnodup Hrow Hhit; [by apply elem_of_nil in Hrow|].
    simpl in Hnodup. apply NoDup_cons in Hnodup as [Hw Hnodup]. simpl.
    rewrite (Hhit w) by (by left).
    destruct (decide (wallet_id w = wallet_id row)) as [Hid|Hid].
    + rewrite bool_decide_eq_true_2 by done. simpl. f_equal.
      assert (List.filter (λ w0, bool_decide (wallet_id w0 = wallet_id row
                                              ∧ wallet_version w0 = wallet_version row)) rows
              = []) as ->; [|done].
      clear IH Hhit Hrow. induction rows as [|w' rows IH]; [done|]. simpl.
      rewrite bool_decide_eq_false_2.
      * apply IH; [|by apply NoDup_cons in Hnodup as [_ ?]].
        intros Hin. apply Hw. simpl. by right.
      * intros [Hid' _]. apply Hw. simpl. apply elem_of_cons. left. congruence.
    + rewrite bool_decide_eq_false_2 by done. apply IH; [done| |].
      * apply elem_of_cons in Hrow as [->|Hrow]; [done|exact Hrow].
      * intros w' Hw'. apply Hhit. by right.
  - f_equal. apply map_ext_in. intros w Hw%list_elem_of_In.
    rewrite (Hhit w Hw). by case_bool_decide; case_decide.
Qed.

Lemma bumpEach_unique (rows : list Wallet) (db : Database) :
  NoDup (map wallet_id (wallets db)) →
  NoDup (map wallet_id rows) →
  (∀ row, row ∈ rows → row ∈ wallets db) →
  bumpEach (map (λ row, (wallet_id row, wallet_version row)) rows) db
  = (Returned (map (λ row, (wallet_id row, 1)) rows),
     withWallets db
       (map (λ w, if bool_decide (wallet_id w ∈ map wallet_id rows) then bumped w else w)
            (wallets db))).
Proof.
  revert db. induction rows as [|row rows IH]; intros db Hnodup Hrows Hin.
  - simpl. unfold txReturn. f_equal. rewrite <- (withWallets_same db) at 1. f_equal.
    rewrite <- (map_id (wallets db)) at 1. by apply map_ext.
  - simpl in Hrows. apply NoDup_cons in Hrows as [Hrow Hrows].
    cbn [map bumpEach fst snd]. unfold txBind at 1.
    rewrite (walletUpdateMany_unique db row Hnodup (Hin row ltac:(by left))).
    unfold txBind at 1.
    set (bumpRow := λ w, if decide (wallet_id w = wallet_id row) then bumped w else w).
    assert (∀ w, wallet_id (bumpRow w) = wallet_id w) as Hid
      by (intros w; unfold bumpRow; by case_decide).
    rewrite (IH (withWallets db (map bumpRow (wallets db)))); [| |done|].
    + unfold txReturn. f_equal. simpl. f_equal.
      rewrite map_map. apply map_ext. intros w. rewrite Hid. unfold bumpRow.
      destruct (decide (wallet_id w = wallet_id row)) as [Heq|Hne].
      * rewrite (bool_decide_eq_true_2 (wallet_id w ∈ wallet_id row :: _))
          by (rewrite Heq; by left).
        rewrite bool_decide_eq_false_2; [done|]. by rewrite Heq.
      * apply (f_equal (λ b : bool, if b then bumped w else w)).
        apply bool_decide_ext. rewrite elem_of_cons. tauto.
    + simpl. rewrite map_map. erewrite map_ext; [exact Hnodup|]. done.
    + intros row' Hrow'. simpl.
      assert (bumpRow row' = row') as <-.
      { unfold bumpRow. rewrite decide_False; [done|]. intros Heq. apply Hrow.
        rewrite <- Heq. by apply (list_elem_of_fmap_2 wallet_id). }
      apply (list_elem_of_fmap_2 bumpRow). apply Hin. by right.
Qed.

Lemma NoDup_map_filter {A B} (f : A → B) (p : A → bool) (l : list A) :
  NoDup (map f l) → NoDup (map f (List.filter p l)).
Proof.
  induction l as [|x l IH]; simpl; [done|]. intros [Hx Hl]%NoDup_cons.
  destruct (p x); simpl; [|by apply IH]. apply NoDup_cons. split; [|by apply IH].
  intros (y & Heq & Hy%list_elem_of_In%filter_In)%list_elem_of_fmap. apply Hx. rewrite Heq.
  apply (list_elem_of_fmap_2 f). apply list_elem_of_In. tauto.
Qed.

Lemma assetTotal_posted (asset : string) (db db' : Database) (row : Transaction) :
  ledgerEntries db' = ledgerEntries db ++ [debitOf row; creditOf row] →
  assetTotal asset db' = assetTotal asset db.
Proof.
  intros Hledger. unfold assetTotal. rewrite Hledger.
  rewrite List.filter_app, map_app, foldr_app. simpl.
  case_bool_decide; simpl; [|done]. f_equal. unfold signedAmount. simpl. lia.
Qed.

Lemma txBind_returned {A B} (statement : Tx A) (next : A → Tx B) (db : Database)
    (value : A) (db1 : Database) :
  statement db = (Returned value, db1) → txBind statement next db = next value db1.
Proof. unfold txBind. by intros ->. Qed.

Section Ledger.
Context {collator : Collator} {Store : Type} {lockClient : LockClient Store}.
Variable env : Env.

(** X3: a mutation that throws leaves no trace in PostgreSQL or in the
    response cache: the database is the one before the call (the PROCESSING
    row of a transaction that failed later is rolled back with it), and
    nothing is cached for the key. *)
Theorem executeMutation_throw_rolls_back (type : TransactionType)
    (input : WalletMutationRequest) (generated : Generated)
    (world world' : World Store) (error : Failure) :
  executeMutation env type input generated world = (Thrown error, world') →
  database world' = database world ∧ cache world' = cache world.
Proof.
  unfold executeMutation.
  destruct (cacheGet (idempotencyKey input) (cache world)) as [cached|].
  { case_decide; [|done]. by intros [= _ <-]. }
  destruct (resolveContext _ _ _) as [context|]; [|by intros [= _ <-]].
  destruct (acquireWalletLocks _ _ _ _) as [[[handle|] store1] events];
    [|by intros [= _ <-]].
  unfold prismaTransaction.
  destruct (mutationTransaction _ _ _ _ _ _ _) as [[result|] db1]; [done|].
  by intros [= _ <-].
Qed.

(** X4: no mutation creates or destroys value.  For every asset, the sum of
    all ledger entries of the asset (credits positive, debits negative) is the
    same after [executeMutation] as before it, whatever the type of the
    mutation and whether it posts, is refused, replays or throws. *)
Theorem executeMutation_conserves_asset_total (type : TransactionType)
    (input : WalletMutationRequest) (generated : Generated) (world : World Store)
    (asset : string) :
  assetTotal asset (database (snd (executeMutation env type input generated world)))
  = assetTotal asset (database world).
Proof.
  destruct (executeMutation env type input generated world) as [outcome world'] eqn:Hrun.
  simpl.
  destruct (executeMutation_database env _ _ _ _ _ _ Hrun) as [->|(result & -> & Hreplayed)];
    [done|].
  apply executeMutation_fresh in Hrun as (context & _ & _ & Htx); [|done].
  apply mutationTransaction_fresh in Htx as (_ & _ & _ & _ & Hcases); [|done].
  destruct Hcases as [(_ & _ & _ & Hledger & _)|(_ & _ & Hledger & _)].
  - unfold assetTotal. by rewrite Hledger.
  - by apply (assetTotal_posted asset _ _ _ Hledger).
Qed.
(** X20: what is kept for a replay is what was returned.  After a mutation
    that is not itself a replay has returned, the only transaction row with
    its Idempotency-Key carries the fingerprint of the request, the status
    code and the body that were returned (POSTED with 200, FAILED with 409);
    and if Redis is reachable the cache holds the same fingerprint, status
    code and body under the key. *)
Theorem executeMutation_records_response (type : TransactionType)
    (input : WalletMutationRequest) (generated : Generated)
    (world world' : World Store) (result : WalletMutationResult) :
  executeMutation env type input generated world = (Returned result, world') →
  replayed result = false →
  (∃ t,
     t ∈ transactions (database world')
     ∧ (∀ other, other ∈ transactions (database world') →
                 tx_idempotencyKey other = idempotencyKey input → other = t)
     ∧ tx_id t = newTransactionId generated
     ∧ tx_requestHash t = requestFingerprint input
     ∧ tx_responseCode t = Some (statusCode result)
     ∧ tx_responseBody t = Some (body result)
     ∧ ((tx_status t = POSTED ∧ statusCode result = 200)
        ∨ (tx_status t = FAILED ∧ statusCode result = 409)))
  ∧ (redisReachable (cache world) = true →
     cacheGet (idempotencyKey input) (cache world')
     = Some {| cachedRequestFingerprint := requestFingerprint input;
               cachedStatusCode := statusCode result;
               cachedBody := body result |}).
Proof.
  intros Hrun Hreplayed. split.
  - apply executeMutation_fresh in Hrun as (context & _ & _ & Htx); [|done].
    apply mutationTransaction_fresh in Htx as (_ & Hfresh & _ & _ & Hcases); [|done].
    destruct Hcases as [(_ & -> & _ & _ & Htxs)|(_ & Hstatus & _ & Htxs)];
      (eexists; split_and!;
       [ rewrite Htxs; apply elem_of_app; right; by left
       | intros other Hother Hkey; rewrite Htxs in Hother;
         apply elem_of_app in Hother as [Hold|Hnew];
         [by destruct (Hfresh other Hold)|by apply list_elem_of_singleton in Hnew]
       | done | done | simpl; try done; by rewrite Hstatus | done
       | first [ by left | by right ] ]).
  - intros Hreachable.
    destruct (executeMutation_cached env _ _ _ _ _ _ Hrun Hreachable)
      as ([fingerprint code cached] & -> & Hprint & Hcode & Hbody).
    simpl in *. by subst.
Qed.

Lemma lockWallets_rows (walletIds : list string) (db : Database) :
  NoDup (map wallet_id (wallets db)) →
  (∀ id, id ∈ walletIds → id ∈ map wallet_id (wallets db)) →
  ∃ rows,
    lockWallets walletIds db
    = (Returned (map (λ row, (wallet_id row, wallet_version row)) rows), db)
    ∧ NoDup (map wallet_id rows)
    ∧ (∀ row, row ∈ rows ↔ row ∈ wallets db ∧ wallet_id row ∈ walletIds)
    ∧ length rows = length (sortUniqueWalletIds walletIds).
Proof.
  intros Hnodup Hpresent. unfold lockWallets.
  set (found := List.filter (λ w, bool_decide (wallet_id w ∈ sortUniqueWalletIds walletIds))
                            (wallets db)).
  set (rows := arraySort (λ left right, codePointCompare (wallet_id left) (wallet_id right))
                         found).
  assert (∀ id, id ∈ sortUniqueWalletIds walletIds ↔ id ∈ walletIds) as Hids
    by (intros id; unfold sortUniqueWalletIds;
        by rewrite arraySort_elem_of, setToArray_elem_of).
  assert (∀ row, row ∈ found ↔ row ∈ wallets db ∧ wallet_id row ∈ walletIds) as Hfound.
  { intros row. unfold found. rewrite list_elem_of_In, filter_In, <- list_elem_of_In.
    by rewrite bool_decide_eq_true, Hids. }
  assert (rows ≡ₚ found) as Hperm by apply arraySort_Permutation.
  exists rows. split_and!; [done| | |].
  - rewrite Hperm. by apply NoDup_map_filter.
  - intros row. by rewrite Hperm.
  - rewrite Hperm. rewrite <- (length_map wallet_id found).
    apply Permutation_length, NoDup_Permutation.
    + by apply NoDup_map_filter.
    + unfold sortUniqueWalletIds. rewrite arraySort_Permutation. apply setToArray_NoDup.
    + intros id. rewrite Hids. split.
      * intros (row & -> & Hrow)%list_elem_of_fmap. by apply Hfound in Hrow as [_ ?].
      * intros Hid. destruct (proj1 (list_elem_of_fmap _ _ _) (Hpresent id Hid))
          as (row & -> & Hrow).
        apply (list_elem_of_fmap_2 wallet_id). by apply Hfound.
Qed.

(** The posting is reached: nothing throws on the way to it. *)
Lemma posting_is_reached (type : TransactionType)
    (input : WalletMutationRequest) (generated : Generated) (world : World Store)
    (context : WalletExecutionContext) (handle : DistributedLockHandle) :
  let source := sourceWalletIdOf type context in
  let destination := destinationWalletIdOf type context in
  let balance :=
    walletBalance (userWalletId context) (assetTypeId context) (database world)
    + (if decide (type = SPEND) then - amount input else amount input) in
  cacheGet (idempotencyKey input) (cache world) = None →
  resolveContext (userId input) (assetCode input) (database world) = Returned context →
  fst (fst (acquireWalletLocks env [source; destination] (lockToken generated)
              (lockStore world))) = Returned handle →
  0 < amount input →
  (∀ t, t ∈ transactions (database world) →
        tx_id t ≠ newTransactionId generated
        ∧ tx_idempotencyKey t ≠ idempotencyKey input) →
  NoDup (map wallet_id (wallets (database world))) →
  amount input <= walletBalance source (assetTypeId context) (database world) →
  ∃ world',
    executeMutation env type input generated world
    = (Returned {| statusCode := 200;
                   body := successPayload type input context (newTransactionId generated)
                             (newCreatedAt generated) balance source destination;
                   replayed := false |},
       world')
    ∧ walletBalance (userWalletId context) (assetTypeId context) (database world') = balance
    ∧ wallets (database world')
      = map (λ w, if decide (wallet_id w = source ∨ wallet_id w = destination)
                  then bumped w else w)
            (wallets (database world)).
Proof.
  intros source destination balance Hcache Hcontext Hlock Hamount Hfresh Hnodup Henough.
  destruct (resolveContext_wallets _ _ _ _ Hcontext)
    as (assetType & userWallet & treasuryWallet & _ & _ & _ & _ & Hu & Huser & Huid
        & Ht & Htreasury & Htid).
  assert (userWalletId context ≠ treasuryWalletId context) as Hdistinct.
  { intros Heq. rewrite <- Huid, <- Htid in Heq.
    pose proof (NoDup_map_eq wallet_id _ _ _ Hnodup Hu Ht Heq) as ->.
    destruct Huser as [Huser _], Htreasury as [Htreasury _]. congruence. }
  assert (∀ id, id ∈ [source; destination] → id ∈ map wallet_id (wallets (database world)))
    as Hpresent.
  { intros id Hid.
    assert (id = userWalletId context ∨ id = treasuryWalletId context) as [-> | ->].
    { subst source destination. unfold sourceWalletIdOf, destinationWalletIdOf in Hid.
      apply elem_of_cons in Hid as [->|Hid]; [case_decide; tauto|].
      apply elem_of_cons in Hid as [->|Hid]; [case_decide; tauto|].
      by apply elem_of_nil in Hid. }
    - rewrite <- Huid. by apply (list_elem_of_fmap_2 wallet_id).
    - rewrite <- Htid. by apply (list_elem_of_fmap_2 wallet_id). }
  unfold executeMutation. rewrite Hcache, Hcontext. fold source destination.
  destruct (acquireWalletLocks env [source; destination] (lockToken generated)
              (lockStore world)) as [[outcome store1] events].
  simpl in Hlock. subst outcome.
  assert (existsb (λ t, bool_decide (tx_id t = newTransactionId generated
                                     ∨ tx_idempotencyKey t = idempotencyKey input))
                  (transactions (database world)) = false) as Hnone.
  { apply not_true_is_false.
    intros (t & Ht0%list_elem_of_In & Hhit%bool_decide_eq_true)%existsb_exists.
    destruct (Hfresh t Ht0). tauto. }
  set (row := processingRow type input (assetTypeId context) source destination generated).
  set (db1 := withTransactions (database world) (transactions (database world) ++ [row])).
  set (db2 := withLedgerEntries db1 (ledgerEntries db1 ++ [debitOf row; creditOf row])).
  destruct (lockWallets_rows [source; destination] db1 Hnodup Hpresent)
    as (rows & Hlocked & Hrowids & Hrows & Hlength).
  set (db3 := withWallets db2
                (map (λ w, if bool_decide (wallet_id w ∈ map wallet_id rows)
                           then bumped w else w)
                     (wallets db2))).
  assert (walletBalance (userWalletId context) (assetTypeId context) db3 = balance)
    as Hbalance.
  { rewrite (walletBalance_posted _ _ (database world) db3 row) by done.
    subst balance row source destination. simpl.
    unfold sourceWalletIdOf, destinationWalletIdOf.
    repeat case_decide; try tauto; try lia; destruct_and?; congruence. }
  assert (createOrReplayTransaction type input (assetTypeId context) source destination
            generated (database world)
          = (Returned (Created (newTransactionId generated) (newCreatedAt generated)), db1))
    as Hcreate.
  { unfold createOrReplayTransaction, transactionCreate. simpl.
    rewrite decide_False by lia. by rewrite Hnone. }
  assert (bumpWalletVersions (map (λ r, (wallet_id r, wallet_version r)) rows) db2
          = (Returned (), db3)) as Hbump.
  { unfold bumpWalletVersions.
    rewrite (txBind_returned _ _ _ _ _
               (bumpEach_unique rows db2 Hnodup Hrowids
                  (λ r Hr, proj1 (proj1 (Hrows r) Hr)))).
    unfold txLift, assertOptimisticWalletUpdates.
    assert (List.find (λ result : string * Z, negb (snd result =? 1))
                      (map (λ r, (wallet_id r, 1)) rows) = None) as ->; [|done].
    clear. induction rows as [|r rows IH]; [done|exact IH]. }
  assert (mutationTransaction type input context source destination generated
            (database world)
          = (Returned {| statusCode := 200;
                         body := successPayload type input context
                                   (newTransactionId generated) (newCreatedAt generated)
                                   balance source destination;
                         replayed := false |},
             withTransactions db3
               (transactions (database world)
                ++ [setResponse POSTED None 200
                      (successPayload type input context (newTransactionId generated)
                         (newCreatedAt generated) balance source destination) row])))
    as Htx.
  { unfold mutationTransaction.
    rewrite (txBind_returned _ _ _ _ _ Hcreate).
    rewrite (txBind_returned _ _ _ _ _ Hlocked).
    rewrite decide_False by (intros Hne; apply Hne; by rewrite length_map).
    rewrite (txBind_returned _ _ db1
               (walletBalance source (assetTypeId context) (database world)) db1) by done.
    destruct (Z.ltb_spec (walletBalance source (assetTypeId context) (database world))
                (amount input)); [lia|].
    rewrite (txBind_returned _ _ db1 () db2).
    2:{ unfold ledgerEntryCreateMany. simpl forallb.
        by rewrite (proj2 (Z.ltb_lt 0 (amount input)) Hamount). }
    rewrite (txBind_returned _ _ _ _ _ Hbump).
    rewrite (txBind_returned _ _ db3 balance db3)
      by (unfold getWalletBalance; by rewrite Hbalance).
    rewrite (txBind_returned _ _ _ _ _
               (transactionUpdate_last _ _ db3 (transactions (database world)) row
                  eq_refl (λ t Ht0, proj1 (Hfresh t Ht0)) eq_refl)).
    done. }
  unfold prismaTransaction. rewrite Htx.
  eexists. split; [reflexivity|]. simpl. split; [exact Hbalance|].
  apply map_ext_in. intros w Hw%list_elem_of_In.
  destruct (decide (wallet_id w = source ∨ wallet_id w = destination)) as [Hid|Hid].
  - rewrite bool_decide_eq_true_2; [done|].
    apply (list_elem_of_fmap_2 wallet_id). apply Hrows.
    split; [done|]. rewrite !elem_of_cons. tauto.
  - rewrite bool_decide_eq_false_2; [done|].
    intros (r & Heq & Hr)%list_elem_of_fmap. apply Hrows in Hr as [_ Hr].
    rewrite <- Heq in Hr. rewrite !elem_of_cons, elem_of_nil in Hr. tauto.
Qed.

End Ledger.

(** X13: a mutation never leaves a lock behind.  Over the in-memory lock
    client, the lock store after [executeMutation] is the lock store before
    it, whether the mutation posts, is refused, replays or throws: the keys
    of a blocked attempt are released by the lock service, and the keys of a
    successful acquisition by the [finally] of the mutation. *)
Theorem executeMutation_releases_locks {collator : Collator} (env : Env)
    (type : TransactionType) (input : WalletMutationRequest) (generated : Generated)
    (world : World (gmap string string)) :
  lockStore (snd (@executeMutation collator _ InMemoryLockClient env
                    type input generated world))
  = lockStore world.
Proof.
  unfold executeMutation.
  destruct (cacheGet (idempotencyKey input) (cache world)) as [cached|];
    [by case_decide|].
  destruct (resolveContext _ _ _) as [context|]; [|done].
  unfold acquireWalletLocks. case_decide as Hempty; [done|].
  destruct (inMemory_attemptLoop env (Z.to_nat (distributedLockRetryCount env)) 1
              (toWalletLockKeys [sourceWalletIdOf type context;
                                 destinationWalletIdOf type context])
              (lockToken generated) (lockStore world) (toWalletLockKeys_NoDup _))
    as (outcome & store1 & events & -> & [(Hfree & _ & -> & ->)|(_ & -> & ->)]); [|done].
  assert (@release _ InMemoryLockClient
            {| heldKeys := toWalletLockKeys [sourceWalletIdOf type context;
                                             destinationWalletIdOf type context];
               heldToken := lockToken generated |}
            (withLocks (toWalletLockKeys [sourceWalletIdOf type context;
                                          destinationWalletIdOf type context])
                       (lockToken generated) (lockStore world))
          = lockStore world) as Hreleased
    by (apply inMemory_releaseLocks; [apply toWalletLockKeys_NoDup|done]).
  by destruct (prismaTransaction _ _) as [[result|error] db1].
Qed.


(** A topup with a non-positive amount: the CHECK constraint on the amount
    throws, and the database and the cache are as before. *)
Lemma executeMutation_throw_rolls_back_witness :
  database (snd (@executeMutation rootCollator _ InMemoryLockClient defaultEnv
                   TOPUP (aliceRequest 0 "key-5") (drawn "5") seededWorld))
  = seededDatabase.
Proof.
  apply (@executeMutation_throw_rolls_back rootCollator _ InMemoryLockClient defaultEnv
           TOPUP (aliceRequest 0 "key-5") (drawn "5") seededWorld
           (snd (@executeMutation rootCollator _ InMemoryLockClient defaultEnv
                   TOPUP (aliceRequest 0 "key-5") (drawn "5") seededWorld))
           (OtherError "transactions_amount_positive_chk")).
  vm_compute. reflexivity.
Defined.

(** ** Claim C5: the two sides of a mutation *)

Section Counterparty.
Context {collator : Collator} {Store : Type} {lockClient : LockClient Store}.
Variable env : Env.

End Counterparty.


(** ** The optimistic check on the wallet versions *)

Lemma length_filter_map_same {A} (p : A → bool) (f : A → A) (l : list A) :
  (∀ x, p (f x) = p x) →
  length (List.filter p (map f l)) = length (List.filter p l).
Proof.
  intros Hsame. induction l as [|x l IH]; [done|]. simpl. rewrite Hsame.
  destruct (p x); simpl; by rewrite IH.
Qed.

Lemma bumpEach_counts (lockedWallets : list (string * Z)) (db : Database) :
  NoDup (map fst lockedWallets) →
  fst (bumpEach lockedWallets db)
  = Returned
      (map (λ wallet,
              (fst wallet,
               Z.of_nat (length (List.filter
                                   (λ w, bool_decide (wallet_id w = fst wallet
                                                      ∧ wallet_version w = snd wallet))
                                   (wallets db)))))
           lockedWallets).
Proof.
  revert db. induction lockedWallets as [|wallet rest IH]; intros db Hnodup; [done|].
  simpl in Hnodup. apply NoDup_cons in Hnodup as [Hfirst Hnodup].
  cbn [bumpEach]. unfold txBind at 1, walletUpdateMany at 1.
  unfold txBind at 1.
  match goal with
  | |- context [bumpEach rest ?d] => specialize (IH d Hnodup); destruct (bumpEach rest d)
                                       as [[updates|error] db2]
  end; [|done].
  simpl in IH. injection IH as ->. unfold txReturn. simpl. do 2 f_equal.
  apply map_ext_in. intros other Hother%list_elem_of_In. do 2 f_equal.
  apply length_filter_map_same. intros w.
  destruct (bool_decide (wallet_id w = fst wallet ∧ wallet_version w = snd wallet))
    eqn:Hhit; [|done].
  apply bool_decide_eq_true in Hhit as [Hhit _]. simpl.
  assert (wallet_id w ≠ fst other) as Hne.
  { intros Hid. apply Hfirst. rewrite <- Hhit, Hid. by apply (list_elem_of_fmap_2 fst). }
  rewrite !bool_decide_eq_false_2; [done|tauto..].
Qed.

Lemma matching_rows (db : Database) (id : string) (version : Z) :
  NoDup (map wallet_id (wallets db)) →
  let count :=
    length (List.filter (λ w, bool_decide (wallet_id w = id ∧ wallet_version w = version))
                        (wallets db)) in
  let current := ∃ w, w ∈ wallets db ∧ wallet_id w = id ∧ wallet_version w = version in
  (count = 1%nat ∧ current) ∨ (count = 0%nat ∧ ¬ current).
Proof.
  intros Hnodup count current. subst count current.
  destruct (List.filter _ (wallets db)) as [|row rows] eqn:Hfilter.
  - right. split; [done|]. intros (w & Hw & Hid & Hversion).
    assert (w ∈ List.filter (λ w, bool_decide (wallet_id w = id ∧ wallet_version w = version))
                            (wallets db)) as Hin
      by (apply list_elem_of_In, filter_In; split;
          [by apply list_elem_of_In|by apply bool_decide_eq_true]).
    rewrite Hfilter in Hin. by apply elem_of_nil in Hin.
  - assert (row ∈ wallets db ∧ wallet_id row = id ∧ wallet_version row = version)
      as (Hrow & <- & <-).
    { assert (row ∈ row :: rows) as Hin by (by left). rewrite <- Hfilter in Hin.
      by apply list_elem_of_In, filter_In in Hin
        as [?%list_elem_of_In ?%bool_decide_eq_true]. }
    left. split; [|by exists row]. rewrite <- Hfilter.
    pose proof (walletUpdateMany_unique db row Hnodup Hrow) as Hcount.
    unfold walletUpdateMany in Hcount. injection Hcount as Hcount _. lia.
Qed.



(** ** The balance query and the balances of the ledger *)

Lemma list_filter_bind {A B} (p : B → bool) (f : A → list B) (l : list A) :
  List.filter p (l ≫= f) = l ≫= (λ x, List.filter p (f x)).
Proof.
  induction l as [|x l IH]; [done|].
  change (List.filter p (f x ++ l ≫= f) = List.filter p (f x) ++ l ≫= (λ x, List.filter p (f x))).
  by rewrite List.filter_app, IH.
Qed.

Lemma list_bind_unique {A B} (f : A → list B) (l : list A) (x : A) :
  NoDup l → x ∈ l → (∀ y, y ∈ l → y ≠ x → f y = []) → l ≫= f = f x.
Proof.
  induction l as [|z l IH]; intros Hnodup Hx Hothers; [by apply elem_of_nil in Hx|].
  apply NoDup_cons in Hnodup as [Hz Hnodup].
  change (f z ++ l ≫= f = f x).
  apply elem_of_cons in Hx as [->|Hx].
  - assert (l ≫= f = []) as ->; [|by rewrite app_nil_r].
    clear IH Hnodup. induction l as [|y l IH]; [done|].
    change (f y ++ l ≫= f = []).
    rewrite (Hothers y); [|right; by left|intros ->; apply Hz; by left].
    apply IH.
    + intros Hin. apply Hz. by right.
    + intros y' Hy'. apply Hothers. apply elem_of_cons in Hy' as [->|Hy']; [by left|].
      right. by right.
  - rewrite (Hothers z); [|by left|by intros ->]. simpl. apply IH; [done..|].
    intros y Hy. apply Hothers. by right.
Qed.

Lemma remove_dups_constant {A} `{EqDecision A} (l : list A) (k : A) :
  (∀ x, x ∈ l → x = k) → l ≠ [] → remove_dups l = [k].
Proof.
  induction l as [|x l IH]; intros Hall Hne; [done|]. simpl.
  assert (x = k) as -> by (apply Hall; by left).
  destruct l as [|y l]; [done|].
  assert (y = k) as -> by (apply Hall; right; by left).
  destruct (decide_rel elem_of k (k :: l)) as [_|Hnotin]; [|destruct Hnotin; by left].
  apply IH; [|done]. intros x Hx. apply Hall. by right.
Qed.

Lemma walletRows_balance (w : Wallet) (a : AssetType) (db : Database) :
  coalesce (sqlSum (map (λ '(_, _, le), signedAmount <$> le) (walletRows w a db))) 0
  = walletBalance (wallet_id w) (wallet_assetTypeId w) db.
Proof.
  unfold walletRows, walletBalance.
  destruct (List.filter _ (ledgerEntries db)) as [|e entries]; [done|].
  by rewrite map_map.
Qed.

Lemma walletRows_nonempty (w : Wallet) (a : AssetType) (db : Database) :
  walletRows w a db ≠ [].
Proof. unfold walletRows. by destruct (List.filter _ (ledgerEntries db)). Qed.

Lemma walletRows_elem_of (w : Wallet) (a : AssetType) (db : Database) (row : JoinedRow) :
  row ∈ walletRows w a db → fst (fst row) = w ∧ snd (fst row) = a.
Proof.
  unfold walletRows. destruct (List.filter _ (ledgerEntries db)) as [|e entries].
  - by intros ->%list_elem_of_singleton.
  - by intros (le & -> & _)%list_elem_of_fmap.
Qed.

Lemma balanceJoin_elem_of (db : Database) (userId : string) (assetFilter : option string)
    (row : JoinedRow) :
  row ∈ balanceJoin userId assetFilter db →
  ∃ w0 a0, row ∈ walletRows w0 a0 db
           ∧ w0 ∈ wallets db ∧ wallet_ownerType w0 = USER ∧ wallet_userId w0 = Some userId
           ∧ a0 ∈ assetTypes db ∧ asset_id a0 = wallet_assetTypeId w0
           ∧ (∀ code, assetFilter = Some code → asset_code a0 = code).
Proof.
  unfold balanceJoin. intros (w0 & Hrow & Hw0)%list_elem_of_bind.
  apply list_elem_of_bind in Hrow as (a0 & Hrow & Ha0).
  apply list_elem_of_In, filter_In in Hw0
    as [Hw0%list_elem_of_In [Howner Huser]%bool_decide_eq_true].
  apply list_elem_of_In, filter_In in Ha0
    as [Ha0%list_elem_of_In [Hid%bool_decide_eq_true Hcode]%andb_prop].
  exists w0, a0. split_and!; try done.
  intros code ->. by apply bool_decide_eq_true in Hcode.
Qed.

Section BalanceQuery.
Variables (db : Database) (userId : string) (w : Wallet) (a : AssetType).
Hypothesis wallet_ids : NoDup (map wallet_id (wallets db)).
Hypothesis asset_ids : NoDup (map asset_id (assetTypes db)).
Hypothesis wallet_index : uniqueUserWalletIndex db = true.
Hypothesis code_index : uniqueAssetCodeIndex db = true.
Hypothesis w_in : w ∈ wallets db.
Hypothesis w_owner : wallet_ownerType w = USER.
Hypothesis w_user : wallet_userId w = Some userId.
Hypothesis a_in : a ∈ assetTypes db.
Hypothesis a_id : asset_id a = wallet_assetTypeId w.
Variable assetFilter : option string.
Hypothesis filter_ok : ∀ code, assetFilter = Some code → code = asset_code a.

Lemma same_asset_same_wallet (w0 : Wallet) (a0 : AssetType) :
  w0 ∈ wallets db → wallet_ownerType w0 = USER → wallet_userId w0 = Some userId →
  a0 ∈ assetTypes db → asset_id a0 = wallet_assetTypeId w0 →
  asset_code a0 = asset_code a →
  a0 = a ∧ w0 = w.
Proof.
  intros Hw0 Howner Huser Ha0 Hid Hcode.
  pose proof (forallb_pair _ _ a0 a code_index Ha0 a_in) as Hidx. simpl in Hidx.
  rewrite (bool_decide_eq_true_2 _ Hcode) in Hidx. simpl in Hidx.
  apply bool_decide_eq_true in Hidx.
  pose proof (NoDup_map_eq asset_id _ a0 a asset_ids Ha0 a_in Hidx) as ->.
  split; [done|].
  pose proof (forallb_pair _ _ w0 w wallet_index Hw0 w_in) as Hwidx. simpl in Hwidx.
  rewrite bool_decide_eq_true_2 in Hwidx by (split_and!; congruence).
  simpl in Hwidx. apply bool_decide_eq_true in Hwidx.
  by apply (NoDup_map_eq wallet_id _ w0 w wallet_ids Hw0 w_in).
Qed.

Lemma balanceJoin_group :
  List.filter (λ '(_, a0, _),
                 bool_decide ((asset_code a0, asset_name a0) = (asset_code a, asset_name a)))
              (balanceJoin userId assetFilter db)
  = walletRows w a db.
Proof.
  set (inGroup := (λ '(_, a0, _), bool_decide ((asset_code a0, asset_name a0)
                                               = (asset_code a, asset_name a)))
                  : JoinedRow → bool).
  assert (∀ w0 a0, List.filter inGroup (walletRows w0 a0 db)
                   = if decide (asset_code a0 = asset_code a ∧ asset_name a0 = asset_name a)
                     then walletRows w0 a0 db else []) as Hrows.
  { intros w0 a0. unfold walletRows.
    destruct (List.filter _ (ledgerEntries db)) as [|e entries].
    - simpl. case_decide as Hkey.
      + by rewrite bool_decide_eq_true_2 by (destruct Hkey; congruence).
      + rewrite bool_decide_eq_false_2; [done|]. intros [= ? ?]. tauto.
    - generalize (e :: entries) as l. intros l. induction l as [|le l IH].
      + by case_decide.
      + simpl. rewrite IH. case_decide as Hkey.
        * by rewrite bool_decide_eq_true_2 by (destruct Hkey; congruence).
        * rewrite bool_decide_eq_false_2; [done|]. intros [= ? ?]. tauto. }
  unfold balanceJoin. rewrite list_filter_bind.
  rewrite (list_bind_unique _ _ w).
  - rewrite list_filter_bind. rewrite (list_bind_unique _ _ a).
    + change (List.filter inGroup (walletRows w a db) = walletRows w a db).
      rewrite Hrows. by rewrite decide_True.
    + apply (NoDup_fmap_1 asset_id). by apply NoDup_map_filter.
    + apply list_elem_of_In, filter_In. split; [by apply list_elem_of_In|].
      rewrite (bool_decide_eq_true_2 _ a_id). simpl.
      destruct assetFilter as [code|] eqn:Hfilter; [|done].
      apply bool_decide_eq_true. by rewrite (filter_ok code).
    + intros a0 [Ha0%list_elem_of_In [Hid%bool_decide_eq_true _]%andb_prop]%list_elem_of_In%filter_In
             Hne.
      destruct Hne. apply (NoDup_map_eq asset_id _ a0 a asset_ids Ha0 a_in). congruence.
  - apply (NoDup_fmap_1 wallet_id). by apply NoDup_map_filter.
  - apply list_elem_of_In, filter_In. split; [by apply list_elem_of_In|].
    by apply bool_decide_eq_true.
  - intros w0 [Hw0%list_elem_of_In [Howner Huser]%bool_decide_eq_true]%list_elem_of_In%filter_In
           Hne.
    rewrite list_filter_bind. apply elem_of_nil_inv. intros row (a0 & Hrow & Ha0)%list_elem_of_bind.
    apply list_elem_of_In, filter_In in Ha0
      as [Ha0%list_elem_of_In [Hid%bool_decide_eq_true _]%andb_prop].
    change (row ∈ List.filter inGroup (walletRows w0 a0 db)) in Hrow.
    rewrite Hrows in Hrow.
    case_decide as Hkey; [|by apply elem_of_nil in Hrow].
    destruct Hkey as [Hcode _].
    by destruct (same_asset_same_wallet w0 a0 Hw0 Howner Huser Ha0 Hid Hcode) as [_ ?].
Qed.

Lemma userBalanceRows_wallet :
  (asset_code a, asset_name a, walletBalance (wallet_id w) (asset_id a) db)
  ∈ userBalanceRows userId assetFilter db.
Proof.
  unfold userBalanceRows. rewrite arraySort_elem_of.
  apply (list_elem_of_fmap_2' _ _ (asset_code a, asset_name a)).
  - apply elem_of_remove_dups.
    assert (∃ row, row ∈ walletRows w a db) as [row Hrow]
      by (pose proof (walletRows_nonempty w a db); destruct (walletRows w a db) as [|r ?];
          [done|exists r; by left]).
    apply (list_elem_of_fmap_2' (λ '(_, a0, _), (asset_code a0, asset_name a0)) _ row).
    + rewrite <- balanceJoin_group in Hrow.
      by apply list_elem_of_In, filter_In in Hrow as [?%list_elem_of_In _].
    + apply walletRows_elem_of in Hrow as [_ Ha]. destruct row as [[w0 a0] le].
      simpl in Ha. by subst a0.
  - f_equal. rewrite balanceJoin_group, walletRows_balance. by rewrite a_id.
Qed.

Lemma userBalanceRows_filtered (code : string) :
  assetFilter = Some code →
  userBalanceRows userId assetFilter db
  = [(asset_code a, asset_name a, walletBalance (wallet_id w) (asset_id a) db)].
Proof.
  intros Hfilter.
  assert (remove_dups (map (λ '(_, a0, _), (asset_code a0, asset_name a0))
                           (balanceJoin userId assetFilter db))
          = [(asset_code a, asset_name a)]) as Hgroups.
  { apply remove_dups_constant.
    - intros key ([[w0 a0] le] & -> & Hrow)%list_elem_of_fmap.
      apply balanceJoin_elem_of in Hrow
        as (w1 & a1 & Hrow & Hw1 & Howner & Huser & Ha1 & Hid & Hcode).
      apply walletRows_elem_of in Hrow as [Hw Ha]. simpl in Hw, Ha. subst w1 a1.
      assert (asset_code a0 = asset_code a) as Hsame
        by (rewrite (Hcode code Hfilter); by apply filter_ok).
      by destruct (same_asset_same_wallet w0 a0 Hw1 Howner Huser Ha1 Hid Hsame) as [-> _].
    - intros Hempty. pose proof balanceJoin_group as Hgroup.
      rewrite (map_eq_nil _ _ Hempty) in Hgroup. simpl in Hgroup.
      by apply (walletRows_nonempty w a db). }
  unfold userBalanceRows. rewrite Hgroups. simpl.
  rewrite balanceJoin_group, walletRows_balance. by rewrite a_id.
Qed.
End BalanceQuery.

(** X7: the balance query reports the balances of the ledger.  In a database
    that satisfies the primary keys and unique indexes of the schema, for
    every wallet that a user owns the unfiltered answer of [getBalance] has
    the item of the wallet's asset with exactly the balance that the mutation
    engine derives for that wallet ([getWalletBalance]); and the answer
    filtered by the asset's code, in whatever case it is written, is that one
    item. *)
Theorem getBalance_reports_wallet_balance (db : Database) (userId : string)
    (w : Wallet) (a : AssetType) (code : string) :
  NoDup (map wallet_id (wallets db)) →
  NoDup (map asset_id (assetTypes db)) →
  uniqueUserWalletIndex db = true →
  uniqueAssetCodeIndex db = true →
  userId ∈ users db →
  w ∈ wallets db →
  wallet_ownerType w = USER →
  wallet_userId w = Some userId →
  a ∈ assetTypes db →
  asset_id a = wallet_assetTypeId w →
  toUpperCase code = asset_code a →
  asset_code a ≠ "" →
  let item := balanceItem a (walletBalance (wallet_id w) (asset_id a) db) in
  (∃ response,
     getBalance userId None db = Returned response
     ∧ response_userId response = userId
     ∧ item ∈ balances response)
  ∧ getBalance userId (Some code) db
    = Returned {| response_userId := userId; balances := [item] |}.
Proof.
  intros Hwallets Hassets Hwindex Hcindex Huser Hw Howner Hwuser Ha Hid Hcode Hnonempty item.
  assert (existsb (λ u, bool_decide (u = userId)) (users db) = true) as Hknown.
  { apply existsb_exists. exists userId. split; [by apply list_elem_of_In|].
    by apply bool_decide_eq_true. }
  split.
  - unfold getBalance. rewrite Hknown. simpl. eexists. split_and!; [reflexivity|done|].
    simpl.
    apply (list_elem_of_fmap_2' _ _
             (asset_code a, asset_name a, walletBalance (wallet_id w) (asset_id a) db));
      [|done].
    by apply (userBalanceRows_wallet db userId w a).
  - unfold getBalance. rewrite Hknown. simpl. rewrite Hcode.
    rewrite decide_False by done.
    by rewrite (userBalanceRows_filtered db userId w a Hwallets Hassets Hwindex Hcindex
                  Hw Howner Hwuser Ha Hid (Some (asset_code a))
                  ltac:(by intros ? [= <-]) (asset_code a) eq_refl).
Qed.

(** Alice's gold wallet on the example database holds 1000. *)
Lemma getBalance_reports_wallet_balance_witness :
  getBalance "alice" (Some "gold_coins") seededDatabase
  = Returned {| response_userId := "alice";
                balances := [ {| item_assetCode := "GOLD_COINS";
                                 item_assetName := "Gold Coins";
                                 item_balance := "1000" |} ] |}.
Proof.
  apply (getBalance_reports_wallet_balance seededDatabase "alice"
           {| wallet_id := "w-alice-gold"; wallet_userId := Some "alice";
              wallet_ownerType := USER; wallet_systemCode := None;
              wallet_assetTypeId := "a-gold"; wallet_version := 0 |}
           {| asset_id := "a-gold"; asset_code := "GOLD_COINS"; asset_name := "Gold Coins" |}
           "gold_coins");
    try reflexivity; try discriminate;
    try (apply (bool_decide_unpack _); vm_compute; exact I).
  - do 2 right. by left.
  - by left.
Defined.

(** What the query answers when it finds no user or no wallet, on ids as the
    tables hold them. *)
Lemma getBalance_nothing_to_report (db : Database) (userId code : string)
    (assetCode : option string) :
  (userId ∉ users db →
     getBalance userId assetCode db
     = Thrown (AppError 404 "USER_NOT_FOUND" "User does not exist"))
  ∧ (userId ∈ users db →
     toUpperCase code ≠ "" →
     (∀ w a, w ∈ wallets db → a ∈ assetTypes db →
             wallet_ownerType w = USER → wallet_userId w = Some userId →
             asset_id a = wallet_assetTypeId w → asset_code a ≠ toUpperCase code) →
     getBalance userId (Some code) db
     = Thrown (AppError 404 "ASSET_WALLET_NOT_FOUND"
                 ("User does not have a wallet for asset " +:+ toUpperCase code)))
  ∧ (userId ∈ users db →
     (∀ w, w ∈ wallets db → ¬ (wallet_ownerType w = USER ∧ wallet_userId w = Some userId)) →
     getBalance userId None db
     = Returned {| response_userId := userId; balances := [] |})
  ∧ getBalance userId (Some "") db = getBalance userId None db.
Proof.
  assert (userId ∈ users db →
          existsb (λ u, bool_decide (u = userId)) (users db) = true) as Hknown.
  { intros Huser. apply existsb_exists. exists userId.
    split; [by apply list_elem_of_In|]. by apply bool_decide_eq_true. }
  assert (∀ assetFilter, balanceJoin userId assetFilter db = [] →
                         userBalanceRows userId assetFilter db = []) as Hempty
    by (intros assetFilter Hjoin; unfold userBalanceRows; by rewrite Hjoin).
  split_and!.
  - intros Hunknown. unfold getBalance.
    assert (existsb (λ u, bool_decide (u = userId)) (users db) = false) as ->; [|done].
    apply not_true_is_false.
    intros (u & Hu%list_elem_of_In & ->%bool_decide_eq_true)%existsb_exists. done.
  - intros Huser Hcode Hnone. unfold getBalance. rewrite (Hknown Huser). simpl.
    rewrite decide_False by done. rewrite Hempty; [done|].
    apply elem_of_nil_inv. intros row Hrow.
    apply balanceJoin_elem_of in Hrow
      as (w & a & _ & Hw & Howner & Hwuser & Ha & Hid & Hfilter).
    by apply (Hnone w a Hw Ha Howner Hwuser Hid), Hfilter.
  - intros Huser Hnone. unfold getBalance. rewrite (Hknown Huser). simpl.
    rewrite Hempty; [done|].
    apply elem_of_nil_inv. intros row Hrow.
    apply balanceJoin_elem_of in Hrow as (w & a & _ & Hw & Howner & Hwuser & _).
    by apply (Hnone w Hw).
  - done.
Qed.



(** ** The context of a mutation *)

Lemma find_none_elem_of {A} (f : A → bool) (l : list A) :
  (∀ x, x ∈ l → f x = false) → List.find f l = None.
Proof.
  intros Hnone. destruct (List.find f l) as [x|] eqn:Hfind; [|done].
  apply find_some in Hfind as [Hx%list_elem_of_In Hfx]. rewrite (Hnone x Hx) in Hfx. done.
Qed.

Lemma find_some_exists {A} (f : A → bool) (l : list A) (x : A) :
  x ∈ l → f x = true → ∃ y, List.find f l = Some y.
Proof.
  intros Hx Hfx. destruct (List.find f l) as [y|] eqn:Hfind; [by exists y|].
  apply list_elem_of_In in Hx. by rewrite (find_none _ _ Hfind x Hx) in Hfx.
Qed.

(** How [resolveContext] fails, on ids as the tables hold them. *)
Lemma resolveContext_failures {collator : Collator} {Store : Type}
    {lockClient : LockClient Store} (env : Env) (user code : string)
    (db : Database) :
  ((∀ a, a ∈ assetTypes db → asset_code a ≠ toUpperCase code) →
     resolveContext user code db
     = Thrown (AppError 404 "ASSET_TYPE_NOT_FOUND" ("Unknown asset code: " +:+ code)))
  ∧ (∀ a, uniqueAssetCodeIndex db = true →
          a ∈ assetTypes db → asset_code a = toUpperCase code →
          let userWallet w := isUserWalletOf user (asset_id a) w in
          let treasuryWallet w := isTreasuryWalletOf (asset_id a) w in
          ((∀ w, w ∈ wallets db → ¬ userWallet w) →
             resolveContext user code db
             = Thrown (AppError 404 "USER_WALLET_NOT_FOUND"
                         ("Wallet for user " +:+ user +:+ " and asset "
                          +:+ toUpperCase code +:+ " does not exist")))
          ∧ ((∃ w, w ∈ wallets db ∧ userWallet w) →
             (∀ w, w ∈ wallets db → ¬ treasuryWallet w) →
             resolveContext user code db
             = Thrown (AppError 500 "TREASURY_WALLET_NOT_CONFIGURED"
                         ("Treasury wallet missing for asset " +:+ toUpperCase code)))
          ∧ ((∃ w, w ∈ wallets db ∧ userWallet w) →
             (∃ w, w ∈ wallets db ∧ treasuryWallet w) →
             ∃ context, resolveContext user code db = Returned context))
  ∧ (∀ type input generated (world : World Store) error,
       cacheGet (idempotencyKey input) (cache world) = None →
       resolveContext (userId input) (assetCode input)
         (database world) = Thrown error →
       executeMutation env type input generated world = (Thrown error, world)).
Proof.
  split_and!.
  - intros Hnone. unfold resolveContext. rewrite find_none_elem_of; [done|].
    intros a Ha. apply bool_decide_eq_false. by apply Hnone.
  - intros a Hindex Ha Hcode userWallet treasuryWallet. unfold resolveContext.
    destruct (List.find _ (assetTypes db)) as [found|] eqn:Hfind.
    2:{ apply list_elem_of_In in Ha.
        pose proof (find_none _ _ Hfind a Ha) as Hno. simpl in Hno.
        by rewrite bool_decide_eq_true_2 in Hno. }
    apply find_some_elem_of in Hfind as [Hfound Hfcode%bool_decide_eq_true].
    assert (asset_id found = asset_id a) as Hid.
    { pose proof (forallb_pair _ _ found a Hindex Hfound Ha) as Hidx. simpl in Hidx.
      rewrite bool_decide_eq_true_2 in Hidx by congruence.
      by apply bool_decide_eq_true in Hidx. }
    rewrite Hid, Hfcode. split_and!.
    + intros Hnone. rewrite find_none_elem_of; [done|].
      intros w Hw. apply bool_decide_eq_false. by apply Hnone.
    + intros (w & Hw & Huser) Hnone.
      destruct (find_some_exists
                  (λ w, bool_decide (wallet_ownerType w = USER ∧ wallet_userId w = Some user
                                     ∧ wallet_assetTypeId w = asset_id a))
                  (wallets db) w Hw (bool_decide_eq_true_2 _ Huser)) as [u ->].
      rewrite find_none_elem_of; [done|].
      intros w' Hw'. apply bool_decide_eq_false. by apply Hnone.
    + intros (w & Hw & Huser) (t & Ht & Htreasury).
      destruct (find_some_exists
                  (λ w, bool_decide (wallet_ownerType w = USER ∧ wallet_userId w = Some user
                                     ∧ wallet_assetTypeId w = asset_id a))
                  (wallets db) w Hw (bool_decide_eq_true_2 _ Huser)) as [u ->].
      destruct (find_some_exists
                  (λ w, bool_decide (wallet_ownerType w = SYSTEM
                                     ∧ wallet_systemCode w = Some TREASURY_SYSTEM_CODE
                                     ∧ wallet_assetTypeId w = asset_id a))
                  (wallets db) t Ht (bool_decide_eq_true_2 _ Htreasury)) as [s ->].
      by eexists.
  - intros type input generated world error Hcache Hcontext.
    unfold executeMutation. by rewrite Hcache, Hcontext.
Qed.


(** ** What a mutation never touches *)

Lemma walletsEvolve_refl (rows : list Wallet) : walletsEvolve rows rows.
Proof. unfold walletsEvolve. induction rows; constructor; [split; [done|lia]|done]. Qed.

Lemma walletsEvolve_trans (rows1 rows2 rows3 : list Wallet) :
  walletsEvolve rows1 rows2 → walletsEvolve rows2 rows3 → walletsEvolve rows1 rows3.
Proof.
  unfold walletsEvolve. intros H12. revert rows3.
  induction H12 as [|w1 w2 rows1 rows2 [Hid Hversion] _ IH]; intros rows3 H23.
  - by apply Forall2_nil_inv_l in H23 as ->.
  - apply Forall2_cons_inv_l in H23 as (w3 & rest & [Hid' Hversion'] & H23 & ->).
    constructor; [split; [congruence|lia]|by apply IH].
Qed.

Lemma walletUpdateMany_evolve (id : string) (version : Z) (db : Database) :
  walletsEvolve (wallets db) (wallets (snd (walletUpdateMany id version db))).
Proof.
  unfold walletUpdateMany, walletsEvolve. simpl.
  induction (wallets db) as [|w rows IH]; simpl; constructor; [|exact IH].
  destruct (bool_decide _); simpl; split; try done; lia.
Qed.

Lemma bumpEach_evolve (lockedWallets : list (string * Z)) (db : Database) :
  walletsEvolve (wallets db) (wallets (snd (bumpEach lockedWallets db))).
Proof.
  revert db. induction lockedWallets as [|wallet rest IH]; intros db.
  - apply walletsEvolve_refl.
  - cbn [bumpEach]. unfold txBind at 1.
    pose proof (walletUpdateMany_evolve (fst wallet) (snd wallet) db) as Hfirst.
    destruct (walletUpdateMany (fst wallet) (snd wallet) db) as [[count|error] db1] eqn:Hupdate;
      [|done].
    simpl in Hfirst. unfold txBind at 1. specialize (IH db1).
    destruct (bumpEach rest db1) as [[updates|error] db2]; simpl in *;
      by apply (walletsEvolve_trans _ (wallets db1)).
Qed.

Lemma bumpWalletVersions_evolve (lockedWallets : list (string * Z)) (db db1 : Database)
    (outcome : Outcome unit) :
  bumpWalletVersions lockedWallets db = (outcome, db1) →
  walletsEvolve (wallets db) (wallets db1).
Proof.
  unfold bumpWalletVersions, txBind, txLift.
  pose proof (bumpEach_evolve lockedWallets db) as Hevolve.
  destruct (bumpEach lockedWallets db) as [[updates|error] db2]; simpl in *;
    by intros [= _ <-].
Qed.

Section AppendOnly.
Context {collator : Collator} {Store : Type} {lockClient : LockClient Store}.
Variable env : Env.

Lemma mutationTransaction_evolve type input context source destination generated
    db outcome db' :
  mutationTransaction type input context source destination generated db = (outcome, db') →
  walletsEvolve (wallets db) (wallets db').
Proof.
  unfold mutationTransaction, txBind at 1.
  destruct (createOrReplayTransaction type input (assetTypeId context) source destination
              generated db) as [[[transactionId createdAt|replay]|error] db1] eqn:Hcreate.
  - apply createOrReplayTransaction_created in Hcreate as (_ & _ & _ & _ & ->).
    unfold txBind at 1, lockWallets at 1.
    case_decide; [intros [= _ <-]; apply walletsEvolve_refl|].
    unfold txBind at 1, getWalletBalance at 1.
    destruct (_ <? _).
    + unfold txBind at 1, transactionUpdate at 1. simpl.
      destruct (existsb _ _); intros [= _ <-]; apply walletsEvolve_refl.
    + unfold txBind at 1, ledgerEntryCreateMany at 1.
      destruct (forallb _ _); [|intros [= _ <-]; apply walletsEvolve_refl].
      unfold txBind at 1.
      match goal with
      | |- context [bumpWalletVersions ?l ?d] =>
          destruct (bumpWalletVersions l d) as [[[]|error] db2] eqn:Hbump;
          apply bumpWalletVersions_evolve in Hbump
      end; [|by intros [= _ <-]].
      unfold txBind at 1, getWalletBalance at 1.
      unfold txBind at 1, transactionUpdate at 1. simpl.
      destruct (existsb _ _); by intros [= _ <-].
  - apply createOrReplayTransaction_replay in Hcreate as [_ ->].
    intros [= _ <-]. apply walletsEvolve_refl.
  - assert (db1 = db) as ->.
    { revert Hcreate. unfold createOrReplayTransaction, transactionCreate, txBind,
        inFailedTransaction, txThrow, txReturn.
      repeat case_match; congruence. }
    intros [= _ <-]. apply walletsEvolve_refl.
Qed.

(** X21: a mutation never changes who owns what.  Whatever its type and
    outcome, [executeMutation] leaves the users and the asset types as they
    were, and the wallet table keeps its rows, in order, with the same id,
    owner, system code and asset; only versions change, and they never go
    down.  In particular the wallet ids stay unique when they were. *)
Theorem executeMutation_keeps_wallet_identities (type : TransactionType)
    (input : WalletMutationRequest) (generated : Generated) (world : World Store) :
  let before := database world in
  let after := database (snd (executeMutation env type input generated world)) in
  users after = users before
  ∧ assetTypes after = assetTypes before
  ∧ walletsEvolve (wallets before) (wallets after)
  ∧ map walletIdentity (wallets after) = map walletIdentity (wallets before)
  ∧ (NoDup (map wallet_id (wallets before)) → NoDup (map wallet_id (wallets after))).
Proof.
  intros before after.
  assert (users after = users before ∧ assetTypes after = assetTypes before
          ∧ walletsEvolve (wallets before) (wallets after)) as (Husers & Hassets & Hevolve).
  { subst before after.
    destruct (executeMutation env type input generated world) as [outcome world'] eqn:Hrun.
    simpl.
    destruct (executeMutation_database env _ _ _ _ _ _ Hrun)
      as [->|(result & -> & Hreplayed)];
      [split_and!; [done..|apply walletsEvolve_refl]|].
    apply executeMutation_fresh in Hrun as (context & _ & _ & Htx); [|done].
    pose proof (mutationTransaction_evolve _ _ _ _ _ _ _ _ _ Htx) as Hevolve.
    apply mutationTransaction_fresh in Htx as (_ & _ & Husers & Hassets & _); done. }
  assert (map walletIdentity (wallets after) = map walletIdentity (wallets before))
    as Hidentity.
  { clear -Hevolve. unfold walletsEvolve in Hevolve.
    induction Hevolve as [|w w' rows rows' [Hid _] _ IH]; [done|]. simpl. by rewrite Hid, IH. }
  split_and!; try done.
  assert (map wallet_id (wallets after) = map wallet_id (wallets before)) as ->; [|done].
  assert (∀ rows, map wallet_id rows = map (λ i, fst (fst (fst (fst i)))) (map walletIdentity rows))
    as Hids by (intros rows; rewrite map_map; done).
  by rewrite (Hids (wallets after)), (Hids (wallets before)), Hidentity.
Qed.

(** X22: the books are append-only.  Whatever its type and outcome,
    [executeMutation] deletes and rewrites no transaction row and no ledger
    entry that was there before: the table of transactions after the call is
    the table before it followed by at most one row, and the ledger after the
    call is the ledger before it followed by no entry or by the two entries of
    that row. *)
Theorem executeMutation_appends (type : TransactionType)
    (input : WalletMutationRequest) (generated : Generated) (world : World Store) :
  let before := database world in
  let after := database (snd (executeMutation env type input generated world)) in
  (transactions after = transactions before ∧ ledgerEntries after = ledgerEntries before)
  ∨ ∃ t, transactions after = transactions before ++ [t]
         ∧ tx_id t = newTransactionId generated
         ∧ (ledgerEntries after = ledgerEntries before
            ∨ ledgerEntries after = ledgerEntries before ++ [debitOf t; creditOf t]).
Proof.
  intros before after. subst before after.
  destruct (executeMutation env type input generated world) as [outcome world'] eqn:Hrun.
  simpl.
  destruct (executeMutation_database env _ _ _ _ _ _ Hrun)
    as [->|(result & -> & Hreplayed)]; [by left|].
  apply executeMutation_fresh in Hrun as (context & _ & _ & Htx); [|done].
  apply mutationTransaction_fresh in Htx as (_ & _ & _ & _ & Hcases); [|done].
  right. destruct Hcases as [(_ & _ & _ & Hledger & Htxs)|(_ & _ & Hledger & Htxs)];
    eexists; (split; [exact Htxs|]); (split; [done|]).
  - by left.
  - by right.
Qed.
End AppendOnly.

(** ** The readiness route *)

(** X16: what [GET /health/ready] answers.  The status code is 200 or 503;
    it is 200, and the status "ready", exactly when both checks are reported
    "up"; PostgreSQL is reported "up" exactly when [SELECT 1] returned, and
    Redis exactly when the connection could be opened where it was still
    waiting and [PING] returned "PONG". *)
Theorem readyRoute_status (deps : Dependencies) :
  let response := readyRoute deps in
  (ready_statusCode response = 200 ∨ ready_statusCode response = 503)
  ∧ (ready_statusCode response = 200
     ↔ ready_postgres response = "up" ∧ ready_redis response = "up")
  ∧ (ready_status response = "ready" ↔ ready_statusCode response = 200)
  ∧ (ready_postgres response = "up" ↔ ∃ value, selectOne deps = Returned value)
  ∧ (ready_redis response = "up"
     ↔ (redisStatus deps = "wait" → ∃ value, redisConnect deps = Returned value)
       ∧ redisPing deps = Returned "PONG").
Proof.
  unfold readyRoute.
  assert (∀ error : Failure, ¬ ∃ value : unit, Thrown error = Returned value) as Hthrown
    by (intros error [value Hvalue]; discriminate Hvalue).
  destruct (selectOne deps) as [[]|selectError];
    destruct (decide (redisStatus deps = "wait")) as [Hwait|Hready];
    destruct (redisConnect deps) as [[]|connectError];
    destruct (redisPing deps) as [result|pingError];
    try destruct (decide (result = "PONG")) as [->|Hpong]; simpl;
    (split_and!;
     [ tauto
     | split; [intros Hcode|intros [Hpostgres Hredis]]; done
     | split; intros Hstatus; done
     | split; [intros Hup; try discriminate Hup; by exists ()
              |intros Hreturned; try done; by destruct (Hthrown _ Hreturned)]
     | split;
         [ intros Hup; try discriminate Hup;
           (split; [intros Hw; try done; by exists ()|done])
         | intros [Hconnect Hping]; try done;
           try (by destruct (Hthrown _ (Hconnect Hwait)));
           try (injection Hping as ->; done) ] ]).
Qed.

(** ** The scenarios on the example database *)

(** A topup for alice on the example database leaves a consistent ledger. *)
Lemma executeMutation_keeps_ledger_consistent_witness :
  ledgerConsistent
    (database (snd (@executeMutation rootCollator _ InMemoryLockClient defaultEnv
                      TOPUP (aliceRequest 100 "key-1") (drawn "1") seededWorld))).
Proof.
  apply (@executeMutation_keeps_ledger_consistent rootCollator _ InMemoryLockClient
           defaultEnv TOPUP (aliceRequest 100 "key-1") (drawn "1") seededWorld).
  apply seededDatabase_consistent.
Defined.




(** The topup of 100 gold coins for alice: the cache holds what was
    returned. *)
Lemma executeMutation_records_response_witness :
  let run := @executeMutation rootCollator _ InMemoryLockClient defaultEnv
               TOPUP (aliceRequest 100 "key-1") (drawn "1") seededWorld in
  ∃ result,
    fst run = Returned result
    ∧ cacheGet "key-1" (cache (snd run))
      = Some {| cachedRequestFingerprint := "fingerprint-of-key-1";
                cachedStatusCode := statusCode result;
                cachedBody := body result |}.
Proof.
  intros run.
  assert (∃ result, run = (Returned result, snd run) ∧ replayed result = false)
    as (result & Hrun & Hreplayed) by (eexists; vm_compute; split; reflexivity).
  destruct (@executeMutation_records_response rootCollator _ InMemoryLockClient defaultEnv
              TOPUP (aliceRequest 100 "key-1") (drawn "1") seededWorld (snd run) result
              Hrun Hreplayed) as [_ Hcached].
  exists result. split; [by rewrite Hrun|]. by apply Hcached.
Defined.
